(** * Audio peak normalisation: a shallow embedding of [main3.cpp]

    The development follows the three parts of the threaded batch program:

    - the signal processor ([AudioProcessor::normalizePeak] and
      [AudioProcessor::printStats]), written once over an arithmetic
      interface and instantiated at IEEE-754 binary32 (the C++ [float]) and
      at the real numbers (the arithmetic "rounding aside"); the rounding
      errors of [float] are bounded from the definitions of its operations
      in [SpecFloat];
    - the directory filter ([isAudioFile]) and the enumeration loop of
      [main];
    - the worker pool ([worker_thread_func] and the second half of [main]),
      as a transition system whose steps are the critical sections of the
      program; every line of the log, every file and every console line is
      written by a step of its own.

    Definitions come first, the theorems about them follow. *)

From Stdlib Require Import ZArith QArith Qabs List Bool String Ascii Lia Lqa.
From Stdlib Require Import Reals Lra Permutation.
From Stdlib Require Import Floats.SpecFloat.
From stdpp Require Import base list sets.
Import ListNotations.


(* ===================================================================== *)
(** * Part I. Definitions                                                 *)
(* ===================================================================== *)

(** ** 1. The signal processor *)

(** The operations the processor performs on samples.  [f_lt] and [f_eq]
    are the C++ operators [<] and [==]; [f_of_size] is the conversion of
    [audio_data.size()] to the sample type in [sum_squares / size]. *)
Class FloatOps (F : Type) := {
  f_zero : F;
  f_abs : F -> F;
  f_lt : F -> F -> bool;
  f_eq : F -> F -> bool;
  f_add : F -> F -> F;
  f_mul : F -> F -> F;
  f_div : F -> F -> F;
  f_sqrt : F -> F;
  f_of_size : nat -> F
}.

(** A line handed to [AudioProcessor::log]: plain text, or a label
    followed by [to_string] of a number (the number is kept, its decimal
    rendering is not modelled). *)
Inductive logline (F : Type) : Type :=
| Text (s : string)
| Value (label : string) (v : F).
Arguments Text {F} s.
Arguments Value {F} label v.

(** The character written [\n] in the source. *)
Definition newline : string := String (ascii_of_nat 10) EmptyString.

Section SignalProcessor.
Context {F : Type} {ops : FloatOps F}.

(** [std::max(a, b)] is [(a < b) ? b : a]. *)
Definition std_max (a b : F) : F := if f_lt a b then b else a.

(** The peak scan of [normalizePeak] (lines 133-136): a running maximum of
    [abs(sample)], started at [0.0f]. *)
Definition peak_magnitude (audio_data : list F) : F :=
  fold_left (fun peak sample => std_max peak (f_abs sample)) audio_data f_zero.

Definition msg_no_data : string := "Error: No audio data loaded, cannot normalize.".
Definition msg_silence : string := "Warning: Audio contains only silence, cannot normalize.".

(** [AudioProcessor::normalizePeak] (lines 126-154): the new contents of
    [audio_data] and the lines written to the log. *)
Definition normalizePeak (audio_data : list F) (target_peak : F)
  : list F * list (logline F) :=
  match audio_data with
  | [] => (audio_data, [Text msg_no_data])
  | _ :: _ =>
    let peak := peak_magnitude audio_data in
    if f_eq peak f_zero then (audio_data, [Text msg_silence])
    else
      let normalization_factor := f_div target_peak peak in
      (map (fun sample => f_mul sample normalization_factor) audio_data,
       [Value "Original peak magnitude: " peak;
        Value "Normalization factor: " normalization_factor;
        Value "Peak normalized to " target_peak])
  end.

(** [std::min_element]: the first element that no later element is smaller
    than; [smallest] is replaced when [*it < *smallest]. *)
Fixpoint min_element_from (smallest : F) (rest : list F) : F :=
  match rest with
  | [] => smallest
  | x :: rest' => min_element_from (if f_lt x smallest then x else smallest) rest'
  end.

(** [std::max_element]: [largest] is replaced when [*largest < *it]. *)
Fixpoint max_element_from (largest : F) (rest : list F) : F :=
  match rest with
  | [] => largest
  | x :: rest' => max_element_from (if f_lt largest x then x else largest) rest'
  end.

(** The accumulation loop of [printStats] (lines 169-172). *)
Definition sum_squares (audio_data : list F) : F :=
  fold_left (fun acc sample => f_add acc (f_mul sample sample)) audio_data f_zero.

Definition msg_no_stats : string := "No audio data to print statistics for.".

(** [AudioProcessor::printStats] (lines 157-182): the lines written to the
    log; the five numbers are the statistics of the buffer. *)
Definition printStats (audio_data : list F) (title : string) : list (logline F) :=
  match audio_data with
  | [] => [Text msg_no_stats]
  | first :: rest =>
    let min_val := min_element_from first rest in
    let max_val := max_element_from first rest in
    let peak := std_max (f_abs min_val) (f_abs max_val) in
    let rms := f_sqrt (f_div (sum_squares audio_data) (f_of_size (length audio_data))) in
    [Text (newline ++ "--- " ++ title ++ " ---");
     Value "Min value: " min_val;
     Value "Max value: + " max_val;
     Value "Peak magnitude: " peak;
     Value "RMS: " rms;
     Value "Peak-to-RMS ratio: " (if f_lt f_zero rms then f_div peak rms else f_zero)]
  end.

End SignalProcessor.

(** *** IEEE-754 binary32, the C++ [float] *)

Definition prec32 : Z := 24.
Definition emax32 : Z := 128.
Definition binary32 : Type := spec_float.

Definition Z_to_binary32 (z : Z) : binary32 := binary_normalize prec32 emax32 z 0 false.

(** The operations of [float], with the division left open so that a
    statement can say that a result does not depend on it. *)
Definition binary32_ops_with (div : binary32 -> binary32 -> binary32) : FloatOps binary32 :=
  {| f_zero := S754_zero false;
     f_abs := SFabs;
     f_lt := SFltb;
     f_eq := SFeqb;
     f_add := SFadd prec32 emax32;
     f_mul := SFmul prec32 emax32;
     f_div := div;
     f_sqrt := SFsqrt prec32 emax32;
     f_of_size := fun n => Z_to_binary32 (Z.of_nat n) |}.

#[export] Instance binary32_ops : FloatOps binary32 :=
  binary32_ops_with (SFdiv prec32 emax32).

(** The float nearest to [n / d], as the literal [n/d] written in decimal
    would be read (both integers are small enough to be exact). *)
Definition ratio32 (n d : Z) : binary32 :=
  SFdiv prec32 emax32 (Z_to_binary32 n) (Z_to_binary32 d).

(** The rational value of a finite float. *)
Definition binary32_to_Q (x : binary32) : option Q :=
  match x with
  | S754_zero _ => Some 0%Q
  | S754_finite s m e =>
    Some ((if s then -1 else 1) * inject_Z (Z.pos m) * Qpower 2 e)%Q
  | _ => None
  end.

(** [x] lies within [lo, hi] (bounds given as rationals). *)
Definition between32 (lo hi : Q) (x : binary32) : bool :=
  match binary32_to_Q x with
  | Some q => Qle_bool lo q && Qle_bool q hi
  | None => false
  end.

(** [x] equals [y] within the relative tolerance [tol]. *)
Definition close32 (tol : Q) (x y : binary32) : bool :=
  match binary32_to_Q x, binary32_to_Q y with
  | Some p, Some q => Qle_bool (Qabs (p - q)) (tol * Qabs q)
  | _, _ => false
  end.

(** *** The real numbers: the same operations without rounding *)

#[export] Instance real_ops : FloatOps R :=
  {| f_zero := 0%R;
     f_abs := Rabs;
     f_lt := fun a b => if Rlt_dec a b then true else false;
     f_eq := fun a b => if Req_dec_T a b then true else false;
     f_add := Rplus;
     f_mul := Rmult;
     f_div := Rdiv;
     f_sqrt := sqrt;
     f_of_size := INR |}.

(** ** 2. The directory filter and the enumeration loop *)

(** [::tolower] in the "C" locale: the letters [A]-[Z] move to [a]-[z],
    every other byte is left as it is. *)
Definition tolower (c : ascii) : ascii :=
  let n := nat_of_ascii c in
  if (65 <=? n)%nat && (n <=? 90)%nat then ascii_of_nat (n + 32) else c.

(** [std::transform(s.begin(), s.end(), s.begin(), ::tolower)]. *)
Fixpoint transform_tolower (s : string) : string :=
  match s with
  | EmptyString => EmptyString
  | String c rest => String (tolower c) (transform_tolower rest)
  end.

(** [s.rfind(pat)]: the position of the last occurrence of [pat] in [s],
    [None] for [string::npos]. *)
Fixpoint rfind (s pat : string) : option nat :=
  match s with
  | EmptyString => if String.prefix pat EmptyString then Some 0%nat else None
  | String _ rest =>
    match rfind rest pat with
    | Some k => Some (S k)
    | None => if String.prefix pat s then Some 0%nat else None
    end
  end.

(** [r != string::npos]. *)
Definition not_npos (r : option nat) : bool :=
  match r with Some _ => true | None => false end.

(** [isAudioFile] (lines 212-220). *)
Definition isAudioFile (filename : string) : bool :=
  let lower_filename := transform_tolower filename in
  not_npos (rfind lower_filename ".wav") ||
  not_npos (rfind lower_filename ".flac") ||
  not_npos (rfind lower_filename ".ogg") ||
  not_npos (rfind lower_filename ".aiff") ||
  not_npos (rfind lower_filename ".mp3").

(** The allow-list of the filter. *)
Definition audio_extensions : list string :=
  [".wav"; ".flac"; ".ogg"; ".aiff"; ".mp3"]%string.

(** What the comment of [isAudioFile] and the specification ask for: the
    lower-cased name ends with one of the extensions.  This definition
    follows the specification's words, not the code; it is compared with
    [isAudioFile] below. *)
Fixpoint ends_with (s suffix : string) : bool :=
  String.eqb s suffix ||
  match s with
  | EmptyString => false
  | String _ rest => ends_with rest suffix
  end.

Definition has_audio_extension (filename : string) : bool :=
  existsb (ends_with (transform_tolower filename)) audio_extensions.

(** The file type that [stat] reports in [st_mode]. *)
Inductive file_type := S_IFREG | S_IFDIR | S_IFOTHER.

(** A directory entry as the loop sees it: the name from [readdir] and the
    result of [stat] on the full path ([None] when [stat] fails). *)
Record dirent := {
  d_name : string;
  d_stat : option file_type
}.

Record AudioTask := {
  input_filepath : string;
  output_filepath : string;
  filename : string;
  peak_level : binary32
}.

(** [g_active_tasks_count] is an [int]; its arithmetic is written with the
    wrap-around of a 32-bit two's complement integer. *)
Definition INT_MAX : Z := 2147483647.
Definition int_wrap (z : Z) : Z := (z + 2147483648) mod 4294967296 - 2147483648.

(** The test of line 341 and the task built on line 343. *)
Definition eligible (ent : dirent) : bool :=
  negb (String.eqb (d_name ent) "." || String.eqb (d_name ent) "..") &&
  match d_stat ent with
  | Some S_IFREG => isAudioFile (d_name ent)
  | _ => false
  end.

Definition make_task (input_dir output_dir : string) (peak : binary32) (name : string)
  : AudioTask :=
  {| input_filepath := input_dir ++ "/" ++ name;
     output_filepath := output_dir ++ "/normalised_" ++ name;
     filename := name;
     peak_level := peak |}.

(** The enumeration loop of [main] (lines 331-347): the queue and the
    counter after the entries have been read. *)
Definition enumerate (input_dir output_dir : string) (peak : binary32)
  (entries : list dirent) : list AudioTask * Z :=
  fold_left
    (fun (st : list AudioTask * Z) ent =>
       if eligible ent
       then (fst st ++ [make_task input_dir output_dir peak (d_name ent)],
             int_wrap (snd st + 1))
       else st)
    entries ([], 0%Z).

(** ** 3. The worker pool *)

(** How the pipeline of one task ended; each outcome is one console line
    of [worker_thread_func] (lines 255, 259 and 264). *)
Inductive outcome := Saved | SaveFailed | LoadFailed.

(** What the codec (libsndfile) answers for one task: the decoded samples,
    or [None] when [sf_open] fails in [loadAudio]; and whether [sf_open]
    succeeds in [saveAudio]. *)
Record codec := {
  loaded : option (list binary32);
  save_ok : bool
}.

(** Everything the program writes, in the order of the writes.  A [Log]
    event is a line put on the stream of the processor of [file]; the
    stream is flushed by every call of [log] and closed by the destructor,
    and no statement depends on the order in which the lines of different
    processors reach [log.txt]. *)
Inductive event :=
| Log (file : string) (line : logline binary32)   (* log.txt, by the processor of [file] *)
| FileWritten (path : string) (data : list binary32)
| TaskLine (t : AudioTask) (o : outcome)          (* console line of a worker *)
| Cout (s : string)
| CoutFloat (s : string) (v : binary32)
| CoutInt (s : string) (n : Z)
| Cerr (s : string)
| CerrInt (s : string) (n : Z)
| Perror (s : string).      (* [perror(s)]: [s] and the system's text for [errno], on stderr *)

(** The text of a worker's console line, and whether it goes to [cerr]. *)
Definition task_line_text (t : AudioTask) (o : outcome) : bool * string :=
  match o with
  | Saved => (false, "Successfully processed and saved: " ++ output_filepath t)
  | SaveFailed => (true, "Failed to save: " ++ output_filepath t)
  | LoadFailed => (true, "Failed to load: " ++ input_filepath t)
  end%string.

Definition task_outcome (io : codec) : outcome :=
  match loaded io with
  | None => LoadFailed
  | Some _ => if save_ok io then Saved else SaveFailed
  end.

(** [AudioProcessor::log] (lines 84-92) writes to the log only when the
    constructor has opened it. *)
Definition log_lines (log_opens : bool) (file : string)
  (lines : list (logline binary32)) : list event :=
  if log_opens then map (Log file) lines else [].

(** The constructor (lines 50-67) opens the section of the log, or
    complains on [cerr] when [log.txt] does not open.  The time stamp and
    the rules of the heading are left out. *)
Definition constructor_writes (log_opens : bool) (file : string) : list event :=
  if log_opens
  then [Log file (Text ("Processing started for " ++ file))]
  else [Cerr "Could not open the log file log.txt"].

(** The destructor (lines 70-81) closes the section, if the log is open. *)
Definition destructor_writes (log_opens : bool) (file : string) : list event :=
  log_lines log_opens file [Text ("Processing Ended for " ++ file)].

(** What lines 248-251 hand to [log] once the file is decoded: the line
    of [loadAudio], the statistics, the lines of the normalisation, the
    statistics of the result. *)
Definition loaded_lines (t : AudioTask) (audio_data : list binary32)
  : list (logline binary32) :=
  let stats1 := printStats audio_data ("Original Stats for " ++ filename t) in
  let normalized := normalizePeak audio_data (peak_level t) in
  let stats2 := printStats (fst normalized) ("Normalized Stats for " ++ filename t) in
  [Text ("Loaded: " ++ input_filepath t)] ++ stats1 ++ snd normalized ++ stats2.

(** Lines 246-266 for one task, in the order of the writes: the
    constructor of [AudioProcessor], then load, statistics, normalisation,
    statistics and save, and the console line.  [log_opens] is the answer
    of [log_file.open] in the constructor.  The informational lines of
    [loadAudio] and [saveAudio] about channels, duration and frame counts,
    and the text of libsndfile's own error, are left out. *)
Definition pipeline_writes (log_opens : bool) (io : codec) (t : AudioTask) : list event :=
  let file := input_filepath t in
  let log := log_lines log_opens file in
  constructor_writes log_opens file ++
  match loaded io with
  | None =>
    log [Text ("Error: Cannot open file " ++ file)] ++ [TaskLine t LoadFailed]
  | Some audio_data =>
    log (loaded_lines t audio_data) ++
    (if save_ok io
     then [FileWritten (output_filepath t) (fst (normalizePeak audio_data (peak_level t)))]
          ++ log [Text ("Saved to: " ++ output_filepath t)]
          ++ [TaskLine t Saved]
     else log [Text ("Error: Cannot create output file " ++ output_filepath t)]
          ++ [TaskLine t SaveFailed])
  end.

(** Everything the processor of one task writes, from its constructor to
    its destructor. *)
Definition process_task (log_opens : bool) (io : codec) (t : AudioTask) : list event :=
  pipeline_writes log_opens io t ++ destructor_writes log_opens (input_filepath t).

(** The writes of lines 246-266 when the log has opened. *)
Definition run_pipeline (io : codec) (t : AudioTask) : list event :=
  pipeline_writes true io t.

(** What the outside world answers to a worker: whether [log.txt] opens
    in the constructor of the processor (line 56), and what libsndfile
    does.  A step of a worker reads the answer to its own call only. *)
Record answers := {
  log_file_opens : bool;
  sndfile : codec
}.

(** The call that a worker makes once the lines it has handed to [log]
    are written. *)
Inductive next_call :=
| ThenLoad                          (* [sf_open] of [loadAudio], line 97 *)
| ThenSave (data : list binary32)   (* [sf_open] of [saveAudio], line 191; [data] is [audio_data] *)
| ThenLine (o : outcome).           (* the console line of lines 254-265 *)

(** Where a worker thread stands in [worker_thread_func]. *)
Inductive wstate :=
| WIdle                  (* at the lock of line 226, or woken inside the wait loop *)
| WWait                  (* parked in [pthread_cond_wait(&g_cv_tasks)] *)
| WProc (t : AudioTask)  (* popped [t] and released the lock (line 242) *)
| WRun (t : AudioTask) (log_open : bool)
       (pending : list (logline binary32)) (next : next_call)
                         (* in lines 248-266, with the processor constructed:
                            [pending] are the lines handed to [log] and not yet
                            written, [next] is the call that follows them *)
| WDone (t : AudioTask) (log_open : bool)
                         (* console line printed, before the lock of line 269 *)
| WDtor (t : AudioTask) (log_open : bool)
                         (* counter decremented; [~AudioProcessor] still to run *)
| WExit.                 (* returned *)

(** Where the main thread stands after the enumeration. *)
Inductive mstate :=
| MCheck                 (* line 355 *)
| MCreate (i : nat)      (* the loop of lines 361-367, at index [i] *)
| MBroadcast             (* line 370 *)
| MDrain                 (* lines 373-375: the lock and the test of the wait loop *)
| MDrainWait             (* parked in [pthread_cond_wait(&g_cv_done)] *)
| MStop                  (* lines 381-384 *)
| MJoin (i : nat)        (* the loop of lines 387-389, at index [i] *)
| MReport                (* lines 392-397 *)
| MExit (code : Z).      (* [return code] *)

(** The globals of the program, the threads and the output so far.

    Granularity: a step of a thread is one critical section (the code from
    a lock to the matching unlock or wait).  The globals are read and
    written under [g_queue_mutex] only; a line of the log and a console
    line of a worker are written under [g_log_mutex], one line per critical
    section; the calls of libsndfile are steps of their own.  So the writes
    of different workers interleave line by line in [trace].  What a worker
    computes between two writes (the statistics, the normalisation) touches
    its own processor only and is done within the step that precedes the
    writes.  [log_open] is [log_file.is_open()] of the worker's
    processor. *)
Record pool := {
  g_task_queue : list AudioTask;
  g_active_tasks_count : Z;
  g_stop_threads : bool;
  threads : list wstate;
  main_pc : mstate;
  trace : list event
}.

Definition set_main (pc : mstate) (s : pool) : pool :=
  {| g_task_queue := g_task_queue s; g_active_tasks_count := g_active_tasks_count s;
     g_stop_threads := g_stop_threads s; threads := threads s;
     main_pc := pc; trace := trace s |}.

Definition set_threads (ths : list wstate) (s : pool) : pool :=
  {| g_task_queue := g_task_queue s; g_active_tasks_count := g_active_tasks_count s;
     g_stop_threads := g_stop_threads s; threads := ths;
     main_pc := main_pc s; trace := trace s |}.

Definition set_thread (i : nat) (w : wstate) (s : pool) : pool :=
  set_threads (<[i := w]> (threads s)) s.

Definition set_queue (q : list AudioTask) (s : pool) : pool :=
  {| g_task_queue := q; g_active_tasks_count := g_active_tasks_count s;
     g_stop_threads := g_stop_threads s; threads := threads s;
     main_pc := main_pc s; trace := trace s |}.

Definition set_count (c : Z) (s : pool) : pool :=
  {| g_task_queue := g_task_queue s; g_active_tasks_count := c;
     g_stop_threads := g_stop_threads s; threads := threads s;
     main_pc := main_pc s; trace := trace s |}.

Definition set_stop (b : bool) (s : pool) : pool :=
  {| g_task_queue := g_task_queue s; g_active_tasks_count := g_active_tasks_count s;
     g_stop_threads := b; threads := threads s;
     main_pc := main_pc s; trace := trace s |}.

Definition emit (evs : list event) (s : pool) : pool :=
  {| g_task_queue := g_task_queue s; g_active_tasks_count := g_active_tasks_count s;
     g_stop_threads := g_stop_threads s; threads := threads s;
     main_pc := main_pc s; trace := trace s ++ evs |}.

(** [pthread_cond_broadcast(&g_cv_tasks)]: every parked worker is woken and
    will test its wait condition again. *)
Definition wake (w : wstate) : wstate :=
  match w with WWait => WIdle | _ => w end.

(** [pthread_cond_signal(&g_cv_done)]: the main thread is the only thread
    that ever waits on this condition. *)
Definition signal_done (pc : mstate) : mstate :=
  match pc with MDrainWait => MDrain | _ => pc end.

(** The state after the enumeration has pushed [tasks] and counted
    [count]. *)
Definition after_enumeration (tasks : list AudioTask) (count : Z) (out : list event) : pool :=
  {| g_task_queue := tasks; g_active_tasks_count := count;
     g_stop_threads := false; threads := []; main_pc := MCheck; trace := out |}.

(** The text of line 363. *)
Definition msg_thread : string := "Error: Could not create thread ".

(** The text of line 397 (after its leading newline). *)
Definition msg_total : string := "Batch processing completed. Total files processed: ".

Section Pool.
(** [int num_threads = 4] in the source; the steps are written for any
    number. *)
Variable num_threads : nat.

(** One step of the main thread, from line 355 on.  [create_ok] is the
    answer of [pthread_create], used on line 362 only.  [None]: the thread
    is blocked (or has returned). *)
Definition main_step (create_ok : bool) (s : pool) : option pool :=
  match main_pc s with
  | MCheck =>
    if (g_active_tasks_count s =? 0)%Z
    then Some (set_main (MExit 0) (emit [Cout "No audio files found to process."] s))
    else Some (set_main (MCreate 0) s)
  | MCreate i =>
    if (i <? num_threads)%nat then
      if create_ok
      then Some (set_main (MCreate (S i)) (set_threads (threads s ++ [WIdle]) s))
      else Some (set_main (MExit 1)
                   (emit [CerrInt msg_thread (Z.of_nat i)] s))
    else Some (set_main MBroadcast s)
  | MBroadcast => Some (set_main MDrain (set_threads (map wake (threads s)) s))
  | MDrain =>
    if (0 <? g_active_tasks_count s)%Z
    then Some (set_main MDrainWait s)
    else Some (set_main MStop s)
  | MDrainWait => None
  | MStop =>
    Some (set_main (MJoin 0) (set_threads (map wake (threads s)) (set_stop true s)))
  | MJoin i =>
    if (i <? num_threads)%nat then
      match threads s !! i with
      | Some WExit => Some (set_main (MJoin (S i)) s)
      | _ => None
      end
    else Some (set_main MReport s)
  | MReport =>
    Some (set_main (MExit 0)
            (emit [CoutInt msg_total (g_active_tasks_count s)] s))
  | MExit _ => None
  end.

End Pool.

(** One step of a worker inside lines 246-266, where it touches no global:
    its next place and what the step writes.  [io] is what the outside
    world answers to the call made in this step, if it makes one. *)
Definition pipeline_step (io : answers) (w : wstate) : wstate * list event :=
  match w with
  | WProc t =>
    (* line 246: the constructor *)
    let log_open := log_file_opens io in
    (WRun t log_open [] ThenLoad, constructor_writes log_open (input_filepath t))
  | WRun t log_open (line :: rest) next =>
    (* one call of [log] *)
    (WRun t log_open rest next, log_lines log_open (input_filepath t) [line])
  | WRun t log_open [] ThenLoad =>
    (* line 248: [loadAudio] up to its first call of [log]; on success
       lines 249-251 are computed on the decoded samples *)
    match loaded (sndfile io) with
    | None =>
      (WRun t log_open [Text ("Error: Cannot open file " ++ input_filepath t)]
         (ThenLine LoadFailed), [])
    | Some audio_data =>
      (WRun t log_open (loaded_lines t audio_data)
         (ThenSave (fst (normalizePeak audio_data (peak_level t)))), [])
    end
  | WRun t log_open [] (ThenSave data) =>
    (* line 252: [saveAudio] up to its first call of [log] *)
    if save_ok (sndfile io)
    then (WRun t log_open [Text ("Saved to: " ++ output_filepath t)] (ThenLine Saved),
          [FileWritten (output_filepath t) data])
    else (WRun t log_open
            [Text ("Error: Cannot create output file " ++ output_filepath t)]
            (ThenLine SaveFailed), [])
  | WRun t log_open [] (ThenLine o) =>
    (* lines 254-256, 258-260 or 263-265 *)
    (WDone t log_open, [TaskLine t o])
  | _ => (w, [])
  end.

(** One step of worker [i] in [worker_thread_func].  [None]: the worker is
    parked, has returned, does not exist, or the process has ended. *)
Definition worker_step (i : nat) (io : answers) (s : pool) : option pool :=
  match main_pc s with
  | MExit _ => None
  | _ =>
    match threads s !! i with
    | Some WIdle =>
      match g_task_queue s, g_stop_threads s with
      | [], false => Some (set_thread i WWait s)
      | [], true => Some (set_thread i WExit s)
      | task :: rest, _ => Some (set_thread i (WProc task) (set_queue rest s))
      end
    | Some ((WProc _ | WRun _ _ _ _) as w) =>
      let (w', written) := pipeline_step io w in
      Some (set_thread i w' (emit written s))
    | Some (WDone t log_open) =>
      (* lines 269-275 *)
      let count := int_wrap (g_active_tasks_count s - 1) in
      let s1 := set_count count s in
      let s2 := if (count =? 0)%Z && bool_decide (g_task_queue s = [])
                then set_main (signal_done (main_pc s)) s1 else s1 in
      Some (set_thread i (WDtor t log_open) s2)
    | Some (WDtor t log_open) =>
      (* line 276: the end of the iteration destroys the processor *)
      Some (set_thread i WIdle
              (emit (destructor_writes log_open (input_filepath t)) s))
    | Some WWait | Some WExit | None => None
    end
  end.

(** A wake-up without a signal, which [pthread_cond_wait] allows. *)
Definition spurious_worker (i : nat) (s : pool) : option pool :=
  match main_pc s, threads s !! i with
  | MExit _, _ => None
  | _, Some WWait => Some (set_thread i WIdle s)
  | _, _ => None
  end.

Definition spurious_main (s : pool) : option pool :=
  match main_pc s with
  | MDrainWait => Some (set_main MDrain s)
  | _ => None
  end.

(** The scheduler's choices. *)
Inductive action :=
| Main (create_ok : bool)
| Worker (i : nat) (io : answers)
| SpuriousWorker (i : nat)
| SpuriousMain.

Definition is_spurious (a : action) : bool :=
  match a with SpuriousWorker _ | SpuriousMain => true | _ => false end.

Section Runs.
Variable num_threads : nat.

Definition exec (a : action) (s : pool) : option pool :=
  match a with
  | Main create_ok => main_step num_threads create_ok s
  | Worker i io => worker_step i io s
  | SpuriousWorker i => spurious_worker i s
  | SpuriousMain => spurious_main s
  end.

(** Running a schedule; [None] when one of its actions is not enabled. *)
Fixpoint run (schedule : list action) (s : pool) : option pool :=
  match schedule with
  | [] => Some s
  | a :: rest =>
    match exec a s with
    | Some s' => run rest s'
    | None => None
    end
  end.

Definition reachable (s0 s : pool) : Prop :=
  exists schedule, run schedule s0 = Some s.

(** No action is enabled. *)
Definition stuck (s : pool) : Prop := forall a, exec a s = None.

End Runs.

(** ** 4. The configuration phase of [main] (lines 281-353) *)

(** What the program finds when it starts. *)
Record environment := {
  argv : list string;                       (* [argv[0]], [argv[1]], ... *)
  stof : string -> option binary32;         (* [std::stof]; [None] when it throws *)
  input_stat : option file_type;            (* [stat(input_dir_path)] *)
  output_stat : option file_type;           (* [stat(output_dir_path)] *)
  mkdir_ok : bool;                          (* [mkdir(output_dir_path) == 0] *)
  opendir_input : option (list dirent)      (* [opendir]/[readdir]; [None]: [opendir] fails *)
}.

(** How the configuration phase ends: with [return code], with the
    uncaught exception of [stof] (the process is aborted by
    [std::terminate]), or with the pool ready to run from line 355. *)
Inductive startup :=
| StartupExit (code : Z) (out : list event)
| StartupAbort
| StartupPool (s : pool).

Definition startup_main (env : environment) : startup :=
  match argv env with
  | prog :: input_dir_path :: output_dir_path :: rest =>
    match (match rest with [] => Some (Z_to_binary32 1) | a :: _ => stof env a end) with
    | None => StartupAbort
    | Some peak_level =>
      let out0 :=
        [Cout ("Processing audio files from: " ++ input_dir_path);
         Cout ("Saving normalized files to: " ++ output_dir_path);
         CoutFloat "Target peak level: " peak_level] in
      match input_stat env with
      | Some S_IFDIR =>
        let enumeration (out : list event) :=
          match opendir_input env with
          | Some entries =>
            let filled := enumerate input_dir_path output_dir_path peak_level entries in
            StartupPool (after_enumeration (fst filled) (snd filled) out)
          | None =>
            StartupExit 1 (out ++ [Cerr ("Error: Could not open directory " ++ input_dir_path);
                                   Perror "opendir"])
          end in
        match output_stat env with
        | None =>
          if mkdir_ok env
          then enumeration (out0 ++ [Cout ("Created output directory: " ++ output_dir_path)])
          else StartupExit 1
                 (out0 ++ [Cerr ("Error: Could not create output directory " ++ output_dir_path)])
        | Some S_IFDIR => enumeration out0
        | Some _ =>
          StartupExit 1
            (out0 ++ [Cerr ("Error: Output path '" ++ output_dir_path
                            ++ "' exists but is not a directory.")])
        end
      | _ =>
        StartupExit 1
          (out0 ++ [Cerr ("Error: Input path '" ++ input_dir_path
                          ++ "' is not a valid directory.")])
      end
    end
  | prog :: _ =>
    StartupExit 1
      [Cout ("Usage: " ++ prog ++ " <input_directory> <output_directory> [peak_level]");
       Cout ("Example: " ++ prog ++ " audio_inputs normalized_outputs 0.9")]
  | [] => StartupExit 1 []
  end.

(** ** 5. Vocabulary of the statements *)

(** The tasks a worker holds: popped, and not yet counted down. *)
Definition holding (w : wstate) : list AudioTask :=
  match w with
  | WProc t | WRun t _ _ _ | WDone t _ => [t]
  | _ => []
  end.

(** The tasks a worker has popped and not yet run through the pipeline:
    their console line is still to come. *)
Definition popped (w : wstate) : list AudioTask :=
  match w with
  | WProc t | WRun t _ _ _ => [t]
  | _ => []
  end.

Definition in_flight (ths : list wstate) : list AudioTask := flat_map holding ths.

(** The tasks whose pipeline has run: those with a console line. *)
Definition processed (out : list event) : list AudioTask :=
  flat_map (fun ev => match ev with TaskLine t _ => [t] | _ => [] end) out.

(** The main thread is past the wait loop of lines 375-377. *)
Definition past_drain (pc : mstate) : bool :=
  match pc with
  | MStop | MJoin _ | MReport | MExit 0 => true
  | _ => false
  end.

(** The numbers that the final line of the program has printed. *)
Definition reported_totals (out : list event) : list Z :=
  flat_map (fun ev =>
              match ev with
              | CoutInt s n => if String.eqb s msg_total then [n] else []
              | _ => []
              end) out.

(** Work left in a state, counted in steps: no schedule without spurious
    wake-ups is longer than this.  [broadcasts] is the number of
    broadcasts on [g_cv_tasks] still to come. *)
Definition broadcasts (pc : mstate) : nat :=
  match pc with
  | MCheck | MCreate _ | MBroadcast => 2
  | MDrain | MDrainWait | MStop => 1
  | _ => 0
  end.

Definition call_weight (next : next_call) : nat :=
  match next with
  | ThenLine _ => 0
  | ThenSave _ => 2
  | ThenLoad => 19
  end.

Definition worker_weight (b : nat) (w : wstate) : nat :=
  match w with
  | WExit => 0
  | WWait => 2 * b
  | WIdle => 2 * b + 1
  | WDtor _ _ => 2 * b + 2
  | WDone _ _ => 2 * b + 3
  | WRun _ _ pending next => 2 * b + 4 + length pending + call_weight next
  | WProc _ => 2 * b + 24
  end.

Definition main_weight (n : nat) (count : Z) (pc : mstate) : nat :=
  match pc with
  | MExit _ => 0
  | MReport => 1
  | MJoin i => 2 + (n - i)
  | MStop => n + 3
  | MDrain => if (0 <? count)%Z then n + 6 else n + 4
  | MDrainWait => n + 5
  | MBroadcast => n + 7
  | MCreate i => n + 8 + 6 * (n - i)
  | MCheck => 7 * n + 9
  end.

Definition weight (n : nat) (s : pool) : nat :=
  main_weight n (g_active_tasks_count s) (main_pc s)
  + list_sum (map (worker_weight (broadcasts (main_pc s))) (threads s))
  + 24 * length (g_task_queue s).

(** ** 6. The invariant of the pool *)

(** What holds in every state that the program reaches from the end of an
    enumeration that pushed [tasks], with [n] worker threads to create. *)
Record pool_inv (n : nat) (tasks : list AudioTask) (s : pool) : Prop := {
  (* the counter counts the queue and the tasks held by workers *)
  inv_count :
    g_active_tasks_count s
    = Z.of_nat (length (g_task_queue s) + length (in_flight (threads s)));
  inv_count_max :
    (g_active_tasks_count s <= Z.of_nat (length tasks) <= INT_MAX)%Z;
  (* every pushed task is in exactly one place *)
  inv_tasks :
    Permutation
      (processed (trace s) ++ flat_map popped (threads s) ++ g_task_queue s) tasks;
  (* the stop flag is set by line 382 and by nothing else *)
  inv_stop :
    match main_pc s with
    | MJoin _ | MReport => g_stop_threads s = true
    | MExit _ => True
    | _ => g_stop_threads s = false
    end;
  (* past the wait loop the counter is zero *)
  inv_drained : past_drain (main_pc s) = true -> g_active_tasks_count s = 0%Z;
  (* the main thread is parked only while work is outstanding *)
  inv_parked : main_pc s = MDrainWait -> (0 < g_active_tasks_count s)%Z;
  (* the threads created so far *)
  inv_threads :
    match main_pc s with
    | MCheck => threads s = [] /\ processed (trace s) = []
    | MCreate i => length (threads s) = i /\ (i <= n)%nat
    | MExit _ => (length (threads s) <= n)%nat
    | _ => length (threads s) = n
    end;
  (* a worker parks only on an empty queue, and none is parked after the stop *)
  inv_wait : WWait ∈ threads s -> g_task_queue s = [] /\ g_stop_threads s = false;
  (* a worker returns only after the stop *)
  inv_exit : WExit ∈ threads s -> g_stop_threads s = true;
  (* the threads joined so far have returned *)
  inv_joined :
    match main_pc s with
    | MJoin i => forall j, (j < i)%nat -> threads s !! j = Some WExit
    | MReport | MExit 0 => Forall (fun w => w = WExit) (threads s)
    | _ => True
    end;
  (* workers exist only for a batch that is not empty *)
  inv_batch :
    match main_pc s with
    | MCheck | MExit 0 => True
    | _ => tasks <> []
    end;
  (* the final line is printed once, at the end, and prints the counter *)
  inv_report :
    reported_totals (trace s) = [] \/
    (reported_totals (trace s) = [0%Z] /\ main_pc s = MExit 0 /\ tasks <> []);
  inv_reported :
    main_pc s = MExit 0 -> tasks <> [] -> reported_totals (trace s) = [0%Z];
  (* [main] returns 0, or 1 after a failed [pthread_create] *)
  inv_code :
    match main_pc s with
    | MExit code =>
      code = 0%Z \/
      (code = 1%Z /\ exists k, (k < n)%nat /\ CerrInt msg_thread (Z.of_nat k) ∈ trace s)
    | _ => True
    end
}.

(** The process has not ended. *)
Definition running (s : pool) : Prop :=
  match main_pc s with MExit _ => False | _ => True end.

(** A worker inside lines 246-266. *)
Definition in_pipeline (w : wstate) : bool :=
  match w with
  | WProc _ | WRun _ _ _ _ => true
  | _ => false
  end.

(** The steps of a worker, as a relation. *)
Inductive worker_case (i : nat) (io : answers) (s : pool) : pool -> Prop :=
| wc_wait :
    threads s !! i = Some WIdle -> g_task_queue s = [] -> g_stop_threads s = false ->
    worker_case i io s (set_thread i WWait s)
| wc_exit :
    threads s !! i = Some WIdle -> g_task_queue s = [] -> g_stop_threads s = true ->
    worker_case i io s (set_thread i WExit s)
| wc_pop t rest :
    threads s !! i = Some WIdle -> g_task_queue s = t :: rest ->
    worker_case i io s (set_thread i (WProc t) (set_queue rest s))
| wc_pipeline w :
    threads s !! i = Some w -> in_pipeline w = true ->
    worker_case i io s
      (set_thread i (fst (pipeline_step io w)) (emit (snd (pipeline_step io w)) s))
| wc_complete t log_open :
    threads s !! i = Some (WDone t log_open) ->
    worker_case i io s
      (set_thread i (WDtor t log_open)
         (let count := int_wrap (g_active_tasks_count s - 1) in
          if (count =? 0)%Z && bool_decide (g_task_queue s = [])
          then set_main (signal_done (main_pc s)) (set_count count s)
          else set_count count s))
| wc_dtor t log_open :
    threads s !! i = Some (WDtor t log_open) ->
    worker_case i io s
      (set_thread i WIdle
         (emit (destructor_writes log_open (input_filepath t)) s)).

(** The counter has not wrapped below zero while the main thread tests it
    (it never does: see [inv_count]). *)
Definition counter_sane (s : pool) : Prop :=
  main_pc s = MDrain -> (-2147483648 < g_active_tasks_count s)%Z.

(** The state at line 355 after an enumeration that pushed [tasks]: the
    counter has counted them (they are fewer than [INT_MAX]), and nothing
    printed so far is a worker's line or the final line. *)
Definition batch_start (tasks : list AudioTask) (s0 : pool) : Prop :=
  (Z.of_nat (length tasks) <= INT_MAX)%Z /\
  exists out,
    s0 = after_enumeration tasks (Z.of_nat (length tasks)) out /\
    processed out = [] /\ reported_totals out = [].


(** What holds from the stop broadcast of lines 381-384 on, when it is
    made with an empty queue and all [n] threads created. *)
Record shutdown_inv (n : nat) (s : pool) : Prop := {
  sd_stop : g_stop_threads s = true;
  sd_queue : g_task_queue s = [];
  sd_awake : WWait ∉ threads s;
  sd_threads : length (threads s) = n;
  sd_joined :
    match main_pc s with
    | MJoin i => forall j, (j < i)%nat -> threads s !! j = Some WExit
    | MReport | MExit 0 => Forall (fun w => w = WExit) (threads s)
    | _ => False
    end
}.

(** The directory is small enough for the [int] counter. *)
Definition entries_fit (env : environment) : Prop :=
  forall entries, opendir_input env = Some entries ->
    (Z.of_nat (length entries) <= INT_MAX)%Z.

(** ** 7. Vocabulary of the statements about samples *)

(** A sample that is zero: [+0.0f] or [-0.0f]. *)
Definition is_zero32 (x : binary32) : bool :=
  match x with S754_zero _ => true | _ => false end.

(** The buffer of the specification's example: -0.5, 0.25, -1.0, 0.75. *)
Definition example_buffer : list binary32 :=
  [ratio32 (-1) 2; ratio32 1 4; ratio32 (-1) 1; ratio32 3 4].

(** The numbers that [printStats] writes, in the order of the lines. *)
Definition logged_values {F : Type} (lines : list (logline F)) : list F :=
  flat_map (fun l => match l with Value _ v => [v] | Text _ => [] end) lines.

(** [x] is [q] when both are rounded to four decimals. *)
Definition approx4 (x : binary32) (q : Q) : bool :=
  between32 (q - (5 # 100000))%Q (q + (5 # 100000))%Q x.


Definition negative_target : binary32 := ratio32 (-1) 2.

(** The buffer of the end-to-end scenario (peak 0.5) and its target 0.9. *)
Definition scenario_buffer : list binary32 := [ratio32 1 2; ratio32 (-1) 4; ratio32 1 8].
Definition scenario_target : binary32 := ratio32 9 10.

(** ** 8. Vocabulary of the statements about file names *)

(** [pat] occurs somewhere in [s]. *)
Definition occurs_in (pat s : string) : Prop :=
  exists before after, s = (before ++ pat ++ after)%string.

(** A regular file whose name carries an audio extension in the middle:
    its extension is ".txt". *)
Definition inner_extension_entry : dirent :=
  {| d_name := "notes.wav.txt"; d_stat := Some S_IFREG |}.


(** *** The real value of a float, and the floats that round without surprise *)

(** [2^e] as a real number. *)
Definition pow2 (e : Z) : R := powerRZ 2 e.

(** The value of a finite float; 0 for the others. *)
Definition B2R (x : binary32) : R :=
  match x with
  | S754_finite s m e => ((if s then -1 else 1) * IZR (Z.pos m) * pow2 e)%R
  | _ => 0%R
  end.

(** The real [x] lies in the interval [[m, m+1) * 2^e] of the mantissa of
    [mrs], and the round and sticky bits of [mrs] say where: at the lower
    end, in the lower half, at the middle, or in the upper half. *)
Definition brackets (x : R) (mrs : shr_record) (e : Z) : Prop :=
  let lo := (IZR (shr_m mrs) * pow2 e)%R in
  let mid := ((IZR (shr_m mrs) + / 2) * pow2 e)%R in
  let hi := ((IZR (shr_m mrs) + 1) * pow2 e)%R in
  (lo <= x < hi)%R /\
  match shr_r mrs, shr_s mrs with
  | false, false => x = lo
  | false, true => (lo < x < mid)%R
  | true, false => x = mid
  | true, true => (mid < x)%R
  end.

(** A normal float: a finite float with a 24-digit mantissa. *)
Definition normal32 (x : binary32) : bool :=
  match x with
  | S754_finite _ m e =>
    (8388608 <=? Z.pos m)%Z && (Z.pos m <? 16777216)%Z && (-149 <=? e)%Z && (e <=? 104)%Z
  | _ => false
  end.

Definition exponent32 (x : binary32) : Z :=
  match x with S754_finite _ _ e => e | _ => 0%Z end.

Definition sign32 (x : binary32) : bool :=
  match x with
  | S754_finite s _ _ | S754_zero s | S754_infinity s => s
  | S754_nan => false
  end.

(** The unit roundoff of [float]: [2^-24]. *)
Definition u32 : R := pow2 (-24).

(** [y] is [x] up to the relative error [u]. *)
Definition rel_close (u y x : R) : Prop := (Rabs (y - x) <= u * Rabs x)%R.

(** A float that is a zero or a normal number (no subnormal, infinity or
    NaN). *)
Definition zero_or_normal (x : binary32) : bool := is_zero32 x || normal32 x.

(** A normal float of moderate size, [2^-40 <= |x| < 2^40]: the exponent
    of its 24-digit mantissa lies between -63 and 16. *)
Definition moderate32 (x : binary32) : bool :=
  normal32 x && (-63 <=? exponent32 x)%Z && (exponent32 x <=? 16)%Z.

(** A sample that is zero or of moderate size. *)
Definition sample_in_range (x : binary32) : bool := is_zero32 x || moderate32 x.

(** The tolerances of the statements in [float] arithmetic: four and eight
    times the unit roundoff. *)
Definition peak_tolerance : R := pow2 (-22).
Definition sample_tolerance : R := pow2 (-21).

(** ** 9. A scheduler and the end-to-end scenario of the specification *)

(** The scenario: the input directory holds [a.wav] (peak 0.5), [b.wav]
    (silence) and [readme.txt]; the target is 0.9. *)
Definition demo_env : environment :=
  {| argv := ["audio_normalizer"; "in"; "out"; "0.9"]%string;
     stof := fun s => if String.eqb s "0.9" then Some scenario_target else None;
     input_stat := Some S_IFDIR;
     output_stat := Some S_IFDIR;
     mkdir_ok := false;
     opendir_input :=
       Some [ {| d_name := "."; d_stat := Some S_IFDIR |};
              {| d_name := ".."; d_stat := Some S_IFDIR |};
              {| d_name := "a.wav"; d_stat := Some S_IFREG |};
              {| d_name := "b.wav"; d_stat := Some S_IFREG |};
              {| d_name := "readme.txt"; d_stat := Some S_IFREG |} ] |}.

(** The codec answers of the scenario, a codec that fails to load, and
    the answers to a worker whose log opens and whose load fails. *)
Definition demo_codec (t : AudioTask) : codec :=
  if String.eqb (filename t) "a.wav"
  then {| loaded := Some scenario_buffer; save_ok := true |}
  else {| loaded := Some [S754_zero false; S754_zero true]; save_ok := true |}.

Definition failing_codec : codec := {| loaded := None; save_ok := false |}.

Definition failing_answers : answers :=
  {| log_file_opens := true; sndfile := failing_codec |}.

(** The pool at line 355 in the scenario, and its two tasks. *)
Definition demo_start : pool :=
  match startup_main demo_env with
  | StartupPool s => s
  | _ => after_enumeration [] 0 []
  end.

Definition demo_tasks : list AudioTask := g_task_queue demo_start.

(** A scheduler: the main thread runs whenever it can, otherwise the first
    worker that can; no [pthread_create] fails and no wake-up is spurious. *)
Definition codec_for (codec_of : AudioTask -> codec) (s : pool) (i : nat) : answers :=
  match threads s !! i with
  | Some (WProc t) | Some (WRun t _ _ _) =>
    {| log_file_opens := true; sndfile := codec_of t |}
  | _ => {| log_file_opens := true; sndfile := failing_codec |}
  end.

Fixpoint first_enabled (n : nat) (codec_of : AudioTask -> codec) (s : pool)
  (i count : nat) : option action :=
  match count with
  | O => None
  | S count' =>
    let a := Worker i (codec_for codec_of s i) in
    match exec n a s with
    | Some _ => Some a
    | None => first_enabled n codec_of s (S i) count'
    end
  end.

Definition next_action (n : nat) (codec_of : AudioTask -> codec) (s : pool)
  : option action :=
  match exec n (Main true) s with
  | Some _ => Some (Main true)
  | None => first_enabled n codec_of s 0 (length (threads s))
  end.

Fixpoint drive (n : nat) (codec_of : AudioTask -> codec) (fuel : nat) (s : pool)
  : list action :=
  match fuel with
  | O => []
  | S fuel' =>
    match next_action n codec_of s with
    | Some a =>
      match exec n a s with
      | Some s' => a :: drive n codec_of fuel' s'
      | None => []
      end
    | None => []
    end
  end.

(** The state [schedule] leads to ([s] itself when it cannot run). *)
Definition state_after (n : nat) (schedule : list action) (s : pool) : pool :=
  match run n schedule s with Some s' => s' | None => s end.

(** The scenario run to its end with the four threads of the source. *)
Definition demo_schedule : list action := drive 4 demo_codec 120 demo_start.
Definition demo_final : pool := state_after 4 demo_schedule demo_start.

(** The scenario up to the pop of the first task by worker 0. *)
Definition demo_popped : pool :=
  state_after 4 (firstn 9 demo_schedule) demo_start.

(** The scenario when [pthread_create] fails for the second thread. *)
Definition demo_create_failure : list action := [Main true; Main true; Main false].

(** A state at line 381 with two workers parked, one at the top of its loop
    and one finishing a task. *)
Definition demo_before_stop : pool :=
  {| g_task_queue := []; g_active_tasks_count := 0; g_stop_threads := false;
     threads := [WWait; WIdle; WWait;
                 WDtor (make_task "in" "out" scenario_target "a.wav") true];
     main_pc := MStop; trace := [] |}.

(** The first task of the scenario. *)
Definition demo_task_a : AudioTask := make_task "in" "out" scenario_target "a.wav".

(** The state after the stop step at [demo_before_stop]. *)
Definition demo_after_stop : pool := state_after 4 [Main true] demo_before_stop.


(** A silent buffer: [+0.0f] and [-0.0f]. *)
Definition silent_buffer : list binary32 := [S754_zero false; S754_zero true].

(** ** 10. Vocabulary of the further properties *)

(** *** Samples *)

Definition is_nan32 (x : binary32) : bool :=
  match x with S754_nan => true | _ => false end.

(** A finite number of [float]: a zero, or a mantissa of at most 24 digits
    with an exponent in range, normalised unless the exponent is the
    smallest one (the subnormal numbers). *)
Definition finite32 (x : binary32) : bool :=
  match x with
  | S754_zero _ => true
  | S754_finite _ m e =>
    (Z.pos m <? 16777216)%Z && (-149 <=? e)%Z && (e <=? 104)%Z
    && ((8388608 <=? Z.pos m)%Z || (e =? -149)%Z)
  | _ => false
  end.

(** The buffer without its NaN samples. *)
Definition without_nan (audio_data : list binary32) : list binary32 :=
  filter (fun x => is_nan32 x = false) audio_data.

(** A buffer of NaN and silence. *)
Definition nan_buffer : list binary32 := [S754_nan; S754_zero false; S754_nan].

(** *** The output of the pool *)

(** The files written so far, with their samples, in the order of the
    writes. *)
Definition written (out : list event) : list (string * list binary32) :=
  flat_map (fun ev => match ev with FileWritten path data => [(path, data)] | _ => [] end)
           out.

(** The tasks reported as saved on the console. *)
Definition saved (out : list event) : list AudioTask :=
  flat_map (fun ev => match ev with TaskLine t Saved => [t] | _ => [] end) out.

(** The files whose section of the log has been closed by the destructor
    of their processor. *)
Definition closed_sections (out : list event) : list string :=
  flat_map (fun ev =>
              match ev with
              | Log file (Text s) =>
                if String.prefix "Processing Ended for " s then [file] else []
              | _ => []
              end) out.

(** The files whose section of the log has been opened by the
    constructor of their processor. *)
Definition opened_sections (out : list event) : list string :=
  flat_map (fun ev =>
              match ev with
              | Log file (Text s) =>
                if String.prefix "Processing started for " s then [file] else []
              | _ => []
              end) out.

(** The tasks whose processor is alive with its log open: their section
    is opened and not yet closed. *)
Definition unclosed (w : wstate) : list AudioTask :=
  match w with
  | WRun t true _ _ | WDone t true | WDtor t true => [t]
  | _ => []
  end.

(** The tasks whose processor is constructed and whose console line is
    still to come. *)
Definition started (w : wstate) : list AudioTask :=
  match w with
  | WRun t _ _ _ => [t]
  | _ => []
  end.

(** The tasks whose output file is written and whose console line is
    still to come. *)
Definition saving (w : wstate) : list AudioTask :=
  match w with
  | WRun t _ _ (ThenLine Saved) => [t]
  | _ => []
  end.

(** A line of the log that neither opens nor closes a section. *)
Definition inner_line (line : logline binary32) : bool :=
  match line with
  | Text s =>
    negb (String.prefix "Processing started for " s)
    && negb (String.prefix "Processing Ended for " s)
  | Value _ _ => true
  end.

(** The lines a worker still has to log neither open nor close a
    section. *)
Definition pending_inner (w : wstate) : Prop :=
  match w with
  | WRun _ _ pending _ => forallb inner_line pending = true
  | _ => True
  end.

(** The samples a worker is about to save are what [normalizePeak] has
    made of some decoded samples, for the target of the task. *)
Definition normalized_data (w : wstate) : Prop :=
  match w with
  | WRun t _ _ (ThenSave data) =>
    exists audio_data, data = fst (normalizePeak audio_data (peak_level t))
  | _ => True
  end.

(** A console line of the main thread. *)
Definition main_line (ev : event) : Prop :=
  match ev with
  | Cout _ | CoutInt _ _ | CerrInt _ _ => True
  | _ => False
  end.

(** What a step of a worker, or a spurious wake-up of a worker, does to
    the worker itself and to the output. *)
Inductive worker_move (io : answers) : wstate -> wstate -> list event -> Prop :=
| wm_wait : worker_move io WIdle WWait []
| wm_exit : worker_move io WIdle WExit []
| wm_pop t : worker_move io WIdle (WProc t) []
| wm_wake : worker_move io WWait WIdle []
| wm_pipeline w :
    in_pipeline w = true ->
    worker_move io w (fst (pipeline_step io w)) (snd (pipeline_step io w))
| wm_complete t log_open : worker_move io (WDone t log_open) (WDtor t log_open) []
| wm_dtor t log_open :
    worker_move io (WDtor t log_open) WIdle
      (destructor_writes log_open (input_filepath t)).

(** *** The enumeration *)

(** The entries of the input directory of the scenario. *)
Definition demo_entries : list dirent :=
  match opendir_input demo_env with Some entries => entries | None => [] end.

(** A command line whose third argument is not a number. *)
Definition bad_peak_env : environment :=
  {| argv := ["audio_normalizer"; "in"; "out"; "loud"]%string;
     stof := fun s => None;
     input_stat := None;
     output_stat := None;
     mkdir_ok := false;
     opendir_input := None |}.

(** *** The processor of a task when the log may not open *)

(** An event that is not a line of the log. *)
Definition not_logged (ev : event) : bool :=
  match ev with Log _ _ => false | _ => true end.

(** *** Samples that are not numbers *)

Definition is_inf32 (x : binary32) : bool :=
  match x with S754_infinity _ => true | _ => false end.

(** A buffer with an infinite sample, and a buffer that starts with a
    NaN. *)
Definition infinite_buffer : list binary32 :=
  [ratio32 1 2; S754_infinity true; S754_zero false; S754_nan].
Definition nan_first_buffer : list binary32 := [S754_nan; ratio32 1 2; ratio32 (-1) 4].

(** *** The same recording at another gain *)

(** Twice a finite float (the exponent moves up by one), and the buffer
    of the scenario recorded twice as loud. *)
Definition double32 (x : binary32) : binary32 :=
  match x with
  | S754_finite s m e => S754_finite s m (e + 1)
  | _ => x
  end.

Definition doubled_buffer : list binary32 := map double32 scenario_buffer.

(** *** The root mean square in [float] *)

(** The rounding that the root mean square of [n] samples can gather:
    one rounding for the squares, one for each addition, and those of the
    division and of the root. *)
Definition rms_slack (n : nat) : R := ((INR n + 6) * pow2 (-23))%R.

(** Eleven copies of the float nearest to [11/97]: the rounded root mean
    square of this buffer is above its peak. *)
Definition rounding_buffer : list binary32 := repeat (ratio32 11 97) 11.

(* ===================================================================== *)
(** * Part II. Theorems                                                   *)
(* ===================================================================== *)

(** ** 1. The worker pool: lists of threads *)

Section ThreadLists.
Context {A : Type}.
Implicit Types (f : wstate -> list A) (ths : list wstate) (w : wstate).

(** Replacing the state of thread [i] splits the list around it. *)
Lemma insert_split ths i w :
  ths !! i = Some w ->
  exists before after,
    ths = before ++ w :: after /\ length before = i /\
    forall w', <[i := w']> ths = before ++ w' :: after.
Proof.
  intros Hi. exists (take i ths), (drop (S i) ths).
  assert (Hlt : (i < length ths)%nat) by (eapply lookup_lt_Some; eauto).
  split; [symmetry; by apply take_drop_middle|].
  split; [rewrite length_take; lia|].
  intros w'. by rewrite insert_take_drop.
Qed.

Lemma flat_map_insert f ths i w w' :
  ths !! i = Some w ->
  Permutation (flat_map f (<[i := w']> ths) ++ f w) (flat_map f ths ++ f w').
Proof.
  intros Hi. destruct (insert_split ths i w Hi) as (l1 & l2 & -> & _ & Hins).
  rewrite Hins, !flat_map_app. simpl.
  rewrite <- !app_assoc.
  apply Permutation_app_head.
  rewrite (Permutation_app_comm (f w') (flat_map f l2 ++ f w)).
  rewrite (Permutation_app_comm (f w) (flat_map f l2 ++ f w')).
  rewrite <- !app_assoc. apply Permutation_app_head, Permutation_app_comm.
Qed.

Lemma flat_map_insert_same f ths i w w' :
  ths !! i = Some w -> f w' = f w -> flat_map f (<[i := w']> ths) = flat_map f ths.
Proof.
  intros Hi Hf. destruct (insert_split ths i w Hi) as (l1 & l2 & -> & _ & Hins).
  rewrite Hins, !flat_map_app. simpl. by rewrite Hf.
Qed.

Lemma flat_map_wake f ths :
  f WWait = f WIdle -> flat_map f (map wake ths) = flat_map f ths.
Proof.
  intros Hf. induction ths as [|w ths IH]; simpl; [done|].
  rewrite IH. by destruct w; simpl; rewrite ?Hf.
Qed.

End ThreadLists.

Lemma elem_of_insert_inv (ths : list wstate) i w x :
  x ∈ <[i := w]> ths -> x = w \/ x ∈ ths.
Proof.
  revert i. induction ths as [|y ths IH]; intros i; simpl.
  - destruct i; simpl; intros H; by right.
  - destruct i; simpl; rewrite !elem_of_cons.
    + intros [->|H]; auto.
    + intros [->|H]; auto. destruct (IH _ H); auto.
Qed.

Lemma wake_not_wait (ths : list wstate) : WWait ∉ map wake ths.
Proof.
  intros H. apply list_elem_of_fmap_1 in H. destruct H as (w & Hw & _).
  by destruct w.
Qed.

Lemma wake_exit (ths : list wstate) : WExit ∈ map wake ths -> WExit ∈ ths.
Proof.
  intros H. apply list_elem_of_fmap_1 in H. destruct H as (w & Hw & Hin).
  by destruct w.
Qed.

Lemma wake_lookup (ths : list wstate) j :
  map wake ths !! j = wake <$> (ths !! j).
Proof. apply list_lookup_fmap. Qed.

Lemma int_wrap_small z : (-2147483648 <= z <= INT_MAX)%Z -> int_wrap z = z.
Proof.
  unfold int_wrap, INT_MAX. intros H.
  rewrite Z.mod_small; lia.
Qed.

Lemma processed_app out1 out2 : processed (out1 ++ out2) = processed out1 ++ processed out2.
Proof. unfold processed. apply flat_map_app. Qed.

Lemma reported_totals_app out1 out2 :
  reported_totals (out1 ++ out2) = reported_totals out1 ++ reported_totals out2.
Proof. unfold reported_totals. apply flat_map_app. Qed.

Lemma processed_map_Log file lines : processed (map (Log file) lines) = [].
Proof. induction lines; simpl; auto. Qed.

Lemma reported_totals_map_Log file lines : reported_totals (map (Log file) lines) = [].
Proof. induction lines; simpl; auto. Qed.

Lemma processed_log_lines b file lines : processed (log_lines b file lines) = [].
Proof. destruct b; [apply processed_map_Log|done]. Qed.

Lemma reported_totals_log_lines b file lines :
  reported_totals (log_lines b file lines) = [].
Proof. destruct b; [apply reported_totals_map_Log|done]. Qed.

Lemma processed_constructor_writes b file : processed (constructor_writes b file) = [].
Proof. by destruct b. Qed.

Lemma reported_totals_constructor_writes b file :
  reported_totals (constructor_writes b file) = [].
Proof. by destruct b. Qed.

(** The pipeline of a task prints exactly one console line, for that task,
    whatever the codec answers and whether the log opens or not. *)
Lemma processed_pipeline_writes b io t : processed (pipeline_writes b io t) = [t].
Proof.
  unfold pipeline_writes.
  rewrite processed_app, processed_constructor_writes.
  destruct (loaded io) as [data|].
  - rewrite processed_app, processed_log_lines.
    destruct (save_ok io); simpl; by rewrite processed_app, processed_log_lines.
  - by rewrite processed_app, processed_log_lines.
Qed.

Lemma processed_run_pipeline io t : processed (run_pipeline io t) = [t].
Proof. apply processed_pipeline_writes. Qed.

Lemma task_line_pipeline_writes b io t :
  TaskLine t (task_outcome io) ∈ pipeline_writes b io t.
Proof.
  unfold pipeline_writes, task_outcome.
  apply elem_of_app. right.
  destruct (loaded io) as [data|]; [|set_solver].
  apply elem_of_app. right.
  destruct (save_ok io); set_solver.
Qed.

(** ** 2. The worker pool: the steps inside the pipeline *)

(** A step inside lines 246-266 keeps the task with the worker, prints the
    console line of the task or no console line, and never the final line;
    the worker does not park and does not return. *)
Lemma pipeline_step_spec io w :
  in_pipeline w = true ->
  holding (fst (pipeline_step io w)) = holding w /\
  processed (snd (pipeline_step io w)) ++ popped (fst (pipeline_step io w)) = popped w /\
  reported_totals (snd (pipeline_step io w)) = [] /\
  fst (pipeline_step io w) <> WWait /\ fst (pipeline_step io w) <> WExit /\
  fst (pipeline_step io w) <> WIdle.
Proof.
  destruct w as [| |t|t b [|line rest] [|data|o]|t b|t b|]; try discriminate; intros _; simpl.
  - rewrite processed_constructor_writes, reported_totals_constructor_writes. done.
  - by destruct (loaded (sndfile io)).
  - by destruct (save_ok (sndfile io)).
  - done.
  - rewrite processed_log_lines, reported_totals_log_lines. done.
  - rewrite processed_log_lines, reported_totals_log_lines. done.
  - rewrite processed_log_lines, reported_totals_log_lines. done.
Qed.

Lemma printStats_length (audio_data : list binary32) (title : string) :
  (length (printStats audio_data title) <= 6)%nat.
Proof. destruct audio_data; simpl; lia. Qed.

Lemma normalizePeak_log_length (audio_data : list binary32) (target_peak : binary32) :
  (length (snd (normalizePeak audio_data target_peak)) <= 3)%nat.
Proof.
  unfold normalizePeak. destruct audio_data as [|x l]; simpl; [lia|].
  destruct (SFeqb _ _); simpl; lia.
Qed.

(** At most sixteen lines are logged between the load and the save. *)
Lemma loaded_lines_length t audio_data : (length (loaded_lines t audio_data) <= 16)%nat.
Proof.
  unfold loaded_lines. rewrite !length_app.
  pose proof (printStats_length audio_data ("Original Stats for " ++ filename t)).
  pose proof (normalizePeak_log_length audio_data (peak_level t)).
  pose proof (printStats_length (fst (normalizePeak audio_data (peak_level t)))
                ("Normalized Stats for " ++ filename t)).
  change (length [Text ("Loaded: " ++ input_filepath t)]) with 1%nat. lia.
Qed.

(** Every step inside the pipeline consumes work. *)
Lemma pipeline_step_weight io b w :
  in_pipeline w = true ->
  (worker_weight b (fst (pipeline_step io w)) < worker_weight b w)%nat.
Proof.
  destruct w as [| |t|t lo [|line rest] [|data|o]|t lo|t lo|]; try discriminate; intros _;
    cbn [pipeline_step];
    try (cbn [fst worker_weight call_weight length]; lia).
  - destruct (loaded (sndfile io)) as [data|];
      cbn [fst worker_weight call_weight length]; [|lia].
    pose proof (loaded_lines_length t data). lia.
  - destruct (save_ok (sndfile io)); cbn [fst worker_weight call_weight length]; lia.
Qed.


(** ** 3. The worker pool: the invariant *)

Lemma worker_step_cases i io s s' :
  worker_step i io s = Some s' <-> running s /\ worker_case i io s s'.
Proof.
  unfold worker_step, running. split.
  - intros Hstep.
    assert (Hrun : match main_pc s with MExit _ => False | _ => True end)
      by (destruct (main_pc s); done).
    split; [done|].
    assert (Hstep' :
      match threads s !! i with
      | Some WIdle =>
        match g_task_queue s, g_stop_threads s with
        | [], false => Some (set_thread i WWait s)
        | [], true => Some (set_thread i WExit s)
        | task :: rest, _ => Some (set_thread i (WProc task) (set_queue rest s))
        end
      | Some ((WProc _ | WRun _ _ _ _) as w) =>
        let (w', written) := pipeline_step io w in
        Some (set_thread i w' (emit written s))
      | Some (WDone t log_open) =>
        let count := int_wrap (g_active_tasks_count s - 1) in
        let s1 := set_count count s in
        let s2 := if (count =? 0)%Z && bool_decide (g_task_queue s = [])
                  then set_main (signal_done (main_pc s)) s1 else s1 in
        Some (set_thread i (WDtor t log_open) s2)
      | Some (WDtor t log_open) =>
        Some (set_thread i WIdle
                (emit (destructor_writes log_open (input_filepath t)) s))
      | Some WWait | Some WExit | None => None
      end = Some s') by (destruct (main_pc s); done).
    clear Hstep.
    destruct (threads s !! i) as [w|] eqn:Hi; try discriminate.
    destruct w as [| |t|t lo pending next|t lo|t lo|]; try discriminate.
    + destruct (g_task_queue s) as [|t rest] eqn:Hq.
      * destruct (g_stop_threads s) eqn:Hst; inversion Hstep'; subst s'.
        -- by apply wc_exit.
        -- by apply wc_wait.
      * inversion Hstep'; subst s'. by eapply wc_pop.
    + destruct (pipeline_step io (WProc t)) as [w' evs] eqn:Hp.
      inversion Hstep'; subst s'.
      pose proof (wc_pipeline i io s (WProc t) Hi eq_refl) as H.
      by rewrite Hp in H.
    + destruct (pipeline_step io (WRun t lo pending next)) as [w' evs] eqn:Hp.
      inversion Hstep'; subst s'.
      pose proof (wc_pipeline i io s (WRun t lo pending next) Hi eq_refl) as H.
      by rewrite Hp in H.
    + inversion Hstep'; subst s'. by apply (wc_complete i io s t lo).
    + inversion Hstep'; subst s'. by apply wc_dtor.
  - intros [Hrun Hcase].
    destruct Hcase as [Hi Hq Hst|Hi Hq Hst|t rest Hi Hq|w Hi Hw|t lo Hi|t lo Hi];
      rewrite Hi, ?Hq, ?Hst; try (by destruct (main_pc s)).
    destruct w; try discriminate;
      destruct (pipeline_step io _) as [w' evs]; by destruct (main_pc s).
Qed.

Section Invariant.
Variable n : nat.
Variable tasks : list AudioTask.

Lemma inv_init out :
  (Z.of_nat (length tasks) <= INT_MAX)%Z ->
  processed out = [] -> reported_totals out = [] ->
  pool_inv n tasks (after_enumeration tasks (Z.of_nat (length tasks)) out).
Proof.
  intros Hfit Hp Hr. constructor; simpl; auto; try discriminate; try lia.
  - by rewrite Hp.
  - by intros H%elem_of_nil.
  - by intros H%elem_of_nil.
Qed.

Lemma in_flight_snoc ths : in_flight (ths ++ [WIdle]) = in_flight ths.
Proof. unfold in_flight. rewrite flat_map_app. simpl. apply app_nil_r. Qed.

Lemma popped_snoc ths : flat_map popped (ths ++ [WIdle]) = flat_map popped ths.
Proof. rewrite flat_map_app. simpl. apply app_nil_r. Qed.

Lemma all_exited (ths : list wstate) i :
  (length ths <= i)%nat ->
  (forall j, (j < i)%nat -> ths !! j = Some WExit) ->
  Forall (fun w => w = WExit) ths.
Proof.
  intros Hlen Hj. apply Forall_lookup. intros j w Hw.
  assert (j < length ths)%nat by (eapply lookup_lt_Some; eauto).
  rewrite Hj in Hw by lia. congruence.
Qed.

(** The report disjunct of the invariant, away from the final line. *)
Ltac keep_report Hr :=
  let H := fresh in
  destruct Hr as [Hr | (_ & H & _)]; [by left | discriminate H].

Lemma inv_main_step ok s s' :
  pool_inv n tasks s -> main_step n ok s = Some s' -> pool_inv n tasks s'.
Proof.
  intros [Hc Hmax Ht Hs Hd Hp Hth Hw He Hj Hb Hr Hrd Hcode] Hstep.
  unfold main_step in Hstep.
  destruct (main_pc s) eqn:Hpc; simpl in *;
    repeat match type of Hstep with
           | context [if ?b then _ else _] => destruct b eqn:?
           | context [match ?x with _ => _ end] => destruct x eqn:?
           end;
    inversion Hstep; subst s'; clear Hstep;
    constructor; simpl; rewrite ?Hpc; simpl;
    rewrite ?processed_app, ?reported_totals_app, ?app_nil_r; simpl;
    rewrite ?app_nil_r, ?(flat_map_wake holding), ?(flat_map_wake popped),
      ?in_flight_snoc, ?popped_snoc, ?length_map, ?length_app; simpl; auto;
    try discriminate; try done; try lia;
    try (keep_report Hr);
    try (match type of Hth with
         | _ = [] /\ _ =>
           let H := fresh in
           destruct Hth as [H _]; rewrite H; simpl; (lia || constructor)
         end).
  - (* line 355 with a counter of zero: the batch is empty *)
    intros _ Hne. exfalso. apply Hne.
    destruct Hth as [Hth Hpr]. rewrite Hth, Hpr in *. simpl in *.
    apply Z.eqb_eq in Heqb.
    destruct (g_task_queue s); [by apply Permutation_nil|simpl in Hc; lia].
  - (* line 355 with a counter that is not zero: the batch is not empty *)
    intros ->. apply Permutation_nil_r in Ht.
    destruct Hth as [Hth _]. rewrite Hth in *. simpl in *.
    apply app_eq_nil in Ht as [_ Hq]. rewrite Hq in Hc. simpl in Hc.
    apply Z.eqb_neq in Heqb. lia.
  - destruct Hth as [<- Hle]. apply Nat.ltb_lt in Heqb. lia.
  - rewrite elem_of_app, list_elem_of_singleton. intros [H|H]; [auto|discriminate].
  - rewrite elem_of_app, list_elem_of_singleton. intros [H|H]; [auto|discriminate].
  - right. split; [done|]. exists i. apply Nat.ltb_lt in Heqb.
    split; [done|]. apply elem_of_app. right. apply list_elem_of_here.
  - destruct Hth as [<- Hle]. apply Nat.ltb_ge in Heqb. lia.
  - intros H. by apply wake_not_wait in H.
  - intros H. apply wake_exit in H. auto.
  - intros H. by apply wake_not_wait in H.
  - intros j Hlt. destruct (decide (j = i)) as [->|Hne]; [done|]. apply Hj. lia.
  - apply Nat.ltb_ge in Heqb. apply (all_exited _ i); [lia|done].
  - destruct Hr as [Hr | (_ & H & _)]; [|discriminate H].
    right. rewrite Hr, Hd by done. done.
  - intros _ _. destruct Hr as [Hr | (_ & H & _)]; [|discriminate H].
    rewrite Hr, Hd by done. done.
Qed.

Lemma in_flight_insert (ths : list wstate) i w w' :
  ths !! i = Some w ->
  (length (in_flight (<[i := w']> ths)) + length (holding w)
   = length (in_flight ths) + length (holding w'))%nat.
Proof.
  intros Hi. pose proof (flat_map_insert holding ths i w w' Hi) as HP.
  apply Permutation_length in HP. by rewrite !length_app in HP.
Qed.

Lemma lookup_insert_exited (ths : list wstate) (i : nat) w (j : nat) :
  ths !! i = Some w -> w <> WExit ->
  ths !! j = Some WExit -> forall w', <[i := w']> ths !! j = Some WExit.
Proof.
  intros Hi Hw Hj w'. destruct (decide (i = j)) as [->|Hne].
  - congruence.
  - by rewrite list_lookup_insert_ne.
Qed.

(** The threads joined so far stay joined when a thread that has not
    returned takes a step. *)
Lemma joined_insert (pc : mstate) (ths : list wstate) i w w' :
  ths !! i = Some w -> w <> WExit ->
  match pc with
  | MJoin k => forall j, (j < k)%nat -> ths !! j = Some WExit
  | MReport | MExit 0 => Forall (fun w => w = WExit) ths
  | _ => True
  end ->
  match pc with
  | MJoin k => forall j, (j < k)%nat -> <[i := w']> ths !! j = Some WExit
  | MReport | MExit 0 => False
  | _ => True
  end.
Proof.
  intros Hi Hw Hj.
  assert (Hall : Forall (fun w => w = WExit) ths -> False).
  { intros Hall. rewrite Forall_lookup in Hall. by specialize (Hall _ _ Hi). }
  destruct pc as [| | | | | |k| |[]]; try done; auto.
  intros j Hlt. eapply lookup_insert_exited; eauto.
Qed.

Lemma joined_insert_exit (pc : mstate) (ths : list wstate) i w :
  ths !! i = Some w ->
  match pc with
  | MJoin k => forall j, (j < k)%nat -> ths !! j = Some WExit
  | MReport | MExit 0 => Forall (fun w => w = WExit) ths
  | _ => True
  end ->
  match pc with
  | MJoin k => forall j, (j < k)%nat -> <[i := WExit]> ths !! j = Some WExit
  | MReport | MExit 0 => Forall (fun w => w = WExit) (<[i := WExit]> ths)
  | _ => True
  end.
Proof.
  intros Hi Hj.
  assert (Hlt : (i < length ths)%nat) by (eapply lookup_lt_Some; eauto).
  destruct pc as [| | | | | |k| |[]]; try done; auto.
  - intros j Hj'. destruct (decide (i = j)) as [->|Hne].
    + by apply list_lookup_insert_eq.
    + rewrite list_lookup_insert_ne by done. auto.
  - by apply Forall_insert.
  - by apply Forall_insert.
Qed.

Lemma threads_insert (pc : mstate) (ths : list wstate) (P P' : Prop) i w0 w :
  ths !! i = Some w0 ->
  match pc with
  | MCheck => ths = [] /\ P
  | MCreate k => length ths = k /\ (k <= n)%nat
  | MExit _ => (length ths <= n)%nat
  | _ => length ths = n
  end ->
  match pc with
  | MCheck => <[i := w]> ths = [] /\ P'
  | MCreate k => length (<[i := w]> ths) = k /\ (k <= n)%nat
  | MExit _ => (length (<[i := w]> ths) <= n)%nat
  | _ => length (<[i := w]> ths) = n
  end.
Proof.
  intros Hi. destruct pc; rewrite ?length_insert; auto.
  intros [-> ?]. done.
Qed.

Lemma inv_worker_step i io s s' :
  pool_inv n tasks s -> worker_step i io s = Some s' -> pool_inv n tasks s'.
Proof.
  intros [Hc Hmax Ht Hs Hd Hp Hth Hw He Hj Hb Hr Hrd Hcode] Hstep.
  apply worker_step_cases in Hstep as [Hrun Hcase]. unfold running in Hrun.
  assert (Hfield :
    forall w w', threads s !! i = Some w -> w <> WExit ->
      match main_pc s with
      | MJoin k => forall j, (j < k)%nat -> <[i := w']> (threads s) !! j = Some WExit
      | MReport | MExit 0 => Forall (fun w => w = WExit) (<[i := w']> (threads s))
      | _ => True
      end).
  { intros w w' Hi Hne.
    pose proof (joined_insert (main_pc s) (threads s) i w w' Hi Hne Hj) as H.
    destruct (main_pc s) as [| | | | | |k| |[]]; done. }
  destruct Hcase as [Hi Hq Hst|Hi Hq Hst|t rest Hi Hq|w Hi Hpipe|t lo Hi|t lo Hi];
    pose proof (fun w' => in_flight_insert (threads s) i _ w' Hi) as Hfl.
  - (* park: line 230 *)
    specialize (Hfl WWait). simpl in Hfl.
    constructor; simpl; auto; try (by (revert Hrun; destruct (main_pc s))).
    + lia.
    + by rewrite (flat_map_insert_same popped _ _ WIdle).
    + by eapply threads_insert.
    + intros [H|H]%elem_of_insert_inv; [discriminate|auto].
    + by apply (Hfield WIdle).
  - (* return: lines 234-237 *)
    specialize (Hfl WExit). simpl in Hfl.
    constructor; simpl; auto; try (by (revert Hrun; destruct (main_pc s))).
    + lia.
    + by rewrite (flat_map_insert_same popped _ _ WIdle).
    + by eapply threads_insert.
    + intros [H|H]%elem_of_insert_inv; [discriminate|auto].
    + by eapply joined_insert_exit.
  - (* pop: lines 240-242 *)
    specialize (Hfl (WProc t)). simpl in Hfl.
    constructor; simpl; auto; try (by (revert Hrun; destruct (main_pc s))).
    + rewrite Hc, Hq. simpl. lia.
    + pose proof (flat_map_insert popped (threads s) i WIdle (WProc t) Hi) as HP.
      simpl in HP. rewrite app_nil_r in HP. rewrite HP.
      rewrite <- Ht, Hq, <- !app_assoc. simpl. done.
    + by eapply threads_insert.
    + intros [H|H]%elem_of_insert_inv; [discriminate|].
      destruct (Hw H) as [Hq' _]. congruence.
    + intros [H|H]%elem_of_insert_inv; [discriminate|auto].
    + by apply (Hfield WIdle).
  - (* a step of the pipeline: lines 246-266 *)
    destruct (pipeline_step_spec io w Hpipe) as (Hh & Hp' & Hrt & Hnw & Hne & Hni).
    destruct (pipeline_step io w) as [w' evs]. simpl in *.
    specialize (Hfl w'). rewrite Hh in Hfl.
    assert (HwE : w <> WExit) by (intros ->; discriminate).
    constructor; simpl; auto; try (by (revert Hrun; destruct (main_pc s))).
    + lia.
    + rewrite processed_app.
      pose proof (flat_map_insert popped (threads s) i w w' Hi) as HP.
      assert (HQ : Permutation (processed evs ++ flat_map popped (<[i := w']> (threads s)))
                     (flat_map popped (threads s))).
      { apply (Permutation_app_inv_r (popped w')). rewrite <- HP, <- Hp'.
        rewrite (Permutation_app_comm (processed evs)), <- app_assoc. done. }
      rewrite <- Ht, <- app_assoc. apply Permutation_app_head.
      rewrite app_assoc, HQ. done.
    + by eapply threads_insert.
    + intros [H|H]%elem_of_insert_inv; [done|auto].
    + intros [H|H]%elem_of_insert_inv; [done|auto].
    + by apply (Hfield w).
    + rewrite reported_totals_app, Hrt, app_nil_r. done.
  - (* the countdown: lines 269-275 *)
    specialize (Hfl (WDtor t lo)). simpl in Hfl.
    assert (Hpos : (1 <= g_active_tasks_count s)%Z) by lia.
    rewrite (int_wrap_small (g_active_tasks_count s - 1)) by (unfold INT_MAX in *; lia).
    assert (Hnd : past_drain (main_pc s) = false).
    { destruct (past_drain (main_pc s)); [|done]. specialize (Hd eq_refl). lia. }
    set (c := (g_active_tasks_count s - 1)%Z) in *.
    cbv zeta.
    match goal with
    | |- context [if ?b then set_main _ _ else _] => destruct b eqn:Hsig
    end;
      constructor; simpl; auto;
      try (by (revert Hrun; destruct (main_pc s)));
      try (intros [H|H]%elem_of_insert_inv; [discriminate|auto]);
      try (by rewrite (flat_map_insert_same popped _ _ (WDone t lo)));
      try (subst c; lia).
    + revert Hth. destruct (main_pc s); simpl; rewrite ?length_insert; auto.
      intros [Hnil _]. by rewrite Hnil in Hi.
    + destruct Hr as [Hr|(Hr & Hpc & Hne)]; [by left|]. by rewrite Hpc in Hrun.
    + intros Hpc. specialize (Hp Hpc).
      apply andb_false_iff in Hsig as [Hsig|Hsig].
      * apply Z.eqb_neq in Hsig. subst c. lia.
      * apply bool_decide_eq_false in Hsig.
        destruct (g_task_queue s) eqn:Hq; [done|].
        simpl in Hc. subst c. lia.
    + by eapply threads_insert.
  - (* the end of the iteration: ~AudioProcessor *)
    specialize (Hfl WIdle). simpl in Hfl.
    constructor; simpl; auto; try (by (revert Hrun; destruct (main_pc s))).
    + lia.
    + unfold destructor_writes.
      rewrite processed_app, processed_log_lines, app_nil_r.
      by rewrite (flat_map_insert_same popped _ _ (WDtor t lo)).
    + by eapply threads_insert.
    + intros [H|H]%elem_of_insert_inv; [discriminate|auto].
    + intros [H|H]%elem_of_insert_inv; [discriminate|auto].
    + by apply (Hfield (WDtor t lo)).
    + unfold destructor_writes.
      rewrite reported_totals_app, reported_totals_log_lines. by rewrite app_nil_r.
Qed.

Lemma inv_spurious_worker i s s' :
  pool_inv n tasks s -> spurious_worker i s = Some s' -> pool_inv n tasks s'.
Proof.
  intros [Hc Hmax Ht Hs Hd Hp Hth Hw He Hj Hb Hr Hrd Hcode] Hstep.
  unfold spurious_worker in Hstep.
  destruct (threads s !! i) as [[| | | | | |]|] eqn:Hi;
    try (by destruct (main_pc s)).
  assert (s' = set_thread i WIdle s) as -> by (destruct (main_pc s); congruence).
  pose proof (in_flight_insert (threads s) i _ WIdle Hi) as Hfl. simpl in Hfl.
  pose proof (joined_insert (main_pc s) (threads s) i _ WIdle Hi ltac:(done) Hj) as Hjoin.
  constructor; simpl; auto; try (by destruct (main_pc s)).
  - lia.
  - by rewrite (flat_map_insert_same popped _ _ WWait).
  - by eapply threads_insert.
  - intros [H|H]%elem_of_insert_inv; [discriminate|auto].
  - intros [H|H]%elem_of_insert_inv; [discriminate|auto].
Qed.

Lemma inv_spurious_main s s' :
  pool_inv n tasks s -> spurious_main s = Some s' -> pool_inv n tasks s'.
Proof.
  intros [Hc Hmax Ht Hs Hd Hp Hth Hw He Hj Hb Hr Hrd Hcode] Hstep.
  unfold spurious_main in Hstep.
  destruct (main_pc s) eqn:Hpc; try discriminate.
  inversion Hstep; subst s'.
  constructor; simpl; auto; try discriminate.
  keep_report Hr.
Qed.

Lemma inv_exec a s s' :
  pool_inv n tasks s -> exec n a s = Some s' -> pool_inv n tasks s'.
Proof.
  destruct a; simpl.
  - apply inv_main_step.
  - apply inv_worker_step.
  - apply inv_spurious_worker.
  - apply inv_spurious_main.
Qed.

Lemma inv_run schedule s s' :
  pool_inv n tasks s -> run n schedule s = Some s' -> pool_inv n tasks s'.
Proof.
  revert s. induction schedule as [|a rest IH]; simpl; intros s Hinv Hrun.
  - congruence.
  - destruct (exec n a s) as [s1|] eqn:Hexec; [|discriminate].
    eapply IH; [|exact Hrun]. eapply inv_exec; eauto.
Qed.

End Invariant.

(** ** 4. The worker pool: every step consumes work *)

Lemma list_sum_insert (f : wstate -> nat) (ths : list wstate) i w w' :
  ths !! i = Some w ->
  (list_sum (map f (<[i := w']> ths)) + f w = list_sum (map f ths) + f w')%nat.
Proof.
  intros Hi. destruct (insert_split ths i w Hi) as (l1 & l2 & -> & _ & Hins).
  rewrite Hins, !map_app, !list_sum_app. simpl. lia.
Qed.

Lemma list_sum_le (f g : wstate -> nat) (ths : list wstate) :
  (forall w, (g w <= f w)%nat) ->
  (list_sum (map g ths) <= list_sum (map f ths))%nat.
Proof.
  intros Hle. induction ths as [|w ths IH]; simpl; [lia|].
  specialize (Hle w). lia.
Qed.

Lemma worker_weight_wake b w : (worker_weight b (wake w) <= worker_weight (S b) w)%nat.
Proof. destruct w; simpl; lia. Qed.

Lemma worker_weight_mono b b' w :
  (b' <= b)%nat -> (worker_weight b' w <= worker_weight b w)%nat.
Proof. destruct w; simpl; lia. Qed.

Lemma weight_wake b (ths : list wstate) :
  (list_sum (map (worker_weight b) (map wake ths))
   <= list_sum (map (worker_weight (S b)) ths))%nat.
Proof.
  rewrite map_map. apply list_sum_le. apply worker_weight_wake.
Qed.

Lemma weight_mono b b' (ths : list wstate) :
  (b' <= b)%nat ->
  (list_sum (map (worker_weight b') ths) <= list_sum (map (worker_weight b) ths))%nat.
Proof. intros Hb. apply list_sum_le. intros w. by apply worker_weight_mono. Qed.

Section Weight.
Variable n : nat.

Lemma weight_main_step ok s s' :
  main_step n ok s = Some s' -> (weight n s' < weight n s)%nat.
Proof.
  unfold main_step, weight. intros Hstep.
  destruct (main_pc s) eqn:Hpc; simpl in *;
    repeat match type of Hstep with
           | context [if ?b then _ else _] => destruct b eqn:?
           | context [match ?x with _ => _ end] => destruct x eqn:?
           end;
    inversion Hstep; subst s'; clear Hstep; simpl;
    rewrite ?map_app, ?list_sum_app; simpl;
    repeat match goal with
           | H : (_ <? _)%nat = true |- _ => apply Nat.ltb_lt in H
           | H : (_ <? _)%nat = false |- _ => apply Nat.ltb_ge in H
           end;
    try pose proof (weight_wake 1 (threads s));
    try pose proof (weight_wake 0 (threads s));
    try pose proof (weight_mono 2 0 (threads s) ltac:(lia));
    try pose proof (weight_mono 2 1 (threads s) ltac:(lia));
    try lia.
  destruct (0 <? g_active_tasks_count s)%Z; lia.
Qed.

Lemma weight_worker_step i io s s' :
  counter_sane s -> worker_step i io s = Some s' -> (weight n s' < weight n s)%nat.
Proof.
  intros Hsane Hstep.
  apply worker_step_cases in Hstep as [Hrun Hcase]. unfold running in Hrun.
  unfold weight.
  destruct Hcase as [Hi Hq Hst|Hi Hq Hst|t rest Hi Hq|w Hi Hpipe|t lo Hi|t lo Hi];
    pose proof (fun w' => list_sum_insert
                  (worker_weight (broadcasts (main_pc s))) (threads s) i _ w' Hi) as Hsum.
  - specialize (Hsum WWait). simpl in *. lia.
  - specialize (Hsum WExit). simpl in *. lia.
  - specialize (Hsum (WProc t)). simpl in *. rewrite Hq. simpl. lia.
  - pose proof (pipeline_step_weight io (broadcasts (main_pc s)) w Hpipe) as Hlt.
    specialize (Hsum (fst (pipeline_step io w))).
    cbn [set_thread set_threads emit main_pc threads g_task_queue g_active_tasks_count].
    lia.
  - specialize (Hsum (WDtor t lo)). cbv zeta.
    match goal with
    | |- context [if ?b then set_main _ _ else _] => destruct b eqn:Hsig
    end; simpl in *.
    + apply andb_true_iff in Hsig as [Hz _]. apply Z.eqb_eq in Hz. rewrite Hz.
      destruct (main_pc s) eqn:Hpc; simpl in *; try lia.
      destruct (0 <? g_active_tasks_count s)%Z; lia.
    + unfold counter_sane in Hsane.
      destruct (main_pc s) eqn:Hpc; simpl in *; try lia.
      specialize (Hsane eq_refl).
      destruct (0 <? g_active_tasks_count s)%Z eqn:Hpos.
      * destruct (0 <? int_wrap (g_active_tasks_count s - 1))%Z; lia.
      * apply Z.ltb_ge in Hpos.
        rewrite int_wrap_small by (unfold INT_MAX; lia).
        destruct (0 <? g_active_tasks_count s - 1)%Z eqn:Hpos'; [|lia].
        apply Z.ltb_lt in Hpos'. lia.
  - specialize (Hsum WIdle). simpl in *. lia.
Qed.

Lemma weight_exec a s s' :
  counter_sane s -> is_spurious a = false -> exec n a s = Some s' ->
  (weight n s' < weight n s)%nat.
Proof.
  intros Hsane Hns. destruct a; simpl in *; try discriminate.
  - apply weight_main_step.
  - by apply weight_worker_step.
Qed.

(** A schedule without spurious wake-ups is no longer than the weight of
    the state it starts from. *)
Lemma weight_run tasks schedule s s' :
  pool_inv n tasks s ->
  forallb (fun a => negb (is_spurious a)) schedule = true ->
  run n schedule s = Some s' ->
  (length schedule + weight n s' <= weight n s)%nat.
Proof.
  revert s. induction schedule as [|a rest IH]; simpl; intros s Hinv Hns Hrun.
  - inversion Hrun. lia.
  - apply andb_true_iff in Hns as [Ha Hrest]. apply negb_true_iff in Ha.
    destruct (exec n a s) as [s1|] eqn:Hexec; [|discriminate].
    assert (Hsane : counter_sane s).
    { intros _. rewrite (inv_count _ _ _ Hinv). lia. }
    pose proof (weight_exec a s s1 Hsane Ha Hexec).
    specialize (IH s1 (inv_exec n tasks a s s1 Hinv Hexec) Hrest Hrun). lia.
Qed.

(** A worker that is neither parked nor returned can take its step. *)
Lemma worker_enabled i io s w :
  running s -> threads s !! i = Some w -> w <> WWait -> w <> WExit ->
  exists s', worker_step i io s = Some s'.
Proof.
  intros Hrun Hi Hw He. unfold worker_step, running in *. rewrite Hi.
  destruct (main_pc s); try done;
    destruct w; try done; eauto;
    try (destruct (pipeline_step io _); eauto);
    destruct (g_task_queue s); eauto; destruct (g_stop_threads s); eauto.
Qed.

(** Deadlock freedom: as long as [main] has not returned, some thread can
    take a step that is not a spurious wake-up. *)
Lemma progress tasks s :
  (1 <= n)%nat -> pool_inv n tasks s -> running s ->
  exists a s', is_spurious a = false /\ exec n a s = Some s'.
Proof.
  intros Hn [Hc Hmax Ht Hs Hd Hp Hth Hw He Hj Hb Hr Hrd Hcode] Hrun.
  set (io := {| log_file_opens := false;
                sndfile := {| loaded := None; save_ok := false |} |}).
  assert (Hworker : forall i w, threads s !! i = Some w -> w <> WWait -> w <> WExit ->
            exists a s', is_spurious a = false /\ exec n a s = Some s').
  { intros i w Hi H1 H2. destruct (worker_enabled i io s w Hrun Hi H1 H2) as [s' Hs'].
    exists (Worker i io), s'. auto. }
  assert (Hmain : forall s', main_step n true s = Some s' ->
            exists a s', is_spurious a = false /\ exec n a s = Some s').
  { intros s' Hs'. exists (Main true), s'. auto. }
  unfold running in Hrun.
  destruct (main_pc s) eqn:Hpc; try done;
    try (by (destruct (main_step n true s) as [s1|] eqn:Hstep;
             [by eapply Hmain
             |unfold main_step in Hstep; rewrite Hpc in Hstep;
              repeat match type of Hstep with
                     | context [if ?b then _ else _] => destruct b
                     end; discriminate])).
  - (* parked in the wait of line 376 *)
    specialize (Hp eq_refl).
    destruct (in_flight (threads s)) as [|t fl] eqn:Hfl.
    + (* nothing in flight: the queue is not empty, so worker 0 is not parked *)
      destruct (g_task_queue s) as [|t q] eqn:Hq; [simpl in Hc; lia|].
      destruct (threads s) as [|w ths] eqn:Hths; [simpl in Hth; lia|].
      apply (Hworker 0%nat w); [done| |].
      * intros ->. destruct Hw as [Hw _]; [apply list_elem_of_here|discriminate].
      * intros ->. rewrite He in Hs; [discriminate|apply list_elem_of_here].
    + (* a task in flight: its holder can step *)
      assert (Hin : In t (in_flight (threads s))) by (rewrite Hfl; by left).
      apply in_flat_map in Hin as (w & Hw' & Hhold).
      apply list_elem_of_In, list_elem_of_lookup in Hw' as [i Hi].
      apply (Hworker i w Hi); intros ->; simpl in Hhold; done.
  - (* in [pthread_join] *)
    destruct (decide (i < n)%nat) as [Hlt|Hge].
    + destruct (threads s !! i) as [w|] eqn:Hi.
      2:{ apply lookup_ge_None in Hi. lia. }
      assert (w = WExit \/ w <> WExit) as [->|Hne]
        by (destruct w; (by left) || (by right)).
      * eapply Hmain. unfold main_step. rewrite Hpc.
        destruct (i <? n)%nat eqn:Hlt'; [|apply Nat.ltb_ge in Hlt'; lia].
        rewrite Hi. eauto.
      * eapply Hworker; eauto. intros ->.
        assert (Hin : WWait ∈ threads s) by (eapply list_elem_of_lookup_2; eauto).
        destruct (Hw Hin) as [_ Hst]. congruence.
    + eapply Hmain. unfold main_step. rewrite Hpc.
      destruct (i <? n)%nat eqn:Hlt'; [apply Nat.ltb_lt in Hlt'; lia|]. eauto.
Qed.

End Weight.

(** ** 5. The worker pool: shutdown *)

Section Shutdown.
Variable n : nat.

Lemma shutdown_established ok s s1 :
  main_pc s = MStop -> g_task_queue s = [] -> length (threads s) = n ->
  main_step n ok s = Some s1 ->
  shutdown_inv n s1 /\ main_pc s1 = MJoin 0.
Proof.
  intros Hpc Hq Hlen Hstep. unfold main_step in Hstep. rewrite Hpc in Hstep.
  inversion Hstep; subst s1. split; [|done].
  constructor; simpl; auto.
  - apply wake_not_wait.
  - by rewrite length_map.
  - intros j Hj. lia.
Qed.

Lemma shutdown_exec a s s' :
  shutdown_inv n s -> exec n a s = Some s' ->
  shutdown_inv n s' /\ is_spurious a = false.
Proof.
  intros [Hst Hq Haw Hlen Hj] Hexec. destruct a as [ok|i io|i|]; simpl in Hexec.
  - (* the main thread: [pthread_join], then the report *)
    split; [|done]. unfold main_step in Hexec.
    destruct (main_pc s) as [| | | | | |k| |[]] eqn:Hpc; try done.
    + destruct (k <? n)%nat eqn:Hk.
      * destruct (threads s !! k) as [[| | | | | |]|] eqn:Hi; try done.
        inversion Hexec; subst s'. constructor; simpl; auto.
        intros j Hlt. destruct (decide (j = k)) as [->|Hne]; [done|]. apply Hj. lia.
      * inversion Hexec; subst s'. constructor; simpl; auto.
        apply Nat.ltb_ge in Hk. apply (all_exited _ k); [lia|done].
    + inversion Hexec; subst s'. constructor; simpl; auto.
  - (* a worker *)
    split; [|done].
    apply worker_step_cases in Hexec as [Hrun Hcase]. unfold running in Hrun.
    assert (Hjoin : forall w w', threads s !! i = Some w -> w <> WExit ->
              match main_pc s with
              | MJoin k => forall j, (j < k)%nat -> <[i := w']> (threads s) !! j = Some WExit
              | MReport | MExit 0 => Forall (fun w => w = WExit) (<[i := w']> (threads s))
              | _ => False
              end).
    { intros w w' Hi Hne.
      pose proof (joined_insert (main_pc s) (threads s) i w w' Hi Hne) as H.
      destruct (main_pc s) as [| | | | | |k| |[]]; try done; apply H; done. }
    destruct Hcase as [Hi Hq' Hst'|Hi Hq' Hst'|t rest Hi Hq'|w Hi Hpipe|t lo Hi|t lo Hi];
      try congruence.
    + constructor; simpl; auto.
      * intros [H|H]%elem_of_insert_inv; [discriminate|auto].
      * by rewrite length_insert.
      * pose proof (joined_insert_exit (main_pc s) (threads s) i _ Hi) as H.
        destruct (main_pc s) as [| | | | | |k| |[]]; try done; apply H; done.
    + destruct (pipeline_step_spec io w Hpipe) as (_ & _ & _ & Hnw & _ & _).
      constructor; simpl; auto.
      * intros [H|H]%elem_of_insert_inv; [done|auto].
      * by rewrite length_insert.
      * apply (Hjoin w); [done|]. intros ->. discriminate.
    + cbv zeta.
      match goal with
      | |- context [if ?b then set_main _ _ else _] => destruct b
      end; constructor; simpl; auto;
        try (intros [H|H]%elem_of_insert_inv; [discriminate|auto]);
        try (by rewrite length_insert).
      * specialize (Hjoin (WDone t lo) (WDtor t lo) Hi ltac:(done)).
        destruct (main_pc s) as [| | | | | |k| |[]]; simpl in *; done.
      * by apply (Hjoin (WDone t lo)).
    + constructor; simpl; auto.
      * intros [H|H]%elem_of_insert_inv; [discriminate|auto].
      * by rewrite length_insert.
      * by apply (Hjoin (WDtor t lo)).
  - (* no worker is parked: no spurious wake-up *)
    unfold spurious_worker in Hexec.
    destruct (threads s !! i) as [[| | | | | |]|] eqn:Hi;
      try (by destruct (main_pc s)).
    exfalso. apply Haw. eapply list_elem_of_lookup_2; eauto.
  - unfold spurious_main in Hexec. by destruct (main_pc s).
Qed.

Lemma shutdown_sane s : shutdown_inv n s -> counter_sane s.
Proof. intros [_ _ _ _ Hj] Hpc. by rewrite Hpc in Hj. Qed.

Lemma shutdown_run schedule s s' :
  shutdown_inv n s -> run n schedule s = Some s' ->
  shutdown_inv n s' /\ (length schedule + weight n s' <= weight n s)%nat.
Proof.
  revert s. induction schedule as [|a rest IH]; simpl; intros s Hinv Hrun.
  - inversion Hrun; subst. split; [done|lia].
  - destruct (exec n a s) as [s1|] eqn:Hexec; [|discriminate].
    destruct (shutdown_exec a s s1 Hinv Hexec) as [Hinv1 Hns].
    pose proof (weight_exec n a s s1 (shutdown_sane s Hinv) Hns Hexec).
    destruct (IH s1 Hinv1 Hrun) as [Hinv' Hlen]. split; [done|lia].
Qed.

(** After the stop broadcast some thread can always step, until [main]
    returns. *)
Lemma shutdown_progress s :
  shutdown_inv n s -> running s -> exists a s', exec n a s = Some s'.
Proof.
  intros [Hst Hq Haw Hlen Hj] Hrun.
  set (io := {| log_file_opens := false;
                sndfile := {| loaded := None; save_ok := false |} |}).
  unfold running in Hrun.
  destruct (main_pc s) as [| | | | | |k| |] eqn:Hpc; try done.
  - destruct (decide (k < n)%nat) as [Hlt|Hge].
    + destruct (threads s !! k) as [w|] eqn:Hi.
      2:{ apply lookup_ge_None in Hi. lia. }
      assert (w = WExit \/ w <> WExit) as [->|Hne]
        by (destruct w; (by left) || (by right)).
      * exists (Main true). simpl. unfold main_step. rewrite Hpc.
        destruct (k <? n)%nat eqn:Hlt'; [|apply Nat.ltb_ge in Hlt'; lia].
        rewrite Hi. eauto.
      * destruct (worker_enabled k io s w) as [s' Hs']; try done.
        -- unfold running. by rewrite Hpc.
        -- intros ->. apply Haw. eapply list_elem_of_lookup_2; eauto.
        -- exists (Worker k io), s'. done.
    + exists (Main true). simpl. unfold main_step. rewrite Hpc.
      destruct (k <? n)%nat eqn:Hlt'; [apply Nat.ltb_lt in Hlt'; lia|]. eauto.
  - exists (Main true). simpl. unfold main_step. rewrite Hpc. eauto.
Qed.

End Shutdown.

(** ** 6. The worker pool: the properties of the specification *)

Lemma processed_task_line (out : list event) (t : AudioTask) :
  t ∈ processed out <-> exists o, TaskLine t o ∈ out.
Proof.
  unfold processed. rewrite list_elem_of_In, in_flat_map. split.
  - intros (ev & Hev & Ht). destruct ev; simpl in Ht; try done.
    destruct Ht as [->|[]]. exists o. by apply list_elem_of_In.
  - intros (o & Ho). exists (TaskLine t o). split; [by apply list_elem_of_In|by left].
Qed.

Lemma batch_start_inv n tasks s0 : batch_start tasks s0 -> pool_inv n tasks s0.
Proof. intros (Hfit & out & -> & Hp & Hr). by apply inv_init. Qed.

Lemma reachable_inv n tasks s0 s :
  batch_start tasks s0 -> reachable n s0 s -> pool_inv n tasks s.
Proof.
  intros Hstart [schedule Hrun].
  eapply inv_run; [|exact Hrun]. by apply batch_start_inv.
Qed.

(** With nothing in the queue and nothing in flight, every task has been
    processed. *)
Lemma drained_all_processed n tasks s :
  pool_inv n tasks s -> g_active_tasks_count s = 0%Z ->
  Permutation (processed (trace s)) tasks /\
  g_task_queue s = [] /\ in_flight (threads s) = [].
Proof.
  intros Hinv Hzero. pose proof (inv_count _ _ _ Hinv) as Hc.
  pose proof (inv_tasks _ _ _ Hinv) as Ht.
  rewrite Hzero in Hc.
  destruct (g_task_queue s) as [|t q] eqn:Hq; [|simpl in Hc; lia].
  destruct (in_flight (threads s)) as [|t fl] eqn:Hfl; [|simpl in Hc; lia].
  assert (Hpop : flat_map popped (threads s) = []).
  { unfold in_flight in Hfl. clear -Hfl.
    induction (threads s) as [|w ths IH]; [done|]. simpl in *.
    apply app_eq_nil in Hfl as [Hw Hths]. rewrite (IH Hths).
    by destruct w. }
  rewrite Hpop in Ht. simpl in Ht. by rewrite app_nil_r in Ht.
Qed.

(** An empty batch: the only step the program ever takes is the return of
    line 357. *)
Lemma empty_batch_run n out schedule s :
  run n schedule (after_enumeration [] 0 out) = Some s ->
  s = after_enumeration [] 0 out \/
  s = set_main (MExit 0)
        (emit [Cout "No audio files found to process."] (after_enumeration [] 0 out)).
Proof.
  destruct schedule as [|a rest]; simpl; [intros [= <-]; by left|].
  destruct a as [ok|i io|i|]; try done.
  cbn. destruct rest as [|b rest]; [intros [= <-]; by right|].
  destruct b; done.
Qed.

(** C1.  For a batch of [N >= 1] tasks and any number [n >= 1] of workers,
    whenever the main thread is past the wait loop on the "done" condition
    (lines 375-377), every one of the [N] tasks has been run through the
    pipeline exactly once and has its console line (success or failure),
    the queue is empty and no worker holds a task: the wait never returns
    earlier.  It does return: until [main] has returned some thread can
    always take a step that is not a spurious wake-up, and such steps are
    bounded in number.  For [N = 0] the program goes straight from line 355
    to [return 0]: no worker is ever created and the main thread never
    waits. *)
Theorem drain_wait_returns_after_all_tasks
  (n : nat) (tasks : list AudioTask) (s0 s : pool) :
  (1 <= n)%nat -> batch_start tasks s0 -> reachable n s0 s ->
  (tasks <> [] -> past_drain (main_pc s) = true ->
     Permutation (processed (trace s)) tasks /\
     g_task_queue s = [] /\ in_flight (threads s) = [] /\
     (forall t, t ∈ tasks -> exists o, TaskLine t o ∈ trace s)) /\
  (running s -> exists a s', is_spurious a = false /\ exec n a s = Some s') /\
  (forall schedule s',
     forallb (fun a => negb (is_spurious a)) schedule = true ->
     run n schedule s = Some s' -> (length schedule <= weight n s)%nat) /\
  (tasks = [] ->
     threads s = [] /\
     (s = s0 \/
      s = set_main (MExit 0) (emit [Cout "No audio files found to process."] s0))).
Proof.
  intros Hn Hstart Hreach.
  pose proof (reachable_inv n tasks s0 s Hstart Hreach) as Hinv.
  split; [|split; [|split]].
  - intros Hne Hpast.
    destruct (drained_all_processed n tasks s Hinv) as (HP & Hq & Hfl).
    { by apply (inv_drained _ _ _ Hinv). }
    split; [done|]. split; [done|]. split; [done|].
    intros t Hin. apply processed_task_line. by rewrite HP.
  - intros Hrun. by apply (progress n tasks).
  - intros schedule s' Hns Hrun.
    pose proof (weight_run n tasks schedule s s' Hinv Hns Hrun). lia.
  - intros ->. destruct Hstart as (_ & out & -> & _).
    destruct Hreach as [schedule Hrun].
    apply empty_batch_run in Hrun as [->| ->]; split; auto.
Qed.


(** The counter changes in one place only: the countdown of a worker whose
    pipeline has finished. *)
Lemma count_exec n tasks a s s' :
  pool_inv n tasks s -> exec n a s = Some s' ->
  g_active_tasks_count s' = g_active_tasks_count s \/
  (g_active_tasks_count s' = (g_active_tasks_count s - 1)%Z /\
   exists i io t log_open, a = Worker i io /\
     threads s !! i = Some (WDone t log_open) /\
     threads s' !! i = Some (WDtor t log_open)).
Proof.
  intros Hinv Hexec. destruct a as [ok|i io|i|]; simpl in Hexec.
  - left. unfold main_step in Hexec.
    destruct (main_pc s);
      repeat match type of Hexec with
             | context [if ?b then _ else _] => destruct b
             | context [match ?x with _ => _ end] => destruct x
             end; inversion Hexec; done.
  - apply worker_step_cases in Hexec as [Hrun Hcase].
    destruct Hcase as [Hi Hq Hst|Hi Hq Hst|t rest Hi Hq|w Hi Hpipe|t lo Hi|t lo Hi];
      try (by left).
    right.
    assert (Hlt : (i < length (threads s))%nat) by (eapply lookup_lt_Some; eauto).
    pose proof (in_flight_insert (threads s) i _ (WDtor t lo) Hi) as Hfl. simpl in Hfl.
    pose proof (inv_count _ _ _ Hinv) as Hc.
    pose proof (inv_count_max _ _ _ Hinv) as Hmax.
    rewrite int_wrap_small by (unfold INT_MAX in *; lia).
    split.
    + cbv zeta. by match goal with
      | |- context [if ?b then set_main _ _ else _] => destruct b
      end.
    + exists i, io, t, lo. split; [done|]. split; [done|].
      cbv zeta. match goal with
      | |- context [if ?b then set_main _ _ else _] => destruct b
      end; simpl; by apply list_lookup_insert_eq.
  - left. unfold spurious_worker in Hexec.
    destruct (main_pc s), (threads s !! i) as [[]|]; inversion Hexec; done.
  - left. unfold spurious_main in Hexec.
    destruct (main_pc s); inversion Hexec; done.
Qed.

Lemma run_cons n a rest s s1 :
  exec n a s = Some s1 -> run n (a :: rest) s = run n rest s1.
Proof. intros H. simpl. by rewrite H. Qed.

Lemma run_app n sch1 sch2 s s1 :
  run n sch1 s = Some s1 -> run n (sch1 ++ sch2) s = run n sch2 s1.
Proof.
  revert s. induction sch1 as [|a rest IH]; simpl; intros s H.
  - by inversion H.
  - destruct (exec n a s); [by apply IH|discriminate].
Qed.


(** *** A worker that runs alone *)

Lemma set_thread_emit_id i w (s : pool) :
  threads s !! i = Some w -> set_thread i w (emit [] s) = s.
Proof.
  intros Hi. destruct s as [q c st ths pc tr]. simpl in Hi.
  unfold set_thread, set_threads, emit. simpl.
  by rewrite list_insert_id, app_nil_r.
Qed.

Lemma set_thread_emit_twice i w1 w2 evs1 evs2 (s : pool) :
  set_thread i w2 (emit evs2 (set_thread i w1 (emit evs1 s)))
  = set_thread i w2 (emit (evs1 ++ evs2) s).
Proof.
  unfold set_thread, set_threads, emit. simpl.
  by rewrite list_insert_insert_eq, app_assoc.
Qed.

Lemma log_lines_cons b file line lines :
  log_lines b file (line :: lines) = log_lines b file [line] ++ log_lines b file lines.
Proof. by destruct b. Qed.

Section Alone.
Variable n : nat.
Variable i : nat.
Variable io : answers.
Variable s : pool.
Hypothesis Hrun : running s.
Hypothesis Hlt : (i < length (threads s))%nat.

(** Worker [i] alone takes the pool from [s] to the state where it stands
    at [w] and has written [evs]. *)
Let alone (w : wstate) (evs : list event) : Prop :=
  exists k, run n (repeat (Worker i io) k) s = Some (set_thread i w (emit evs s)).

Lemma alone_start w : threads s !! i = Some w -> alone w [].
Proof. intros Hi. exists 0%nat. simpl. by rewrite set_thread_emit_id. Qed.

Lemma alone_step w evs :
  alone w evs -> in_pipeline w = true ->
  alone (fst (pipeline_step io w)) (evs ++ snd (pipeline_step io w)).
Proof.
  intros [k Hk] Hw. exists (k + 1)%nat.
  rewrite repeat_app, (run_app n _ _ _ _ Hk). simpl.
  assert (Hstep : worker_step i io (set_thread i w (emit evs s))
                  = Some (set_thread i (fst (pipeline_step io w))
                            (emit (snd (pipeline_step io w))
                               (set_thread i w (emit evs s))))).
  { apply worker_step_cases. split; [exact Hrun|].
    apply wc_pipeline; [|done]. simpl. by apply list_lookup_insert_eq. }
  rewrite Hstep. by rewrite set_thread_emit_twice.
Qed.

(** The lines handed to [log] are written one after the other. *)
Lemma alone_logging t b lines next evs :
  alone (WRun t b lines next) evs ->
  alone (WRun t b [] next) (evs ++ log_lines b (input_filepath t) lines).
Proof.
  revert evs. induction lines as [|line lines IH]; intros evs H.
  - destruct b; simpl; by rewrite app_nil_r.
  - apply alone_step in H; [|done]. simpl in H.
    apply IH in H. by rewrite log_lines_cons, app_assoc.
Qed.

(** From the pop to the console line: the worker writes what the pipeline
    of its task writes, whatever the answers are. *)
Lemma alone_pipeline t :
  threads s !! i = Some (WProc t) ->
  alone (WDone t (log_file_opens io))
    (pipeline_writes (log_file_opens io) (sndfile io) t).
Proof.
  intros Hi. set (b := log_file_opens io).
  pose proof (alone_start _ Hi) as H0.
  apply alone_step in H0; [|done]. cbn [pipeline_step fst snd app] in H0. fold b in H0.
  apply alone_step in H0; [|done]. cbn [pipeline_step] in H0.
  unfold pipeline_writes. fold b.
  destruct (loaded (sndfile io)) as [data|]; cbn [fst snd] in H0.
  - apply alone_logging in H0.
    apply alone_step in H0; [|done]. cbn [pipeline_step] in H0.
    destruct (save_ok (sndfile io)); cbn [fst snd] in H0;
      apply alone_logging in H0;
      (apply alone_step in H0; [|done]); cbn [pipeline_step fst snd] in H0;
      rewrite ?app_nil_r, <- ?app_assoc in H0; rewrite <- ?app_assoc; exact H0.
  - apply alone_logging in H0.
    apply alone_step in H0; [|done]. cbn [pipeline_step fst snd] in H0.
    rewrite ?app_nil_r, <- ?app_assoc in H0. exact H0.
Qed.

End Alone.





(** A worker returns only from line 236, where it has seen the stop flag
    set and the queue empty. *)
Lemma worker_exit_observes_stop i io s s' :
  worker_step i io s = Some s' -> threads s' !! i = Some WExit ->
  threads s !! i = Some WIdle /\ g_stop_threads s = true /\ g_task_queue s = [].
Proof.
  intros Hstep Hexit. apply worker_step_cases in Hstep as [_ Hcase].
  destruct Hcase as [Hi Hq Hst|Hi Hq Hst|t rest Hi Hq|w Hi Hpipe|t lo Hi|t lo Hi];
    assert (Hlt : (i < length (threads s))%nat) by (eapply lookup_lt_Some; eauto);
    try done;
    try (simpl in Hexit; rewrite list_lookup_insert_eq in Hexit by done; done).
  - destruct (pipeline_step_spec io w Hpipe) as (_ & _ & _ & _ & Hne & _).
    simpl in Hexit. rewrite list_lookup_insert_eq in Hexit by done. congruence.
  - revert Hexit. cbv zeta.
    match goal with
    | |- context [if ?b then set_main _ _ else _] => destruct b
    end; simpl; rewrite list_lookup_insert_eq by done; done.
Qed.

(** C2.  Take any state in which the main thread is about to set the stop
    flag (line 381) with the queue empty and all [n] threads created,
    whatever each worker is doing (parked, at the top of its loop, or
    finishing a task).  After the stop step the flag is set and no worker
    is parked; from then on the flag stays set, the queue stays empty and
    no worker parks again; every schedule is finite (bounded by the weight
    of the state); as long as [main] has not returned some thread can step
    (no deadlock); and when [main] has returned it returns 0 with every
    worker returned, that is, every [pthread_join] has completed. *)
Theorem stop_broadcast_ends_every_worker
  (n : nat) (s s1 : pool) (create_ok : bool) :
  main_pc s = MStop -> g_task_queue s = [] -> length (threads s) = n ->
  main_step n create_ok s = Some s1 ->
  g_stop_threads s1 = true /\ (WWait ∉ threads s1) /\
  forall schedule s2, run n schedule s1 = Some s2 ->
    g_stop_threads s2 = true /\ g_task_queue s2 = [] /\ (WWait ∉ threads s2) /\
    (length schedule <= weight n s1)%nat /\
    (running s2 -> exists a s3, exec n a s2 = Some s3) /\
    (~ running s2 ->
     main_pc s2 = MExit 0 /\ Forall (fun w => w = WExit) (threads s2)).
Proof.
  intros Hpc Hq Hlen Hstep.
  destruct (shutdown_established n create_ok s s1 Hpc Hq Hlen Hstep) as [Hinv Hpc1].
  split; [apply (sd_stop _ _ Hinv)|]. split; [apply (sd_awake _ _ Hinv)|].
  intros schedule s2 Hrun.
  destruct (shutdown_run n schedule s1 s2 Hinv Hrun) as [Hinv2 Hbound].
  split; [apply (sd_stop _ _ Hinv2)|]. split; [apply (sd_queue _ _ Hinv2)|].
  split; [apply (sd_awake _ _ Hinv2)|]. split; [lia|]. split.
  - by apply shutdown_progress.
  - intros Hnot. pose proof (sd_joined _ _ Hinv2) as Hj.
    unfold running in Hnot.
    destruct (main_pc s2) as [| | | | | |k| |[]]; try done; exfalso; by apply Hnot.
Qed.

(** The program reaches line 381 only with the queue empty and all
    threads created: the statement above applies to it. *)
Lemma stop_reached_with_empty_queue n tasks s0 s :
  batch_start tasks s0 -> reachable n s0 s -> main_pc s = MStop ->
  g_task_queue s = [] /\ length (threads s) = n.
Proof.
  intros Hstart Hreach Hpc.
  pose proof (reachable_inv n tasks s0 s Hstart Hreach) as Hinv.
  destruct (drained_all_processed n tasks s Hinv) as (_ & Hq & _).
  { apply (inv_drained _ _ _ Hinv). by rewrite Hpc. }
  split; [done|]. pose proof (inv_threads _ _ _ Hinv) as Hth.
  by rewrite Hpc in Hth.
Qed.

(** A failed load or save is written to the log as an error when the log
    has opened, and its console line goes to [cerr]. *)
Lemma pipeline_failure_logged io t :
  task_outcome io <> Saved ->
  (exists msg, String.prefix "Error: " msg = true /\
     Log (input_filepath t) (Text msg) ∈ pipeline_writes true io t) /\
  fst (task_line_text t (task_outcome io)) = true.
Proof.
  intros Hfail. split.
  - unfold pipeline_writes, task_outcome in *.
    destruct (loaded io) as [data|].
    + destruct (save_ok io); [done|].
      exists ("Error: Cannot create output file " ++ output_filepath t)%string.
      split; [done|]. apply elem_of_cons. right. apply elem_of_app. right.
      apply list_elem_of_here.
    + exists ("Error: Cannot open file " ++ input_filepath t)%string.
      split; [done|]. apply elem_of_cons. right. apply list_elem_of_here.
  - unfold task_outcome in *. destruct (loaded io); [|done].
    by destruct (save_ok io).
Qed.

(** ** 7. The configuration phase and the whole program *)

Lemma enumerate_count_aux input_dir output_dir peak entries (q : list AudioTask) :
  (Z.of_nat (length q + length entries) <= INT_MAX)%Z ->
  let r := fold_left
    (fun (st : list AudioTask * Z) ent =>
       if eligible ent
       then (fst st ++ [make_task input_dir output_dir peak (d_name ent)],
             int_wrap (snd st + 1))
       else st)
    entries (q, Z.of_nat (length q)) in
  snd r = Z.of_nat (length (fst r)) /\
  (length (fst r) <= length q + length entries)%nat.
Proof.
  revert q. induction entries as [|ent entries IH]; intros q Hfit; simpl.
  - split; [done|lia].
  - simpl in Hfit. destruct (eligible ent); simpl.
    + rewrite int_wrap_small by (unfold INT_MAX in *; lia).
      replace (Z.of_nat (length q) + 1)%Z
        with (Z.of_nat (length (q ++ [make_task input_dir output_dir peak (d_name ent)])))
        by (rewrite length_app; simpl; lia).
      destruct (IH (q ++ [make_task input_dir output_dir peak (d_name ent)])) as [H1 H2].
      { rewrite length_app. simpl. lia. }
      split; [done|].
      pose proof (length_app q [make_task input_dir output_dir peak (d_name ent)]) as E.
      simpl in E. lia.
    + destruct (IH q) as [H1 H2]; [lia|]. split; [done|lia].
Qed.

(** The enumeration counts what it pushes. *)
Lemma enumerate_count input_dir output_dir peak entries :
  (Z.of_nat (length entries) <= INT_MAX)%Z ->
  snd (enumerate input_dir output_dir peak entries)
  = Z.of_nat (length (fst (enumerate input_dir output_dir peak entries))) /\
  (length (fst (enumerate input_dir output_dir peak entries)) <= length entries)%nat.
Proof.
  intros Hfit. apply (enumerate_count_aux input_dir output_dir peak entries []).
  simpl. lia.
Qed.

(** When the configuration phase ends at line 355, the pool starts with the
    enumerated tasks in its queue. *)
Lemma startup_batch_start env s0 :
  entries_fit env -> startup_main env = StartupPool s0 ->
  batch_start (g_task_queue s0) s0.
Proof.
  intros Hfit Hstart. unfold startup_main in Hstart.
  destruct (argv env) as [|prog [|input_dir [|output_dir rest]]]; try done.
  destruct (match rest with [] => _ | a :: _ => _ end) as [peak|]; [|done].
  destruct (input_stat env) as [[]|]; try done.
  destruct (opendir_input env) as [entries|] eqn:Hdir.
  2:{ destruct (output_stat env) as [[]|]; try done. by destruct (mkdir_ok env). }
  specialize (Hfit entries Hdir).
  destruct (enumerate_count input_dir output_dir peak entries Hfit) as [Hc Hlen].
  assert (Hgoal : forall out, processed out = [] -> reported_totals out = [] ->
    batch_start
      (fst (enumerate input_dir output_dir peak entries))
      (after_enumeration (fst (enumerate input_dir output_dir peak entries))
         (snd (enumerate input_dir output_dir peak entries)) out)).
  { intros out Hp Hr. split; [lia|]. exists out. rewrite Hc. done. }
  destruct (output_stat env) as [[]|]; try done.
  - inversion Hstart; subst s0. simpl. by apply Hgoal.
  - destruct (mkdir_ok env); [|done].
    inversion Hstart; subst s0. simpl. by apply Hgoal.
Qed.

(** A configuration error ends the program with exit code 1. *)
Lemma configuration_error_code env code out :
  startup_main env = StartupExit code out -> code = 1%Z.
Proof.
  unfold startup_main.
  destruct (argv env) as [|prog [|input_dir [|output_dir rest]]];
    try (by intros [= <- _]).
  destruct (match rest with [] => _ | a :: _ => _ end) as [peak|]; [|done].
  destruct (input_stat env) as [[]|]; try (by intros [= <- _]).
  destruct (output_stat env) as [[]|]; try (by intros [= <- _]);
    try destruct (mkdir_ok env); try (by intros [= <- _]);
    destruct (opendir_input env); try (by intros [= <- _]); done.
Qed.

(** C7, as amended.  Whenever the load or the save of a task fails, the
    worker that holds the task goes through the rest of its pipeline
    without being blocked: it writes what the pipeline of the task writes,
    in which the failure is reported on [cerr] and, if the log file of the
    processor has opened, written to the log as an error (if it has not,
    the constructor has said so on [cerr]); the worker does not return but
    goes on to its countdown, which decrements the counter by one and wakes
    the main thread if that was the last task, and then to the top of its
    loop.  A worker that holds a task can always step, whatever the other
    threads do; [main] returns 0 only after every task of the batch has
    been run through the pipeline, whatever the outcomes; while [main] has
    not returned, some thread can step.  The exit code of the pool is 0, or
    1 when [pthread_create] has failed (line 365); a configuration error
    ends the program with 1 before line 355. *)
Theorem task_failure_is_contained
  (env : environment) (n : nat) (s0 s : pool) :
  entries_fit env -> startup_main env = StartupPool s0 -> reachable n s0 s ->
  (forall i t io,
     threads s !! i = Some (WProc t) -> running s ->
     task_outcome (sndfile io) <> Saved ->
     exists k s1 s2 s3,
       run n (repeat (Worker i io) k) s = Some s1 /\
       threads s1 !! i = Some (WDone t (log_file_opens io)) /\
       trace s1 = trace s ++ pipeline_writes (log_file_opens io) (sndfile io) t /\
       (if log_file_opens io
        then exists msg, String.prefix "Error: " msg = true /\
               Log (input_filepath t) (Text msg) ∈ trace s1
        else Cerr "Could not open the log file log.txt" ∈ trace s1) /\
       TaskLine t (task_outcome (sndfile io)) ∈ trace s1 /\
       fst (task_line_text t (task_outcome (sndfile io))) = true /\
       worker_step i io s1 = Some s2 /\
       threads s2 !! i = Some (WDtor t (log_file_opens io)) /\
       g_active_tasks_count s2 = (g_active_tasks_count s - 1)%Z /\
       (g_active_tasks_count s2 = 0%Z -> main_pc s = MDrainWait ->
        main_pc s2 = MDrain) /\
       worker_step i io s2 = Some s3 /\
       threads s3 !! i = Some WIdle) /\
  (forall i w io,
     threads s !! i = Some w -> holding w <> [] -> running s ->
     exists s', worker_step i io s = Some s') /\
  (main_pc s = MExit 0 -> Permutation (processed (trace s)) (g_task_queue s0)) /\
  ((1 <= n)%nat -> running s ->
   exists a s', is_spurious a = false /\ exec n a s = Some s') /\
  (forall code, main_pc s = MExit code ->
     code = 0%Z \/
     (code = 1%Z /\
      exists k, (k < n)%nat /\ CerrInt msg_thread (Z.of_nat k) ∈ trace s)) /\
  (forall env' code out, startup_main env' = StartupExit code out -> code = 1%Z).
Proof.
  intros Hfit Hstart Hreach.
  pose proof (startup_batch_start env s0 Hfit Hstart) as Hbatch.
  pose proof (reachable_inv n _ s0 s Hbatch Hreach) as Hinv.
  split; [|split; [|split; [|split; [|split]]]].
  - intros i t io Hi Hrun Hfail.
    assert (Hlt : (i < length (threads s))%nat) by (eapply lookup_lt_Some; eauto).
    destruct (pipeline_failure_logged (sndfile io) t Hfail) as ((msg & Hmsg & Hlog) & Hcerr).
    set (b := log_file_opens io).
    set (s1 := set_thread i (WDone t b) (emit (pipeline_writes b (sndfile io) t) s)).
    destruct (alone_pipeline n i io s Hrun Hlt t Hi) as [k H1]. fold b s1 in H1.
    assert (Hi1 : threads s1 !! i = Some (WDone t b)).
    { simpl. by apply list_lookup_insert_eq. }
    assert (Hrun1 : running s1) by done.
    destruct (worker_enabled i io s1 (WDone t b) Hrun1 Hi1) as [s2 H2]; try done.
    pose proof (inv_run n _ _ s s1 Hinv H1) as Hinv1.
    assert (Hs2 : threads s2 !! i = Some (WDtor t b) /\
                  g_active_tasks_count s2 = (g_active_tasks_count s - 1)%Z /\
                  (g_active_tasks_count s2 = 0%Z -> main_pc s = MDrainWait ->
                   main_pc s2 = MDrain) /\
                  running s2).
    { destruct (count_exec n _ (Worker i io) s1 s2 Hinv1 H2) as [Hsame|(Hdec & _)].
      - (* the countdown does change the counter *)
        exfalso. apply worker_step_cases in H2 as [_ Hcase].
        destruct Hcase as [Hj _ _|Hj _ _|? ? Hj _|? Hj Hpipe|t' lo Hj|? ? Hj];
          rewrite Hi1 in Hj; try done.
        { injection Hj as <-. discriminate. }
        injection Hj as <- <-.
        pose proof (inv_count _ _ _ Hinv1) as Hc1.
        pose proof (inv_count_max _ _ _ Hinv1) as Hmax1.
        pose proof (in_flight_insert (threads s1) i _ (WDtor t b) Hi1) as Hfl.
        simpl in Hfl.
        revert Hsame. cbv zeta.
        rewrite int_wrap_small by (unfold INT_MAX in *; lia).
        match goal with
        | |- context [if ?c then set_main _ _ else _] => destruct c
        end; simpl; lia.
      - apply worker_step_cases in H2 as [_ Hcase].
        destruct Hcase as [Hj _ _|Hj _ _|? ? Hj _|? Hj Hpipe|t' lo Hj|? ? Hj];
          rewrite Hi1 in Hj; try done.
        { injection Hj as <-. discriminate. }
        injection Hj as <- <-.
        split.
        { cbv zeta. match goal with
          | |- context [if ?c then set_main _ _ else _] => destruct c
          end; simpl; apply list_lookup_insert_eq; by rewrite length_insert. }
        split; [exact Hdec|].
        split.
        + intros Hzero Hpc. revert Hzero. cbv zeta.
          pose proof (inv_count _ _ _ Hinv1) as Hc1.
          pose proof (in_flight_insert (threads s1) i _ (WDtor t b) Hi1) as Hfl.
          simpl in Hfl.
          match goal with
          | |- context [if ?c then set_main _ _ else _] => destruct c eqn:Hsig
          end; simpl.
          * intros _. by rewrite Hpc.
          * intros Hzero. exfalso.
            apply andb_false_iff in Hsig as [Hsig|Hsig].
            -- apply Z.eqb_neq in Hsig. done.
            -- apply bool_decide_eq_false in Hsig.
               pose proof (inv_count_max _ _ _ Hinv1) as Hmax1.
               rewrite int_wrap_small in Hzero by (unfold INT_MAX in *; simpl in *; lia).
               subst s1. simpl in *.
               destruct (g_task_queue s); [done|]. simpl in Hc1. lia.
        + unfold running in *. cbv zeta.
          match goal with
          | |- context [if ?c then set_main _ _ else _] => destruct c
          end; simpl; [|done].
          by destruct (main_pc s). }
    destruct Hs2 as (Hi2 & Hdec & Hwake & Hrun2).
    set (s3 := set_thread i WIdle (emit (destructor_writes b (input_filepath t)) s2)).
    assert (H3 : worker_step i io s2 = Some s3).
    { apply worker_step_cases. split; [done|]. by apply wc_dtor. }
    exists k, s1, s2, s3. split; [done|]. split; [done|]. split; [done|].
    split.
    { destruct b eqn:Hb.
      - exists msg. split; [done|]. simpl. apply elem_of_app. by right.
      - simpl. apply elem_of_app. right. unfold pipeline_writes.
        apply elem_of_app. left. apply list_elem_of_here. }
    split. { simpl. apply elem_of_app. right. apply task_line_pipeline_writes. }
    split; [done|]. split; [done|]. split; [done|]. split; [done|].
    split; [done|]. split; [done|].
    simpl. apply list_lookup_insert_eq. by eapply lookup_lt_Some.
  - intros i w io Hi Hhold Hrun.
    apply (worker_enabled i io s w Hrun Hi); intros ->; by apply Hhold.
  - intros Hpc. apply (drained_all_processed n _ s Hinv).
    apply (inv_drained _ _ _ Hinv). by rewrite Hpc.
  - intros Hn Hrun. by apply (progress n (g_task_queue s0)).
  - intros code Hpc. pose proof (inv_code _ _ _ Hinv) as Hcode.
    by rewrite Hpc in Hcode.
  - apply configuration_error_code.
Qed.

(** ** 8. The signal processor: the order of [float] *)

Lemma SFltb_irrefl (x : binary32) : SFltb x x = false.
Proof.
  unfold SFltb, SFcompare. destruct x as [s|s| |s m e]; try done.
  - by destruct s.
  - destruct s; rewrite Z.compare_refl, Pos.compare_cont_refl; done.
Qed.

Lemma Pcompare_Eq_lt (p q : positive) : Pos.compare_cont Eq p q = Lt <-> (p < q)%positive.
Proof. apply Pos.compare_lt_iff. Qed.

Lemma Pcompare_Eq_gt (p q : positive) : Pos.compare_cont Eq p q = Gt <-> (q < p)%positive.
Proof. rewrite <- Pos.compare_gt_iff. done. Qed.

(** [<] on floats is transitive, also across infinities and zeros; with a
    NaN on either side it is false. *)
Lemma SFltb_trans (x y z : binary32) :
  SFltb x y = true -> SFltb y z = true -> SFltb x z = true.
Proof.
  unfold SFltb, SFcompare.
  destruct x as [sx|sx| |sx mx ex], y as [sy|sy| |sy my ey], z as [sz|sz| |sz mz ez];
    try done;
    try (destruct sx; try done); try (destruct sy; try done);
    try (destruct sz; try done);
    repeat match goal with
    | |- context [Z.compare ?a ?b] =>
      let H := fresh in destruct (Z.compare_spec a b) as [H|H|H]; try done
    end;
    simpl; try lia; subst;
    repeat match goal with
    | |- context [Pos.compare_cont Eq ?a ?b] =>
      let H := fresh in
      change (Pos.compare_cont Eq a b) with (Pos.compare a b);
      destruct (Pos.compare_spec a b) as [H|H|H]; try done
    end; simpl; try done; try lia.
Qed.

(** ** 9. The signal processor: [printStats] *)

Section Extremes.
Context {F : Type} {ops : FloatOps F}.
Hypothesis lt_irrefl : forall x : F, f_lt x x = false.
Hypothesis lt_trans : forall x y z : F, f_lt x y = true -> f_lt y z = true -> f_lt x z = true.

(** [std::min_element] returns an element of the range that no element is
    smaller than. *)
Lemma min_element_from_spec (smallest : F) (rest seen : list F) :
  In smallest seen ->
  (forall x, In x seen -> f_lt x smallest = false) ->
  In (min_element_from smallest rest) (seen ++ rest) /\
  forall x, In x (seen ++ rest) -> f_lt x (min_element_from smallest rest) = false.
Proof using lt_irrefl lt_trans.
  revert smallest seen. induction rest as [|y rest IH]; intros smallest seen Hin Hmin; simpl.
  - rewrite app_nil_r. auto.
  - replace (seen ++ y :: rest) with ((seen ++ [y]) ++ rest)
      by (rewrite <- app_assoc; done).
    destruct (f_lt y smallest) eqn:Hlt.
    + apply IH.
      * apply in_or_app. right. by left.
      * intros x Hx. apply in_app_or in Hx as [Hx|[<-|[]]]; [|apply lt_irrefl].
        destruct (f_lt x y) eqn:Hxy; [|done].
        rewrite <- (Hmin x Hx). symmetry. eapply lt_trans; eauto.
    + apply IH.
      * apply in_or_app. by left.
      * intros x Hx. apply in_app_or in Hx as [Hx|[<-|[]]]; auto.
Qed.

(** [std::max_element] returns an element of the range that is smaller
    than no element. *)
Lemma max_element_from_spec (largest : F) (rest seen : list F) :
  In largest seen ->
  (forall x, In x seen -> f_lt largest x = false) ->
  In (max_element_from largest rest) (seen ++ rest) /\
  forall x, In x (seen ++ rest) -> f_lt (max_element_from largest rest) x = false.
Proof using lt_irrefl lt_trans.
  revert largest seen. induction rest as [|y rest IH]; intros largest seen Hin Hmax; simpl.
  - rewrite app_nil_r. auto.
  - replace (seen ++ y :: rest) with ((seen ++ [y]) ++ rest)
      by (rewrite <- app_assoc; done).
    destruct (f_lt largest y) eqn:Hlt.
    + apply IH.
      * apply in_or_app. right. by left.
      * intros x Hx. apply in_app_or in Hx as [Hx|[<-|[]]]; [|apply lt_irrefl].
        destruct (f_lt y x) eqn:Hyx; [|done].
        rewrite <- (Hmax x Hx). symmetry. eapply lt_trans; eauto.
    + apply IH.
      * apply in_or_app. by left.
      * intros x Hx. apply in_app_or in Hx as [Hx|[<-|[]]]; auto.
Qed.

End Extremes.

(** The title of a statistics block does not change its numbers. *)
Lemma logged_values_title {F : Type} {ops : FloatOps F}
  (audio_data : list F) (title1 title2 : string) :
  logged_values (printStats audio_data title1)
  = logged_values (printStats audio_data title2).
Proof. by destruct audio_data. Qed.

(** The statistics of the specification's example buffer, as [float]
    computes them. *)
Lemma example_stats_values :
  logged_values (printStats example_buffer "") =
  [ratio32 (-1) 1; ratio32 3 4; ratio32 1 1;
   SFsqrt prec32 emax32 (ratio32 15 32);
   SFdiv prec32 emax32 (ratio32 1 1) (SFsqrt prec32 emax32 (ratio32 15 32))].
Proof. vm_compute. reflexivity. Qed.

Lemma example_rms_digits :
  approx4 (SFsqrt prec32 emax32 (ratio32 15 32)) (6847 # 10000) = true.
Proof. vm_compute. reflexivity. Qed.

Lemma example_ratio_digits :
  approx4 (SFdiv prec32 emax32 (ratio32 1 1) (SFsqrt prec32 emax32 (ratio32 15 32)))
    (14606 # 10000) = true /\
  approx4 (SFdiv prec32 emax32 (ratio32 1 1) (SFsqrt prec32 emax32 (ratio32 15 32)))
    (14603 # 10000) = false.
Proof. vm_compute. split; reflexivity. Qed.

(** ** 10. The signal processor without rounding *)

Section RealSignal.
Local Open Scope R_scope.












End RealSignal.

(** ** 11. The signal processor: rounding in [float] *)

(** *** Powers of two *)

Lemma pow2_pos e : (0 < pow2 e)%R.
Proof. apply powerRZ_lt. lra. Qed.

Lemma pow2_add a b : pow2 (a + b) = (pow2 a * pow2 b)%R.
Proof. apply powerRZ_add. lra. Qed.

Lemma pow2_succ e : pow2 (e + 1) = (2 * pow2 e)%R.
Proof. rewrite pow2_add. unfold pow2 at 2. simpl. lra. Qed.

Lemma pow2_IZR (n : Z) : (0 <= n)%Z -> pow2 n = IZR (2 ^ n).
Proof.
  intros Hn. unfold pow2. destruct n as [|p|p]; [done| |lia].
  rewrite <- Zpower_pos_powerRZ. done.
Qed.

Lemma pow2_le a b : (a <= b)%Z -> (pow2 a <= pow2 b)%R.
Proof.
  intros Hab. replace b with (a + (b - a))%Z by lia. rewrite pow2_add.
  rewrite (pow2_IZR (b - a)) by lia.
  assert (1 <= IZR (2 ^ (b - a)))%R.
  { apply IZR_le. pose proof (Z.pow_pos_nonneg 2 (b - a)). lia. }
  pose proof (pow2_pos a). nra.
Qed.

(** *** The number of binary digits *)

Lemma digits2_pos_spec (p : positive) :
  (2 ^ (Z.pos (digits2_pos p) - 1) <= Z.pos p < 2 ^ Z.pos (digits2_pos p))%Z.
Proof.
  induction p as [p IH|p IH|]; simpl digits2_pos.
  - rewrite Pos2Z.inj_succ.
    replace (Z.succ (Z.pos (digits2_pos p)) - 1)%Z with (Z.pos (digits2_pos p) - 1 + 1)%Z by lia.
    rewrite Z.pow_succ_r by lia.
    rewrite Z.pow_add_r by lia. lia.
  - rewrite Pos2Z.inj_succ.
    replace (Z.succ (Z.pos (digits2_pos p)) - 1)%Z with (Z.pos (digits2_pos p) - 1 + 1)%Z by lia.
    rewrite Z.pow_succ_r by lia.
    rewrite Z.pow_add_r by lia. lia.
  - simpl. lia.
Qed.

Lemma digits2_pos_unique (p : positive) (d : Z) :
  (2 ^ (d - 1) <= Z.pos p < 2 ^ d)%Z -> Z.pos (digits2_pos p) = d.
Proof.
  intros [Hlo Hhi]. pose proof (digits2_pos_spec p) as [Hlo' Hhi'].
  assert (0 < d)%Z.
  { destruct (Z_lt_le_dec 0 d); [done|].
    rewrite Z.pow_neg_r in Hlo by lia.
    destruct (Z.eq_dec d 0%Z) as [->|]; [simpl in Hhi; lia|].
    rewrite Z.pow_neg_r in Hhi by lia. lia. }
  destruct (Z.lt_trichotomy (Z.pos (digits2_pos p)) d) as [Hlt|[Heq|Hgt]]; [|done|].
  - assert (2 ^ Z.pos (digits2_pos p) <= 2 ^ (d - 1))%Z
      by (apply Z.pow_le_mono_r; lia). lia.
  - assert (2 ^ d <= 2 ^ (Z.pos (digits2_pos p) - 1))%Z
      by (apply Z.pow_le_mono_r; lia). lia.
Qed.

(** *** Shifting a mantissa to the right *)

Lemma IZR_xO p : IZR (Z.pos p~0) = (2 * IZR (Z.pos p))%R.
Proof. rewrite Pos2Z.inj_xO, mult_IZR. done. Qed.

Lemma IZR_xI p : IZR (Z.pos p~1) = (2 * IZR (Z.pos p) + 1)%R.
Proof. rewrite Pos2Z.inj_xI, plus_IZR, mult_IZR. done. Qed.

(** One step of [shr] keeps the bracket, one exponent higher, and halves
    the mantissa. *)
Lemma shr_1_brackets (x : R) (mrs : shr_record) (e : Z) :
  (0 <= shr_m mrs)%Z -> brackets x mrs e ->
  brackets x (shr_1 mrs) (e + 1) /\ shr_m (shr_1 mrs) = (shr_m mrs / 2)%Z.
Proof.
  destruct mrs as [m r s]. unfold brackets. simpl. intros Hm [Hx Hloc].
  rewrite pow2_succ. pose proof (pow2_pos e) as Hu.
  set (u := pow2 e) in *.
  destruct m as [|[p|p|]|]; [| | | |lia].
  - (* 0 *)
    simpl. split; [|done]. destruct r, s; simpl in *; lra.
  - (* 2p + 1 *)
    split.
    + rewrite IZR_xI in *. simpl. destruct r, s; simpl in *; lra.
    + simpl. rewrite Pos2Z.inj_xI.
      apply (Z.div_unique _ 2 _ 1); lia.
  - (* 2p *)
    split.
    + rewrite IZR_xO in *. simpl. destruct r, s; simpl in *; lra.
    + simpl. rewrite Pos2Z.inj_xO.
      apply (Z.div_unique _ 2 _ 0); lia.
  - (* 1 *)
    split; [|done]. simpl. destruct r, s; simpl in *; lra.
Qed.

Lemma iter_pos_nat {A : Type} (f : A -> A) (p : positive) (a : A) :
  SpecFloat.iter_pos f p a = Nat.iter (Pos.to_nat p) f a.
Proof.
  revert a. induction p as [p IH|p IH|]; intros a; cbn [SpecFloat.iter_pos].
  - rewrite !IH, Pos2Nat.inj_xI.
    replace (S (2 * Pos.to_nat p)) with (S (Pos.to_nat p + Pos.to_nat p)) by lia.
    by rewrite Nat.iter_succ_r, Nat.iter_add.
  - rewrite !IH, Pos2Nat.inj_xO.
    replace (2 * Pos.to_nat p)%nat with (Pos.to_nat p + Pos.to_nat p)%nat by lia.
    by rewrite Nat.iter_add.
  - done.
Qed.

Lemma shr_iter_brackets (x : R) (k : nat) (mrs : shr_record) (e : Z) :
  (0 <= shr_m mrs)%Z -> brackets x mrs e ->
  brackets x (Nat.iter k shr_1 mrs) (e + Z.of_nat k) /\
  shr_m (Nat.iter k shr_1 mrs) = (shr_m mrs / 2 ^ Z.of_nat k)%Z.
Proof.
  intros Hm Hb. induction k as [|k [IHb IHm]].
  - simpl. rewrite Z.add_0_r, Z.div_1_r. done.
  - simpl Nat.iter.
    assert (Hpos : (0 <= shr_m (Nat.iter k shr_1 mrs))%Z).
    { rewrite IHm. apply Z.div_pos; [done|]. apply Z.pow_pos_nonneg; lia. }
    destruct (shr_1_brackets x _ _ Hpos IHb) as [Hb' Hm'].
    split.
    + replace (e + Z.of_nat (S k))%Z with (e + Z.of_nat k + 1)%Z by lia. done.
    + rewrite Hm', IHm. rewrite Z.div_div by (try apply Z.pow_pos_nonneg; lia).
      f_equal. rewrite Nat2Z.inj_succ, Z.pow_succ_r by lia. lia.
Qed.

(** [shr] by [n] bits. *)
Lemma shr_brackets (x : R) (mrs : shr_record) (e n : Z) :
  (0 <= shr_m mrs)%Z -> (0 <= n)%Z -> brackets x mrs e ->
  brackets x (fst (shr mrs e n)) (e + n) /\
  snd (shr mrs e n) = (e + n)%Z /\
  shr_m (fst (shr mrs e n)) = (shr_m mrs / 2 ^ n)%Z.
Proof.
  intros Hm Hn Hb. unfold shr. destruct n as [|p|p]; [| |lia].
  - simpl. rewrite Z.add_0_r, Z.div_1_r. done.
  - simpl fst. simpl snd. rewrite iter_pos_nat.
    destruct (shr_iter_brackets x (Pos.to_nat p) mrs e Hm Hb) as [H1 H2].
    rewrite positive_nat_Z in *. done.
Qed.

(** Rounding to nearest moves the mantissa by at most half a unit, and not
    at all when the value is at the lower end. *)
Lemma round_nearest_even_brackets (x : R) (mrs : shr_record) (e : Z) :
  brackets x mrs e ->
  let m1 := round_nearest_even (shr_m mrs) (loc_of_shr_record mrs) in
  (m1 = shr_m mrs \/ m1 = (shr_m mrs + 1)%Z) /\
  (Rabs (IZR m1 * pow2 e - x) <= / 2 * pow2 e)%R.
Proof.
  destruct mrs as [m r s]. unfold brackets. simpl. intros [Hx Hloc].
  pose proof (pow2_pos e) as Hu. set (u := pow2 e) in *.
  destruct r, s; simpl.
  - split; [by right|]. rewrite plus_IZR. apply Rabs_le. lra.
  - destruct (Z.even m); (split; [auto|]); rewrite ?plus_IZR; apply Rabs_le; lra.
  - split; [by left|]. apply Rabs_le. lra.
  - split; [by left|]. apply Rabs_le. lra.
Qed.

(** *** Rounding to a normal float *)

Section Rounding32.
Local Open Scope Z_scope.

Lemma shr_m_of_loc m l : shr_m (shr_record_of_loc m l) = m.
Proof. by destruct l as [|[]]. Qed.

Lemma loc_of_shr_of_loc m l : loc_of_shr_record (shr_record_of_loc m l) = l.
Proof. by destruct l as [|[]]. Qed.

Lemma fexp32_normal (e : Z) : (-149 <= e - 24)%Z -> fexp prec32 emax32 e = (e - 24)%Z.
Proof. unfold fexp, emin, prec32, emax32. lia. Qed.

Lemma Zdigits2_unique (m d : Z) :
  (2 ^ (d - 1) <= m < 2 ^ d)%Z -> (0 < m)%Z -> Zdigits2 m = d.
Proof.
  intros Hm Hpos. destruct m as [|p|p]; try lia. simpl.
  by apply digits2_pos_unique.
Qed.

Lemma pow2_23 : (2 ^ 23 = 8388608)%Z. Proof. reflexivity. Qed.
Lemma pow2_24 : (2 ^ 24 = 16777216)%Z. Proof. reflexivity. Qed.

(** The rounding step of every operation, when the result is a normal
    number: from a mantissa of [d >= 24] digits at exponent [ex] that
    brackets the real [x], [binary_round_aux] makes a float with a 24-digit
    mantissa that is within half a unit in the last place of [x]. *)
Lemma binary_round_aux_normal (sx : bool) (m d ex : Z) (lx : location) (x : R) :
  (24 <= d)%Z -> (2 ^ (d - 1) <= m < 2 ^ d)%Z ->
  brackets x (shr_record_of_loc m lx) ex ->
  (-149 <= ex + d - 24)%Z -> (ex + d - 24 <= 103)%Z ->
  exists m' e',
    binary_round_aux prec32 emax32 sx m ex lx = S754_finite sx m' e' /\
    (2 ^ 23 <= Z.pos m' < 2 ^ 24)%Z /\
    (ex + d - 24 <= e' <= ex + d - 23)%Z /\
    (Rabs (IZR (Z.pos m') * pow2 e' - x) <= / 2 * pow2 (ex + d - 24))%R.
Proof.
  intros Hd Hm Hb Hlo Hhi.
  assert (Hmpos : (0 < m)%Z).
  { assert (0 < 2 ^ (d - 1))%Z by (apply Z.pow_pos_nonneg; lia). lia. }
  set (e1 := (ex + d - 24)%Z) in *.
  unfold binary_round_aux, shr_fexp.
  rewrite (Zdigits2_unique m d Hm Hmpos).
  rewrite fexp32_normal by lia.
  replace (d + ex - 24 - ex)%Z with (d - 24)%Z by lia.
  destruct (shr_brackets x (shr_record_of_loc m lx) ex (d - 24)) as (Hb1 & He1 & Hm1);
    [rewrite shr_m_of_loc; lia|lia|done|].
  destruct (shr (shr_record_of_loc m lx) ex (d - 24)) as [mrs1 e1'].
  simpl in Hb1, He1, Hm1. subst e1'.
  replace (ex + (d - 24))%Z with e1 in * by (unfold e1; lia).
  rewrite shr_m_of_loc in Hm1.
  (* the shifted mantissa has 24 digits *)
  assert (Hq : (2 ^ 23 <= shr_m mrs1 < 2 ^ 24)%Z).
  { rewrite Hm1.
    assert (Hpow : (2 ^ (d - 1) = 2 ^ 23 * 2 ^ (d - 24))%Z).
    { rewrite <- Z.pow_add_r by lia. f_equal. lia. }
    assert (Hpow' : (2 ^ d = 2 ^ 24 * 2 ^ (d - 24))%Z).
    { rewrite <- Z.pow_add_r by lia. f_equal. lia. }
    assert (Hp : (0 < 2 ^ (d - 24))%Z) by (apply Z.pow_pos_nonneg; lia).
    split.
    - apply Z.div_le_lower_bound; [done|]. lia.
    - apply Z.div_lt_upper_bound; [done|]. lia. }
  destruct (round_nearest_even_brackets x mrs1 e1 Hb1) as [Hm2 Herr].
  set (m2 := round_nearest_even (shr_m mrs1) (loc_of_shr_record mrs1)) in *.
  rewrite pow2_23, pow2_24 in *.
  assert (Hm2' : (8388608 <= m2 <= 16777216)%Z) by lia.
  destruct (Z.eq_dec m2 16777216) as [Htop|Hnot].
  - (* the mantissa has overflowed to 2^24: one more shift, which is exact *)
    rewrite Htop in *.
    replace (Zdigits2 16777216) with 25%Z by reflexivity.
    rewrite fexp32_normal by lia.
    replace (25 + e1 - 24 - e1)%Z with 1%Z by lia.
    simpl. change (emax32 - prec32) with 104.
    destruct (e1 + 1 <=? 104)%Z eqn:Hle; [|apply Z.leb_gt in Hle; lia].
    exists 8388608%positive, (e1 + 1)%Z.
    split; [done|]. split; [lia|]. split; [lia|].
    rewrite pow2_succ.
    replace (IZR 8388608 * (2 * pow2 e1))%R with (IZR 16777216 * pow2 e1)%R by lra.
    done.
  - assert (Hdig : Zdigits2 m2 = 24%Z).
    { apply Zdigits2_unique; [|lia]. rewrite pow2_24. simpl. lia. }
    rewrite Hdig, fexp32_normal by lia.
    replace (24 + e1 - 24 - e1)%Z with 0%Z by lia.
    simpl. destruct m2 as [|p|p] eqn:Hp; try lia.
    change (emax32 - prec32) with 104.
    destruct (e1 <=? 104)%Z eqn:Hle; [|apply Z.leb_gt in Hle; lia].
    exists p, e1. split; [done|]. split; [lia|]. split; [lia|]. done.
Qed.

End Rounding32.

(** *** Multiplication of normal floats *)

Section Mul32.
Local Open Scope Z_scope.

Lemma normal32_inv (x : binary32) :
  normal32 x = true ->
  exists s m e, x = S754_finite s m e /\
    8388608 <= Z.pos m < 16777216 /\ -149 <= e <= 104.
Proof.
  destruct x as [| | |s m e]; try done. simpl.
  rewrite !andb_true_iff, !Z.leb_le, !Z.ltb_lt. intros H.
  exists s, m, e. split; [done|lia].
Qed.

Lemma normal32_intro s m e :
  8388608 <= Z.pos m < 16777216 -> -149 <= e <= 104 ->
  normal32 (S754_finite s m e) = true.
Proof.
  intros Hm He. simpl. rewrite !andb_true_iff, !Z.leb_le, !Z.ltb_lt. lia.
Qed.

Lemma pow2_mantissa (d ex : Z) :
  pow2 (ex + d - 24) = (pow2 (-24) * (pow2 (d - 1) * pow2 ex * 2))%R.
Proof.
  rewrite <- !pow2_add. rewrite <- (Rmult_assoc _ _ 2), <- pow2_add.
  replace (pow2 (-24 + (d - 1 + ex)) * 2)%R with (pow2 (-24 + (d - 1 + ex) + 1)).
  - f_equal. lia.
  - rewrite pow2_succ. lra.
Qed.

(** The absolute values: a bracketed rounding is within [u32] of a value
    that is at least [2^(d-1) * 2^ex]. *)
Lemma half_ulp_relative (d ex : Z) (x y : R) :
  (pow2 (d - 1) * pow2 ex <= x)%R ->
  (Rabs (y - x) <= / 2 * pow2 (ex + d - 24))%R ->
  (Rabs (y - x) <= u32 * x)%R.
Proof.
  intros Hx Hy. rewrite pow2_mantissa in Hy. unfold u32.
  pose proof (pow2_pos (-24)). pose proof (pow2_pos (d - 1)). pose proof (pow2_pos ex).
  eapply Rle_trans; [exact Hy|]. nra.
Qed.

Lemma SFmul_normal (a b : binary32) :
  normal32 a = true -> normal32 b = true ->
  -172 <= exponent32 a + exponent32 b <= 79 ->
  normal32 (SFmul prec32 emax32 a b) = true /\
  sign32 (SFmul prec32 emax32 a b) = xorb (sign32 a) (sign32 b) /\
  exponent32 a + exponent32 b + 23
    <= exponent32 (SFmul prec32 emax32 a b) <= exponent32 a + exponent32 b + 25 /\
  rel_close u32 (B2R (SFmul prec32 emax32 a b)) (B2R a * B2R b).
Proof.
  intros Ha Hb He.
  apply normal32_inv in Ha as (sa & ma & ea & -> & Hma & Hea).
  apply normal32_inv in Hb as (sb & mb & eb & -> & Hmb & Heb).
  simpl in He. unfold SFmul.
  set (m := Z.pos (ma * mb)).
  assert (Hm : 8388608 * 8388608 <= m < 16777216 * 16777216).
  { unfold m. rewrite Pos2Z.inj_mul. nia. }
  set (x := (IZR m * pow2 (ea + eb))%R).
  (* the number of digits of the product: 47 or 48 *)
  assert (Hd : exists d, 47 <= d <= 48 /\ 2 ^ (d - 1) <= m < 2 ^ d).
  { destruct (Z_lt_le_dec m (2 ^ 47)) as [Hlt|Hge].
    - exists 47. split; [lia|]. change (2 ^ (47 - 1)) with 70368744177664. lia.
    - exists 48. split; [lia|]. change (2 ^ (48 - 1)) with (2 ^ 47).
      change (2 ^ 48) with 281474976710656. lia. }
  destruct Hd as (d & Hd & Hmd).
  destruct (binary_round_aux_normal (xorb sa sb) m d (ea + eb) loc_Exact x)
    as (m' & e' & Hr & Hm' & He' & Herr); try lia.
  { unfold brackets. simpl. pose proof (pow2_pos (ea + eb)). unfold x. lra. }
  fold m. rewrite Hr.
  split; [apply normal32_intro; lia|]. split; [done|]. split; [simpl; lia|].
  unfold rel_close.
  assert (Hx : (pow2 (d - 1) * pow2 (ea + eb) <= x)%R).
  { unfold x. apply Rmult_le_compat_r; [apply Rlt_le, pow2_pos|].
    rewrite pow2_IZR by lia. apply IZR_le. lia. }
  pose proof (half_ulp_relative d (ea + eb) x _ Hx Herr) as Hrel.
  assert (Hxpos : (0 < x)%R).
  { pose proof (pow2_pos (d - 1)). pose proof (pow2_pos (ea + eb)). nra. }
  assert (Hprod : (B2R (S754_finite sa ma ea) * B2R (S754_finite sb mb eb)
                  = (if xorb sa sb then -1 else 1) * x)%R).
  { unfold x, m. simpl. rewrite Pos2Z.inj_mul, mult_IZR, pow2_add.
    destruct sa, sb; simpl; lra. }
  rewrite Hprod. simpl B2R.
  destruct (xorb sa sb).
  - replace (-1 * IZR (Z.pos m') * pow2 e' - -1 * x)%R
      with (- (IZR (Z.pos m') * pow2 e' - x))%R by lra.
    rewrite Rabs_Ropp. replace (-1 * x)%R with (- x)%R by lra.
    rewrite Rabs_Ropp, (Rabs_right x) by lra. done.
  - rewrite !Rmult_1_l, (Rabs_right x) by lra. done.
Qed.

End Mul32.

(** *** Division of normal floats *)

Section Div32.
Local Open Scope Z_scope.

(** [new_location] places the quotient [q + r / m2] among [q], [q + 1/2]
    and [q + 1]. *)
Lemma new_location_brackets (q m2 r e : Z) (x : R) :
  0 < m2 -> 0 <= r < m2 -> 0 <= q ->
  x = ((IZR q + IZR r / IZR m2) * pow2 e)%R ->
  brackets x (shr_record_of_loc q (new_location m2 r)) e.
Proof.
  intros Hm2 Hr Hq ->.
  pose proof (pow2_pos e) as He.
  assert (Hm2R : (0 < IZR m2)%R) by (apply IZR_lt; lia).
  assert (Hr0 : (0 <= IZR r / IZR m2)%R).
  { apply Rmult_le_pos; [apply IZR_le; lia|]. apply Rlt_le, Rinv_0_lt_compat; lra. }
  assert (Hr1 : (IZR r / IZR m2 < 1)%R).
  { apply (Rmult_lt_reg_r (IZR m2)); [lra|]. unfold Rdiv.
    rewrite Rmult_assoc, Rinv_l, Rmult_1_r, Rmult_1_l by lra. apply IZR_lt; lia. }
  assert (Hhalf : forall c, (2 * r ?= m2) = c ->
            match c with
            | Lt => (IZR r / IZR m2 < / 2)%R
            | Eq => (IZR r / IZR m2 = / 2)%R
            | Gt => (/ 2 < IZR r / IZR m2)%R
            end).
  { intros c Hc. destruct c.
    - apply Z.compare_eq in Hc. apply (Rmult_eq_reg_r (IZR m2)); [|lra].
      unfold Rdiv. rewrite Rmult_assoc, Rinv_l, Rmult_1_r by lra.
      rewrite <- Hc, mult_IZR. lra.
    - apply -> Z.compare_lt_iff in Hc. apply (Rmult_lt_reg_r (IZR m2)); [lra|].
      unfold Rdiv. rewrite Rmult_assoc, Rinv_l, Rmult_1_r by lra.
      apply IZR_lt in Hc. rewrite mult_IZR in Hc. lra.
    - apply -> Z.compare_gt_iff in Hc. apply (Rmult_lt_reg_r (IZR m2)); [lra|].
      unfold Rdiv. rewrite Rmult_assoc, Rinv_l, Rmult_1_r by lra.
      apply IZR_lt in Hc. rewrite mult_IZR in Hc. lra. }
  assert (Hloc : match new_location m2 r with
                 | loc_Exact => r = 0
                 | loc_Inexact Lt => (0 < IZR r / IZR m2 < / 2)%R
                 | loc_Inexact Eq => (IZR r / IZR m2 = / 2)%R
                 | loc_Inexact Gt => (/ 2 < IZR r / IZR m2)%R
                 end).
  { assert (Hpos : r <> 0 -> (0 < IZR r / IZR m2)%R).
    { intros Hne. apply Rmult_lt_0_compat; [apply IZR_lt; lia|].
      apply Rinv_0_lt_compat; lra. }
    unfold new_location, new_location_even, new_location_odd.
    destruct (Z.even m2) eqn:Hev.
    - destruct (Z.eqb_spec r 0) as [->|Hne]; [done|].
      pose proof (Hhalf _ eq_refl) as Hh.
      destruct (2 * r ?= m2); auto.
    - destruct (Z.eqb_spec r 0) as [->|Hne]; [done|].
      assert (Hodd : Z.odd m2 = true) by (rewrite <- Z.negb_even, Hev; done).
      apply Z.odd_spec in Hodd as [k Hk].
      destruct (2 * r + 1 ?= m2) eqn:Hc.
      + apply Z.compare_eq in Hc.
        pose proof (Hhalf Lt) as Hh. split; [auto|]. apply Hh.
        apply Z.compare_lt_iff. lia.
      + apply -> Z.compare_lt_iff in Hc.
        pose proof (Hhalf Lt) as Hh. split; [auto|]. apply Hh.
        apply Z.compare_lt_iff. lia.
      + apply -> Z.compare_gt_iff in Hc.
        pose proof (Hhalf Gt) as Hh. apply Hh.
        apply Z.compare_gt_iff. lia. }
  unfold brackets.
  destruct (new_location m2 r) as [|[| |]]; simpl.
  - subst r. replace (IZR 0 / IZR m2)%R with 0%R by (unfold Rdiv; lra). nra.
  - nra.
  - nra.
  - nra.
Qed.

Lemma pow2_opp (e : Z) : pow2 (- e) = (/ pow2 e)%R.
Proof.
  pose proof (pow2_pos e) as He. pose proof (pow2_add e (- e)) as Hinv.
  replace (e + - e) with 0 in Hinv by lia. change (pow2 0) with 1%R in Hinv.
  apply (Rmult_eq_reg_l (pow2 e)); [|lra]. rewrite <- Hinv, Rinv_r by lra. done.
Qed.

Lemma SFdiv_normal (a b : binary32) :
  normal32 a = true -> normal32 b = true ->
  -125 <= exponent32 a - exponent32 b <= 126 ->
  normal32 (SFdiv prec32 emax32 a b) = true /\
  sign32 (SFdiv prec32 emax32 a b) = xorb (sign32 a) (sign32 b) /\
  exponent32 a - exponent32 b - 24
    <= exponent32 (SFdiv prec32 emax32 a b) <= exponent32 a - exponent32 b - 22 /\
  rel_close u32 (B2R (SFdiv prec32 emax32 a b)) (B2R a / B2R b).
Proof.
  intros Ha Hb He.
  apply normal32_inv in Ha as (sa & ma & ea & -> & Hma & Hea).
  apply normal32_inv in Hb as (sb & mb & eb & -> & Hmb & Heb).
  simpl in He. unfold SFdiv, SFdiv_core_binary.
  rewrite (Zdigits2_unique (Z.pos ma) 24), (Zdigits2_unique (Z.pos mb) 24)
    by (change (2 ^ (24 - 1)) with 8388608; change (2 ^ 24) with 16777216; lia).
  replace (24 + ea - (24 + eb)) with (ea - eb) by lia.
  rewrite fexp32_normal by lia.
  rewrite Z.min_l by lia.
  replace (ea - eb - (ea - eb - 24)) with 24 by lia.
  rewrite Z.shiftl_mul_pow2 by lia. change (2 ^ 24) with 16777216.
  pose proof (Z.div_eucl_eq (Z.pos ma * 16777216) (Z.pos mb) ltac:(lia)) as Hdiv.
  pose proof (Z.mod_pos_bound (Z.pos ma * 16777216) (Z.pos mb) ltac:(lia)) as Hmod.
  unfold Z.modulo in Hmod.
  destruct (Z.div_eucl (Z.pos ma * 16777216) (Z.pos mb)) as [q r].
  assert (Hq : 8388608 <= q < 33554432) by nia.
  set (x := ((IZR q + IZR r / IZR (Z.pos mb)) * pow2 (ea - eb - 24))%R).
  assert (Hd : exists d, 24 <= d <= 25 /\ 2 ^ (d - 1) <= q < 2 ^ d).
  { destruct (Z_lt_le_dec q 16777216) as [Hlt|Hge].
    - exists 24. split; [lia|]. change (2 ^ (24 - 1)) with 8388608.
      change (2 ^ 24) with 16777216. lia.
    - exists 25. split; [lia|]. change (2 ^ (25 - 1)) with 16777216.
      change (2 ^ 25) with 33554432. lia. }
  destruct Hd as (d & Hd & Hqd).
  destruct (binary_round_aux_normal (xorb sa sb) q d (ea - eb - 24)
              (new_location (Z.pos mb) r) x)
    as (m' & e' & Hr & Hm' & He' & Herr); try lia.
  { apply new_location_brackets with (r := r); try lia. done. }
  rewrite Hr.
  split; [apply normal32_intro; lia|]. split; [done|]. split; [simpl; lia|].
  unfold rel_close.
  assert (HmbR : (0 < IZR (Z.pos mb))%R) by (apply IZR_lt; lia).
  assert (Hr0 : (0 <= IZR r / IZR (Z.pos mb))%R).
  { apply Rmult_le_pos; [apply IZR_le; lia|]. apply Rlt_le, Rinv_0_lt_compat; lra. }
  assert (Hx : (pow2 (d - 1) * pow2 (ea - eb - 24) <= x)%R).
  { unfold x. apply Rmult_le_compat_r; [apply Rlt_le, pow2_pos|].
    rewrite pow2_IZR by lia. assert (IZR (2 ^ (d - 1)) <= IZR q)%R by (apply IZR_le; lia).
    lra. }
  pose proof (half_ulp_relative d (ea - eb - 24) x _ Hx Herr) as Hrel.
  assert (Hxpos : (0 < x)%R).
  { pose proof (pow2_pos (d - 1)). pose proof (pow2_pos (ea - eb - 24)). nra. }
  assert (Hquot : (B2R (S754_finite sa ma ea) / B2R (S754_finite sb mb eb)
                  = (if xorb sa sb then -1 else 1) * x)%R).
  { assert (Hxe : x = (IZR (Z.pos ma) * pow2 ea / (IZR (Z.pos mb) * pow2 eb))%R).
    { unfold x.
      replace (IZR q + IZR r / IZR (Z.pos mb))%R
        with (IZR (Z.pos ma) * 16777216 / IZR (Z.pos mb))%R.
      - replace (ea - eb - 24) with (ea + (- eb + -24)) by lia.
        rewrite !pow2_add, pow2_opp.
        pose proof (pow2_pos eb) as Hpe.
        assert (Hp24 : pow2 (-24) = (/ 16777216)%R).
        { unfold pow2. simpl. lra. }
        rewrite Hp24. field. lra.
      - apply (f_equal IZR) in Hdiv. rewrite plus_IZR, !mult_IZR in Hdiv.
        field_simplify_eq; [|lra]. change (IZR 16777216) with 16777216%R in Hdiv. lra. }
    rewrite Hxe. simpl B2R. destruct sa, sb; simpl; field; split; try lra;
      pose proof (pow2_pos eb); lra. }
  rewrite Hquot. simpl B2R.
  destruct (xorb sa sb).
  - replace (-1 * IZR (Z.pos m') * pow2 e' - -1 * x)%R
      with (- (IZR (Z.pos m') * pow2 e' - x))%R by lra.
    rewrite Rabs_Ropp. replace (-1 * x)%R with (- x)%R by lra.
    rewrite Rabs_Ropp, (Rabs_right x) by lra. done.
  - rewrite !Rmult_1_l, (Rabs_right x) by lra. done.
Qed.

End Div32.

(** *** Order and the peak scan on normal floats *)

Section Order32.
Local Open Scope Z_scope.

Lemma B2R_abs (x : binary32) : B2R (SFabs x) = Rabs (B2R x).
Proof.
  destruct x as [s|s| |s m e]; simpl; try (by rewrite Rabs_R0).
  assert (Hpos : (0 < IZR (Z.pos m) * pow2 e)%R).
  { apply Rmult_lt_0_compat; [apply IZR_lt; lia|apply pow2_pos]. }
  destruct s.
  - replace (-1 * IZR (Z.pos m) * pow2 e)%R with (- (IZR (Z.pos m) * pow2 e))%R by lra.
    rewrite Rabs_Ropp, Rabs_right; lra.
  - rewrite Rabs_right; lra.
Qed.

Lemma zero_or_normal_abs (x : binary32) :
  zero_or_normal x = true ->
  zero_or_normal (SFabs x) = true /\ sign32 (SFabs x) = false.
Proof. by destruct x. Qed.

Lemma normal32_abs (x : binary32) :
  normal32 x = true ->
  normal32 (SFabs x) = true /\ exponent32 (SFabs x) = exponent32 x.
Proof. by destruct x. Qed.

Lemma B2R_zero (x : binary32) : is_zero32 x = true -> B2R x = 0%R.
Proof. by destruct x. Qed.

Lemma B2R_normal_pos (x : binary32) :
  normal32 x = true -> (0 < Rabs (B2R x))%R.
Proof.
  intros Hx. apply normal32_inv in Hx as (s & m & e & -> & Hm & He).
  apply Rabs_pos_lt. simpl.
  assert (Hpos : (0 < IZR (Z.pos m) * pow2 e)%R).
  { apply Rmult_lt_0_compat; [apply IZR_lt; lia|apply pow2_pos]. }
  destruct s; lra.
Qed.

(** Between normal numbers the larger exponent wins. *)
Lemma normal_exponent_lt (m1 m2 : positive) (e1 e2 : Z) :
  8388608 <= Z.pos m1 < 16777216 -> 8388608 <= Z.pos m2 < 16777216 ->
  e1 < e2 ->
  (IZR (Z.pos m1) * pow2 e1 < IZR (Z.pos m2) * pow2 e2)%R.
Proof.
  intros Hm1 Hm2 He.
  pose proof (pow2_pos e1) as Hp1.
  pose proof (pow2_le (e1 + 1) e2 ltac:(lia)) as Hle. rewrite pow2_succ in Hle.
  assert (H1 : (IZR (Z.pos m1) < 16777216)%R) by (apply IZR_lt; lia).
  assert (H2 : (8388608 <= IZR (Z.pos m2))%R) by (apply IZR_le; lia).
  nra.
Qed.

Lemma SFltb_nonneg (a b : binary32) :
  zero_or_normal a = true -> zero_or_normal b = true ->
  sign32 a = false -> sign32 b = false ->
  SFltb a b = true <-> (B2R a < B2R b)%R.
Proof.
  intros Ha Hb Hsa Hsb.
  destruct a as [sa|sa| |sa ma ea]; try done;
  destruct b as [sb|sb| |sb mb eb]; try done;
  simpl in Hsa, Hsb; subst.
  - simpl. split; [done|lra].
  - change (normal32 (S754_finite false mb eb) = true) in Hb.
    apply normal32_inv in Hb as (s & m & e & [= <- <- <-] & Hm & He).
    simpl. rewrite Rmult_1_l. split; [|done]. intros _.
    apply Rmult_lt_0_compat; [apply IZR_lt; lia|apply pow2_pos].
  - change (normal32 (S754_finite false ma ea) = true) in Ha.
    apply normal32_inv in Ha as (s & m & e & [= <- <- <-] & Hm & He).
    simpl. rewrite Rmult_1_l. split; [done|]. intros Hlt.
    assert (0 < IZR (Z.pos ma) * pow2 ea)%R; [|lra].
    apply Rmult_lt_0_compat; [apply IZR_lt; lia|apply pow2_pos].
  - change (normal32 (S754_finite false ma ea) = true) in Ha.
    change (normal32 (S754_finite false mb eb) = true) in Hb.
    apply normal32_inv in Ha as (s & m & e & [= <- <- <-] & Hma & Hea).
    apply normal32_inv in Hb as (s & m & e & [= <- <- <-] & Hmb & Heb).
    unfold SFltb, SFcompare. simpl B2R. rewrite !Rmult_1_l.
    destruct (Z.compare_spec ea eb) as [->|Hlt|Hgt].
    + pose proof (pow2_pos eb) as Hp.
      change (Pos.compare_cont Eq ma mb) with (Pos.compare ma mb).
      destruct (Pos.compare_spec ma mb) as [->|Hlt|Hgt].
      * split; [done|lra].
      * split; [|done]. intros _. apply Rmult_lt_compat_r; [done|].
        apply IZR_lt. lia.
      * split; [done|]. intros Hlt.
        assert (IZR (Z.pos mb) < IZR (Z.pos ma))%R by (apply IZR_lt; lia). nra.
    + split; [|done]. intros _. by apply normal_exponent_lt.
    + split; [done|]. intros Hlt.
      pose proof (normal_exponent_lt mb ma eb ea Hmb Hma Hgt). lra.
Qed.

(** The scan keeps the largest magnitude met so far. *)
Lemma peak_scan_spec (audio_data : list binary32) (start : binary32) :
  Forall (fun x => zero_or_normal x = true) audio_data ->
  zero_or_normal start = true -> sign32 start = false ->
  let peak := fold_left (fun peak sample => std_max peak (f_abs sample)) audio_data start in
  zero_or_normal peak = true /\ sign32 peak = false /\
  (peak = start \/ exists x, x ∈ audio_data /\ peak = SFabs x) /\
  (B2R start <= B2R peak)%R /\
  Forall (fun x => (Rabs (B2R x) <= B2R peak)%R) audio_data.
Proof.
  intros Hall. revert start.
  induction Hall as [|x l Hx Hall IH]; intros start Hst Hsg; simpl.
  - split; [done|]. split; [done|]. split; [by left|]. split; [lra|constructor].
  - destruct (zero_or_normal_abs x Hx) as [Hax Hsx].
    pose proof (SFltb_nonneg start (SFabs x) Hst Hax Hsg Hsx) as Hlt.
    replace (std_max start (SFabs x))
      with (if SFltb start (SFabs x) then SFabs x else start) by done.
    destruct (SFltb start (SFabs x)) eqn:Hc.
    + destruct (IH (SFabs x) Hax Hsx) as (Hz & Hs & Hor & Hle & Hfa).
      simpl in Hz, Hs, Hor, Hle, Hfa.
      assert (Hsx' : (B2R start < B2R (SFabs x))%R) by (by apply Hlt).
      split; [done|]. split; [done|]. split.
      { right. destruct Hor as [->|(y & Hy & ->)]; [exists x; by split; [left|]|].
        exists y. by split; [right|]. }
      split; [lra|]. constructor; [|done]. by rewrite <- B2R_abs.
    + destruct (IH start Hst Hsg) as (Hz & Hs & Hor & Hle & Hfa).
      simpl in Hz, Hs, Hor, Hle, Hfa.
      assert (Hsx' : (B2R (SFabs x) <= B2R start)%R).
      { apply Rnot_lt_le. intros Hn. apply Hlt in Hn. congruence. }
      split; [done|]. split; [done|]. split.
      { destruct Hor as [->|(y & Hy & ->)]; [by left|].
        right. exists y. by split; [right|]. }
      split; [done|]. constructor; [|done]. rewrite <- B2R_abs. lra.
Qed.

Lemma peak_magnitude_spec (audio_data : list binary32) :
  Forall (fun x => zero_or_normal x = true) audio_data ->
  zero_or_normal (peak_magnitude audio_data) = true /\
  sign32 (peak_magnitude audio_data) = false /\
  (peak_magnitude audio_data = S754_zero false \/
   exists x, x ∈ audio_data /\ peak_magnitude audio_data = SFabs x) /\
  Forall (fun x => (Rabs (B2R x) <= B2R (peak_magnitude audio_data))%R) audio_data.
Proof.
  intros Hall.
  destruct (peak_scan_spec audio_data (S754_zero false) Hall eq_refl eq_refl)
    as (Hz & Hs & Hor & _ & Hfa).
  done.
Qed.

(** A peak that is not [0.0f] is the magnitude of a normal sample. *)
Lemma peak_magnitude_nonzero (audio_data : list binary32) :
  Forall (fun x => zero_or_normal x = true) audio_data ->
  SFeqb (peak_magnitude audio_data) (S754_zero false) = false ->
  exists x, x ∈ audio_data /\ normal32 x = true /\
    peak_magnitude audio_data = SFabs x.
Proof.
  intros Hall Hne.
  destruct (peak_magnitude_spec audio_data Hall) as (Hz & Hs & Hor & _).
  destruct Hor as [Heq|(x & Hx & Heq)]; [by rewrite Heq in Hne|].
  exists x. split; [done|]. split; [|done].
  rewrite Forall_forall in Hall. pose proof (Hall x Hx) as Hzx.
  rewrite Heq in Hne. destruct x as [s|s| |s m e]; try done.
Qed.

End Order32.

(** *** The peak after normalisation, in [float] arithmetic *)

Section Normalize32.
Local Open Scope Z_scope.

Lemma u32_value : u32 = (/ 16777216)%R.
Proof. unfold u32, pow2. simpl. lra. Qed.

Lemma rel_close_abs (u y x : R) :
  rel_close u y x ->
  (Rabs x - u * Rabs x <= Rabs y <= Rabs x + u * Rabs x)%R.
Proof.
  unfold rel_close. intros H.
  pose proof (Rabs_triang_inv y x). pose proof (Rabs_triang_inv x y).
  rewrite (Rabs_minus_sym x y) in *. lra.
Qed.

Lemma SFmul_sample (s f : binary32) :
  zero_or_normal s = true -> normal32 f = true ->
  (normal32 s = true -> -172 <= exponent32 s + exponent32 f <= 79) ->
  zero_or_normal (SFmul prec32 emax32 s f) = true /\
  (normal32 s = true ->
   normal32 (SFmul prec32 emax32 s f) = true /\
   exponent32 s + exponent32 f + 23
     <= exponent32 (SFmul prec32 emax32 s f) <= exponent32 s + exponent32 f + 25) /\
  rel_close u32 (B2R (SFmul prec32 emax32 s f)) (B2R s * B2R f).
Proof.
  intros Hs Hf He.
  destruct (normal32 s) eqn:Hn.
  - destruct (SFmul_normal s f Hn Hf (He eq_refl)) as (H1 & _ & H3 & H4).
    unfold zero_or_normal. rewrite H1, orb_true_r. done.
  - unfold zero_or_normal in Hs. rewrite Hn, orb_false_r in Hs.
    destruct s as [sx| | |]; try done.
    destruct f as [| | |sf mf ef]; try done.
    split; [done|]. split; [done|].
    unfold rel_close. simpl. rewrite Rmult_0_l, Rminus_0_r, Rabs_R0. lra.
Qed.

(** The factor [target / peak] of a buffer whose peak is not zero. *)
Lemma normalization_factor_spec (audio_data : list binary32) (target_peak : binary32) :
  Forall (fun x => zero_or_normal x = true) audio_data ->
  normal32 target_peak = true ->
  SFeqb (peak_magnitude audio_data) (S754_zero false) = false ->
  -125 <= exponent32 target_peak - exponent32 (peak_magnitude audio_data) <= 126 ->
  let peak := peak_magnitude audio_data in
  let factor := SFdiv prec32 emax32 target_peak peak in
  normal32 peak = true /\ (0 < B2R peak)%R /\
  (exists x, x ∈ audio_data /\ normal32 x = true /\
             Rabs (B2R x) = B2R peak /\ exponent32 x = exponent32 peak) /\
  normal32 factor = true /\
  exponent32 target_peak - exponent32 peak - 24
    <= exponent32 factor <= exponent32 target_peak - exponent32 peak - 22 /\
  sign32 factor = sign32 target_peak /\
  rel_close u32 (B2R factor) (B2R target_peak / B2R peak).
Proof.
  intros Hall HT Hne He peak factor.
  destruct (peak_magnitude_nonzero audio_data Hall Hne) as (x & Hx & Hnx & Hpx).
  destruct (normal32_abs x Hnx) as [Hna Hea].
  assert (Hp : normal32 peak = true) by (unfold peak; by rewrite Hpx).
  destruct (SFdiv_normal target_peak peak HT Hp He) as (H1 & H2 & H3 & H4).
  assert (Hpos : (0 < B2R peak)%R).
  { unfold peak. rewrite Hpx, B2R_abs. by apply B2R_normal_pos. }
  split; [done|]. split; [done|]. split.
  { exists x. split; [done|]. split; [done|]. unfold peak. rewrite Hpx.
    split; [by rewrite B2R_abs|done]. }
  split; [done|]. split; [done|]. split; [|done].
  fold factor in H2. rewrite H2. unfold peak. rewrite Hpx.
  destruct x; simpl; try done. apply xorb_false_r.
Qed.

(** The real-number core of the bound: a scan of products [s * f], each
    rounded once, where [f] is the rounded quotient [t / p] and [p] the
    largest [|s|]. *)
Lemma product_upper (u t p s f y : R) :
  (0 <= u)%R -> (0 < p)%R -> (0 <= t)%R ->
  (Rabs f <= t / p + u * (t / p))%R ->
  (Rabs s <= p)%R ->
  (Rabs y <= Rabs (s * f) + u * Rabs (s * f))%R ->
  (Rabs y <= (1 + u) * (1 + u) * t)%R.
Proof.
  intros Hu Hp Ht Hf Hs Hy.
  assert (Hq : (0 <= t / p)%R).
  { apply Rmult_le_pos; [done|]. apply Rlt_le, Rinv_0_lt_compat. done. }
  assert (Hpq : (p * (t / p) = t)%R) by (field; lra).
  rewrite Rabs_mult in Hy.
  assert (Hsf : (Rabs s * Rabs f <= p * ((1 + u) * (t / p)))%R).
  { apply Rmult_le_compat; try apply Rabs_pos; [done|lra]. }
  replace (p * ((1 + u) * (t / p)))%R with ((1 + u) * (p * (t / p)))%R in Hsf by ring.
  rewrite Hpq in Hsf.
  assert (0 <= Rabs s * Rabs f)%R.
  { apply Rmult_le_pos; apply Rabs_pos. }
  nra.
Qed.

Lemma product_lower (u t p s f y : R) :
  (0 <= u <= 1)%R -> (0 < p)%R -> (0 <= t)%R ->
  (t / p - u * (t / p) <= Rabs f)%R ->
  Rabs s = p ->
  (Rabs (s * f) - u * Rabs (s * f) <= Rabs y)%R ->
  ((1 - u) * (1 - u) * t <= Rabs y)%R.
Proof.
  intros Hu Hp Ht Hf Hs Hy.
  assert (Hq : (0 <= t / p)%R).
  { apply Rmult_le_pos; [done|]. apply Rlt_le, Rinv_0_lt_compat. done. }
  assert (Hpq : (p * (t / p) = t)%R) by (field; lra).
  rewrite Rabs_mult, Hs in Hy.
  assert (Hsf : (p * ((1 - u) * (t / p)) <= p * Rabs f)%R).
  { apply Rmult_le_compat_l; lra. }
  replace (p * ((1 - u) * (t / p)))%R with ((1 - u) * (p * (t / p)))%R in Hsf by ring.
  rewrite Hpq in Hsf.
  nra.
Qed.

(** The general statement: the samples are zeros or normal numbers, the
    target is a normal number, and the exponents leave room for the
    quotient and for every product. *)
Lemma normalizePeak_float_peak (audio_data : list binary32) (target_peak : binary32) :
  Forall (fun x => zero_or_normal x = true) audio_data ->
  normal32 target_peak = true ->
  SFeqb (peak_magnitude audio_data) (S754_zero false) = false ->
  -125 <= exponent32 target_peak - exponent32 (peak_magnitude audio_data) <= 126 ->
  Forall (fun s => normal32 s = true ->
            -148 <= exponent32 s + exponent32 target_peak
                    - exponent32 (peak_magnitude audio_data) <= 101) audio_data ->
  let factor := SFdiv prec32 emax32 target_peak (peak_magnitude audio_data) in
  let out : list binary32 :=
    map (fun sample => SFmul prec32 emax32 sample factor) audio_data in
  Forall (fun x => zero_or_normal x = true) out /\
  normal32 (peak_magnitude out) = true /\
  rel_close (pow2 (-22)) (B2R (peak_magnitude out)) (Rabs (B2R target_peak)).
Proof.
  intros Hall HT Hne He Hrange factor out.
  destruct (normalization_factor_spec audio_data target_peak Hall HT Hne He)
    as (Hp & Hppos & (x0 & Hx0 & Hnx0 & Hax0 & Hex0) & Hf & Hef & _ & Hfrel).
  fold factor in Hf, Hef, Hfrel.
  destruct (peak_magnitude_spec audio_data Hall) as (_ & _ & _ & Hle).
  rewrite Forall_forall in Hle.
  set (peak := peak_magnitude audio_data) in *.
  set (t := Rabs (B2R target_peak)).
  assert (Ht : (0 < t)%R) by (by apply B2R_normal_pos).
  (* the magnitude of the factor *)
  apply rel_close_abs in Hfrel.
  assert (Hquot : Rabs (B2R target_peak / B2R peak) = (t / B2R peak)%R).
  { unfold Rdiv. rewrite Rabs_mult, Rabs_inv, (Rabs_right (B2R peak)) by lra. done. }
  rewrite Hquot in Hfrel.
  (* every product *)
  assert (Hprod : forall s, s ∈ audio_data ->
            zero_or_normal (SFmul prec32 emax32 s factor) = true /\
            (normal32 s = true -> normal32 (SFmul prec32 emax32 s factor) = true) /\
            rel_close u32 (B2R (SFmul prec32 emax32 s factor)) (B2R s * B2R factor)).
  { intros s Hs. rewrite Forall_forall in Hall, Hrange.
    destruct (SFmul_sample s factor (Hall s Hs) Hf) as (H1 & H2 & H3).
    { intros Hn. pose proof (Hrange s Hs Hn). lia. }
    split; [done|]. split; [|done]. intros Hn. by apply H2. }
  assert (Hout : Forall (fun x => zero_or_normal x = true) out).
  { unfold out. rewrite Forall_fmap. rewrite Forall_forall. intros s Hs.
    by apply Hprod. }
  destruct (peak_magnitude_spec out Hout) as (Hz & Hsg & Hor & Hfa).
  pose proof u32_value as Hu.
  (* the image of the largest sample is in the new buffer *)
  destruct (Hprod x0 Hx0) as (_ & Hn0 & Hrel0).
  specialize (Hn0 Hnx0). apply rel_close_abs in Hrel0.
  assert (Hlow : ((1 - u32) * (1 - u32) * t <= Rabs (B2R (SFmul prec32 emax32 x0 factor)))%R).
  { apply (product_lower u32 t (B2R peak) (B2R x0) (B2R factor)); try lra. }
  assert (Hin0 : SFmul prec32 emax32 x0 factor ∈ out).
  { unfold out. apply list_elem_of_fmap. by exists x0. }
  rewrite Forall_forall in Hfa. pose proof (Hfa _ Hin0) as Hge.
  pose proof (Rlt_le_trans _ _ _ (B2R_normal_pos _ Hn0) Hge) as Hpk.
  destruct Hor as [Hzero|(y & Hy & Hpy)].
  { rewrite Hzero in Hpk. simpl in Hpk. lra. }
  unfold out in Hy. apply list_elem_of_fmap in Hy as (s & -> & Hs).
  destruct (Hprod s Hs) as (Hzs & Hns & Hrels). apply rel_close_abs in Hrels.
  assert (Hup : (Rabs (B2R (SFmul prec32 emax32 s factor)) <= (1 + u32) * (1 + u32) * t)%R).
  { apply (product_upper u32 t (B2R peak) (B2R s) (B2R factor)); try lra.
    by apply Hle. }
  split; [done|]. split.
  { rewrite Hpy. rewrite Hpy, B2R_abs in Hpk.
    unfold zero_or_normal in Hzs.
    destruct (SFmul prec32 emax32 s factor) as [sz| | |sz mz ez]; try done.
    simpl in Hpk. rewrite Rabs_R0 in Hpk. lra. }
  unfold rel_close. fold t. rewrite (Rabs_right t) by lra.
  rewrite Hpy, B2R_abs in *.
  assert (Hp22 : pow2 (-22) = (/ 4194304)%R) by (unfold pow2; simpl; lra).
  rewrite Hp22. rewrite Hu in *.
  apply Rabs_le. lra.
Qed.

End Normalize32.

(** *** Buffers of moderate size *)

Section Moderate32.
Local Open Scope Z_scope.

Lemma moderate32_inv (x : binary32) :
  moderate32 x = true -> normal32 x = true /\ -63 <= exponent32 x <= 16.
Proof.
  unfold moderate32. rewrite !andb_true_iff, !Z.leb_le. intros [[H1 H2] H3].
  split; [done|lia].
Qed.

Lemma sample_in_range_inv (x : binary32) :
  sample_in_range x = true ->
  zero_or_normal x = true /\ (normal32 x = true -> -63 <= exponent32 x <= 16).
Proof.
  unfold sample_in_range, zero_or_normal. intros H.
  apply orb_true_iff in H as [H|H].
  - rewrite H. split; [done|]. by destruct x.
  - apply moderate32_inv in H as [H1 H2]. rewrite H1, orb_true_r. done.
Qed.

Lemma B2R_abs_finite (s : bool) (m : positive) (e : Z) :
  Rabs (B2R (S754_finite s m e)) = (IZR (Z.pos m) * pow2 e)%R.
Proof.
  rewrite <- B2R_abs. simpl. lra.
Qed.

(** The sizes of the moderate floats. *)
Lemma moderate32_magnitude (x : binary32) :
  moderate32 x = true -> (pow2 (-40) <= Rabs (B2R x) < pow2 40)%R.
Proof.
  intros H. apply moderate32_inv in H as [Hn He].
  apply normal32_inv in Hn as (s & m & e & -> & Hm & _). simpl in He.
  rewrite B2R_abs_finite.
  pose proof (pow2_pos e) as Hp.
  assert (H1 : (8388608 <= IZR (Z.pos m))%R) by (apply IZR_le; lia).
  assert (H2 : (IZR (Z.pos m) < 16777216)%R) by (apply IZR_lt; lia).
  pose proof (pow2_le (-63) e ltac:(lia)) as Hlo.
  pose proof (pow2_le e 16 ltac:(lia)) as Hhi.
  assert (E1 : pow2 (-40) = (8388608 * pow2 (-63))%R) by (unfold pow2; simpl; lra).
  assert (E2 : pow2 40 = (16777216 * pow2 16)%R) by (unfold pow2; simpl; lra).
  rewrite E1, E2. pose proof (pow2_pos (-63)). split; nra.
Qed.




(** The new peak in [float] arithmetic: for samples and a target of
    moderate size it is the magnitude of the target within four times the
    unit roundoff. *)
Lemma normalizePeak_float_reaches_target
  (audio_data : list binary32) (target_peak : binary32) :
  Forall (fun x => sample_in_range x = true) audio_data ->
  moderate32 target_peak = true ->
  SFeqb (peak_magnitude audio_data) (S754_zero false) = false ->
  let factor := SFdiv prec32 emax32 target_peak (peak_magnitude audio_data) in
  let out : list binary32 :=
    map (fun sample => SFmul prec32 emax32 sample factor) audio_data in
  -63 <= exponent32 (peak_magnitude audio_data) <= 16 /\
  Forall (fun x => zero_or_normal x = true) out /\
  normal32 (peak_magnitude out) = true /\
  rel_close peak_tolerance (B2R (peak_magnitude out)) (Rabs (B2R target_peak)).
Proof.
  intros Hall HT Hne factor out.
  apply moderate32_inv in HT as [HT HeT].
  assert (Hzn : Forall (fun x => zero_or_normal x = true) audio_data).
  { eapply Forall_impl; [exact Hall|]. intros x Hx. by apply sample_in_range_inv. }
  destruct (peak_magnitude_nonzero audio_data Hzn Hne) as (x0 & Hx0 & Hnx0 & Hpx0).
  rewrite Forall_forall in Hall.
  assert (Hep : -63 <= exponent32 (peak_magnitude audio_data) <= 16).
  { rewrite Hpx0. destruct (normal32_abs x0 Hnx0) as [_ ->].
    by apply sample_in_range_inv; [apply Hall|]. }
  split; [done|].
  apply normalizePeak_float_peak; try done; [lia|].
  rewrite Forall_forall. intros s Hs Hn.
  destruct (sample_in_range_inv s (Hall s Hs)) as [_ Hes]. specialize (Hes Hn). lia.
Qed.

End Moderate32.

(** *** Normalising twice, in [float] arithmetic *)

Section Twice32.
Local Open Scope Z_scope.

Lemma moderate32_intro (x : binary32) :
  normal32 x = true -> (pow2 (-40) <= Rabs (B2R x) < pow2 40)%R ->
  moderate32 x = true.
Proof.
  intros Hn Hx. unfold moderate32. rewrite Hn. simpl.
  apply normal32_inv in Hn as (s & m & e & -> & Hm & _).
  rewrite B2R_abs_finite in Hx. simpl.
  pose proof (pow2_pos e) as Hp.
  assert (H1 : (8388608 <= IZR (Z.pos m))%R) by (apply IZR_le; lia).
  assert (H2 : (IZR (Z.pos m) < 16777216)%R) by (apply IZR_lt; lia).
  assert (E1 : pow2 (-40) = (16777216 * pow2 (-64))%R) by (unfold pow2; simpl; lra).
  assert (E2 : pow2 40 = (8388608 * pow2 17)%R) by (unfold pow2; simpl; lra).
  rewrite E1, E2 in Hx.
  apply andb_true_iff. split.
  - apply Z.leb_le. destruct (Z_le_gt_dec (-63) e) as [|Hgt]; [done|].
    pose proof (pow2_le e (-64) ltac:(lia)). nra.
  - apply Z.leb_le. destruct (Z_le_gt_dec e 16) as [|Hgt]; [done|].
    pose proof (pow2_le 17 e ltac:(lia)). pose proof (pow2_pos 17). nra.
Qed.


Lemma Rabs_le_bounds (a b : R) : (Rabs a <= b)%R -> (- b <= a <= b)%R.
Proof. unfold Rabs. destruct (Rcase_abs a); lra. Qed.



End Twice32.

(** ** 12. The signal processor: the properties of the specification *)

(** When the peak is not zero, every sample is multiplied by the quotient
    of the target and the peak, in any arithmetic. *)
Lemma normalizePeak_scaled {F : Type} {ops : FloatOps F}
  (audio_data : list F) (target_peak : F) :
  f_eq (peak_magnitude audio_data) f_zero = false ->
  audio_data <> [] ->
  normalizePeak audio_data target_peak
  = (map (fun sample =>
            f_mul sample (f_div target_peak (peak_magnitude audio_data))) audio_data,
     [Value "Original peak magnitude: " (peak_magnitude audio_data);
      Value "Normalization factor: " (f_div target_peak (peak_magnitude audio_data));
      Value "Peak normalized to " target_peak]).
Proof.
  intros Hpeak Hne. unfold normalizePeak.
  destruct audio_data as [|x l]; [done|]. by rewrite Hpeak.
Qed.

(** The scan of a silent buffer stays at [+0.0f], whatever the division. *)
Lemma peak_magnitude_silence div (audio_data : list binary32) :
  Forall (fun x => is_zero32 x = true) audio_data ->
  @peak_magnitude _ (binary32_ops_with div) audio_data = S754_zero false.
Proof.
  unfold peak_magnitude. simpl.
  induction 1 as [|x l Hx _ IH]; simpl; [done|].
  destruct x as [s| | |]; try done.
Qed.

(** In [float], when the peak is not [0.0f]. *)
Lemma normalizePeak_float_scaled (audio_data : list binary32) (target_peak : binary32) :
  SFeqb (peak_magnitude audio_data) (S754_zero false) = false ->
  fst (normalizePeak audio_data target_peak)
  = map (fun sample =>
           SFmul prec32 emax32 sample
             (SFdiv prec32 emax32 target_peak (peak_magnitude audio_data)))
        audio_data.
Proof.
  intros Hpeak. destruct audio_data as [|x l]; [done|].
  by rewrite (@normalizePeak_scaled binary32 binary32_ops (x :: l) target_peak Hpeak).
Qed.



(** In [float] the bound also needs the quotient not to overflow: the
    smallest subnormal normalised to 1.0 becomes infinite. *)
Lemma normalizePeak_overflow :
  fst (normalizePeak [S754_finite false 1 (-149)] (ratio32 1 1))
  = [S754_infinity false].
Proof. vm_compute. reflexivity. Qed.

(** The scenario of the specification: peak 0.5 normalised to 0.9 has peak
    0.9 (here exactly). *)
Lemma normalizePeak_scenario :
  peak_magnitude scenario_buffer = ratio32 1 2 /\
  close32 (1 # 1000000)
    (peak_magnitude (fst (normalizePeak scenario_buffer scenario_target)))
    scenario_target = true.
Proof. vm_compute. split; reflexivity. Qed.

(** C5, as amended.  For every buffer that is not empty and holds only
    zeros, and every target, [normalizePeak] leaves the buffer as it is and
    logs the silence warning, a line that is not an error; the result is the
    same for every division, so no division is performed.  For the empty
    buffer the buffer is also left as it is and nothing is divided, but the
    line logged is the error "No audio data loaded". *)
Theorem normalizePeak_silence
  (div : binary32 -> binary32 -> binary32)
  (audio_data : list binary32) (target_peak : binary32) :
  Forall (fun x => is_zero32 x = true) audio_data ->
  @normalizePeak _ (binary32_ops_with div) audio_data target_peak
  = (audio_data,
     [Text (match audio_data with [] => msg_no_data | _ :: _ => msg_silence end)]) /\
  String.prefix "Warning: " msg_silence = true /\
  String.prefix "Error: " msg_no_data = true.
Proof.
  intros Hall. split; [|done].
  unfold normalizePeak. destruct audio_data as [|x l]; [done|].
  by rewrite (peak_magnitude_silence div (x :: l) Hall).
Qed.

(** C5 as stated fails for the empty buffer, which holds only zeros: the
    line logged is an error, not the silence warning. *)
Lemma normalizePeak_empty_is_error :
  Forall (fun x => is_zero32 x = true) [] /\
  snd (normalizePeak ([] : list binary32) scenario_target)
  = [Text "Error: No audio data loaded, cannot normalize."] /\
  snd (normalizePeak ([] : list binary32) scenario_target) <> [Text msg_silence].
Proof. split; [constructor|]. split; [reflexivity|discriminate]. Qed.

(** C8, as amended.  For every buffer that is not empty, [printStats]
    writes five numbers: the minimum (a sample that no sample is smaller
    than), the maximum (a sample that is smaller than no sample), the peak
    [max(|min|, |max|)], the RMS [sqrt(sum of squares / size)], and the
    ratio [peak / rms] when [rms > 0] and 0 otherwise.  On the buffer
    -0.5, 0.25, -1.0, 0.75 these are -1.0, 0.75, 1.0, the float nearest
    to [sqrt(0.46875)], which is 0.6847 to four decimals, and their
    quotient, which is 1.4606 to four decimals. *)
Theorem printStats_statistics (audio_data : list binary32) (title : string) :
  audio_data <> [] ->
  (exists min_val max_val,
     In min_val audio_data /\ (forall x, In x audio_data -> SFltb x min_val = false) /\
     In max_val audio_data /\ (forall x, In x audio_data -> SFltb max_val x = false) /\
     let peak := std_max (SFabs min_val) (SFabs max_val) in
     let rms :=
       SFsqrt prec32 emax32
         (SFdiv prec32 emax32 (sum_squares audio_data)
            (Z_to_binary32 (Z.of_nat (length audio_data)))) in
     logged_values (printStats audio_data title)
     = [min_val; max_val; peak; rms;
        if SFltb (S754_zero false) rms then SFdiv prec32 emax32 peak rms
        else S754_zero false]) /\
  (exists rms ratio,
     logged_values (printStats example_buffer title)
     = [ratio32 (-1) 1; ratio32 3 4; ratio32 1 1; rms; ratio] /\
     rms = SFsqrt prec32 emax32 (ratio32 15 32) /\
     approx4 rms (6847 # 10000) = true /\
     ratio = SFdiv prec32 emax32 (ratio32 1 1) rms /\
     approx4 ratio (14606 # 10000) = true).
Proof.
  intros Hne. split.
  - destruct audio_data as [|first rest]; [done|].
    destruct (@min_element_from_spec binary32 binary32_ops
                SFltb_irrefl SFltb_trans first rest [first])
      as [Hmin1 Hmin2]; [by left| |].
    { intros x [<-|[]]. apply SFltb_irrefl. }
    destruct (@max_element_from_spec binary32 binary32_ops
                SFltb_irrefl SFltb_trans first rest [first])
      as [Hmax1 Hmax2]; [by left| |].
    { intros x [<-|[]]. apply SFltb_irrefl. }
    exists (min_element_from first rest), (max_element_from first rest).
    repeat (split; [done|]). reflexivity.
  - exists (SFsqrt prec32 emax32 (ratio32 15 32)),
      (SFdiv prec32 emax32 (ratio32 1 1) (SFsqrt prec32 emax32 (ratio32 15 32))).
    split; [|split; [done|split; [apply example_rms_digits|split; [done|]]]].
    + rewrite (logged_values_title example_buffer title "").
      apply example_stats_values.
    + apply example_ratio_digits.
Qed.

(** C8 as stated gives 1.4603 for the ratio of the example; the ratio that
    [printStats] writes is not 1.4603 to four decimals. *)
Lemma example_ratio_is_not_14603 :
  exists ratio,
    nth_error (logged_values (printStats example_buffer "")) 4 = Some ratio /\
    approx4 ratio (14603 # 10000) = false.
Proof.
  exists (SFdiv prec32 emax32 (ratio32 1 1) (SFsqrt prec32 emax32 (ratio32 15 32))).
  split; [by rewrite example_stats_values|apply example_ratio_digits].
Qed.



(** In [float], on the scenario of the specification, the second
    normalisation changes nothing at all. *)
Lemma normalizePeak_twice_scenario :
  fst (normalizePeak (fst (normalizePeak scenario_buffer scenario_target)) scenario_target)
  = fst (normalizePeak scenario_buffer scenario_target).
Proof. vm_compute. reflexivity. Qed.

(** ** 13. The directory filter *)

Lemma string_prefix_spec (pat s : string) :
  String.prefix pat s = true <-> exists after, s = (pat ++ after)%string.
Proof.
  revert s. induction pat as [|a pat IH]; intros s.
  - split; [intros _; by exists s|by destruct s].
  - destruct s as [|b s]; simpl.
    + split; [done|intros [after H]; discriminate].
    + destruct (Ascii.ascii_dec a b) as [->|Hne].
      * rewrite IH. split; intros [after H]; exists after; congruence.
      * split; [done|]. intros [after H]. congruence.
Qed.

(** [rfind] finds an occurrence exactly when there is one, wherever it is
    in the string. *)
Lemma rfind_occurs (s pat : string) :
  not_npos (rfind s pat) = true <-> occurs_in pat s.
Proof.
  unfold occurs_in. induction s as [|c s IH].
  - change (rfind "" pat) with (if String.prefix pat "" then Some 0%nat else None).
    destruct (String.prefix pat "") eqn:Hp.
    + split; [|done]. intros _. apply string_prefix_spec in Hp as [after Hp].
      by exists ""%string, after.
    + split; [done|]. intros (before & after & H).
      destruct before; [|discriminate]. simpl in H.
      assert (String.prefix pat "" = true) by (apply string_prefix_spec; eauto).
      congruence.
  - change (rfind (String c s) pat)
      with (match rfind s pat with
            | Some k => Some (S k)
            | None => if String.prefix pat (String c s) then Some 0%nat else None
            end).
    destruct (rfind s pat) as [k|] eqn:Hr.
    + split; [|done]. intros _. destruct IH as [IH _].
      destruct (IH eq_refl) as (before & after & ->).
      by exists (String c before), after.
    + destruct (String.prefix pat (String c s)) eqn:Hp.
      * split; [|done]. intros _. apply string_prefix_spec in Hp as [after Hp].
        exists ""%string, after. done.
      * split; [done|]. intros (before & after & H).
        destruct before as [|b before]; simpl in H.
        -- assert (String.prefix pat (String c s) = true)
             by (apply string_prefix_spec; eauto).
           congruence.
        -- injection H as -> ->. destruct IH as [_ IH].
           discriminate IH. eauto.
Qed.

Lemma ends_with_spec (s suffix : string) :
  ends_with s suffix = true <-> exists before, s = (before ++ suffix)%string.
Proof.
  induction s as [|c s IH].
  - change (ends_with "" suffix) with (String.eqb "" suffix || false).
    rewrite orb_false_r. destruct (String.eqb_spec "" suffix) as [<-|Hne].
    + split; [|done]. by exists ""%string.
    + split; [done|]. intros [before H]. destruct before; simpl in H; congruence.
  - change (ends_with (String c s) suffix)
      with (String.eqb (String c s) suffix || ends_with s suffix).
    rewrite orb_true_iff, IH.
    destruct (String.eqb_spec (String c s) suffix) as [<-|Hne].
    + split; [|auto]. by exists ""%string.
    + split.
      * intros [H|[before ->]]; [done|]. by exists (String c before).
      * intros [before H]. right. destruct before as [|b before]; simpl in H.
        -- congruence.
        -- injection H as -> ->. eauto.
Qed.

(** What the code does: a name passes when its lower-cased form contains
    one of the five extensions anywhere. *)
Lemma isAudioFile_occurs (name : string) :
  isAudioFile name = true <->
  exists ext, In ext audio_extensions /\ occurs_in ext (transform_tolower name).
Proof.
  unfold isAudioFile, audio_extensions. rewrite !orb_true_iff, !rfind_occurs.
  split.
  - intros [[[[H|H]|H]|H]|H]; eexists; (split; [|exact H]); simpl; auto 10.
  - intros (ext & Hin & H). simpl in Hin.
    destruct Hin as [<-|[<-|[<-|[<-|[<-|[]]]]]]; auto 10.
Qed.

(** Every name with an audio extension passes the filter. *)
Lemma has_audio_extension_accepted (name : string) :
  has_audio_extension name = true -> isAudioFile name = true.
Proof.
  unfold has_audio_extension. rewrite existsb_exists. intros (ext & Hin & Hend).
  apply isAudioFile_occurs. exists ext. split; [done|].
  apply ends_with_spec in Hend as [before ->]. exists before, ""%string.
  clear. f_equal. induction ext; simpl; congruence.
Qed.

(** C6: the code against the claim.  The name "notes.wav.txt" has the
    extension ".txt", which is not in the allow-list; [isAudioFile] accepts
    it because ".wav" occurs inside the name, and the enumeration pushes a
    task for the regular file of that name. *)
Theorem isAudioFile_accepts_inner_extension :
  has_audio_extension (d_name inner_extension_entry) = false /\
  isAudioFile (d_name inner_extension_entry) = true /\
  eligible inner_extension_entry = true /\
  enumerate "in" "out" scenario_target [inner_extension_entry]
  = ([make_task "in" "out" scenario_target "notes.wav.txt"], 1%Z).
Proof. vm_compute. repeat split; reflexivity. Qed.

(** The rest of the test of line 341 is as the specification says: the
    entry must be a regular file, and "." and ".." are skipped. *)
Lemma eligible_regular_audio (ent : dirent) :
  eligible ent = true <->
  d_name ent <> "."%string /\ d_name ent <> ".."%string /\
  d_stat ent = Some S_IFREG /\ isAudioFile (d_name ent) = true.
Proof.
  unfold eligible. rewrite andb_true_iff, negb_true_iff, orb_false_iff.
  rewrite !String.eqb_neq.
  destruct (d_stat ent) as [[]|]; intuition congruence.
Qed.

(** ** 14. The end-to-end scenario *)

Lemma demo_startup : startup_main demo_env = StartupPool demo_start.
Proof. vm_compute. reflexivity. Qed.

Lemma demo_entries_fit : entries_fit demo_env.
Proof. intros entries [= <-]. vm_compute. discriminate. Qed.

Lemma demo_batch_start : batch_start demo_tasks demo_start.
Proof. apply (startup_batch_start demo_env); [apply demo_entries_fit|apply demo_startup]. Qed.

Lemma demo_reaches_final : reachable 4 demo_start demo_final.
Proof. exists demo_schedule. vm_compute. reflexivity. Qed.

(** The run of the scenario: [readme.txt] is ignored, [a.wav] is saved with
    peak 0.9, [b.wav] is saved unchanged with the silence warning, [main]
    returns 0 and prints a total of 0. *)
Lemma demo_outcome :
  map filename demo_tasks = ["a.wav"; "b.wav"]%string /\
  main_pc demo_final = MExit 0 /\
  flat_map (fun ev => match ev with
                      | TaskLine t o => [(filename t, o)]
                      | _ => []
                      end) (trace demo_final)
  = [("a.wav", Saved); ("b.wav", Saved)]%string /\
  flat_map (fun ev => match ev with
                      | FileWritten path data => [(path, data)]
                      | _ => []
                      end) (trace demo_final)
  = [("out/normalised_a.wav", [ratio32 9 10; ratio32 (-9) 20; ratio32 9 40]);
     ("out/normalised_b.wav", [S754_zero false; S754_zero true])]%string /\
  Log "in/b.wav" (Text msg_silence) ∈ trace demo_final /\
  reported_totals (trace demo_final) = [0%Z].
Proof.
  split; [vm_compute; reflexivity|]. split; [vm_compute; reflexivity|].
  split; [vm_compute; reflexivity|]. split; [vm_compute; reflexivity|].
  split; [|vm_compute; reflexivity].
  apply list_elem_of_In. vm_compute. tauto.
Qed.

(** ** 15. The statements at the scenario *)

Lemma demo_tasks_nonempty : demo_tasks <> [].
Proof. intros H. vm_compute in H. discriminate. Qed.

Lemma demo_reaches_popped : reachable 4 demo_start demo_popped.
Proof. exists (firstn 9 demo_schedule). vm_compute. reflexivity. Qed.


Lemma drain_wait_returns_after_all_tasks_witness :
  (1 <= 4)%nat /\ batch_start demo_tasks demo_start /\
  reachable 4 demo_start demo_final /\
  Permutation (processed (trace demo_final)) demo_tasks.
Proof.
  assert (Hn : (1 <= 4)%nat) by lia.
  split; [exact Hn|]. split; [exact demo_batch_start|].
  split; [exact demo_reaches_final|].
  destruct (drain_wait_returns_after_all_tasks 4 demo_tasks demo_start demo_final
              Hn demo_batch_start demo_reaches_final) as [H _].
  apply H; [exact demo_tasks_nonempty|vm_compute; reflexivity].
Defined.

Lemma stop_broadcast_ends_every_worker_witness :
  main_pc demo_before_stop = MStop /\ g_task_queue demo_before_stop = [] /\
  length (threads demo_before_stop) = 4%nat /\
  main_step 4 true demo_before_stop = Some demo_after_stop /\
  g_stop_threads demo_after_stop = true /\ (WWait ∉ threads demo_after_stop).
Proof.
  assert (H1 : main_pc demo_before_stop = MStop) by reflexivity.
  assert (H2 : g_task_queue demo_before_stop = []) by reflexivity.
  assert (H3 : length (threads demo_before_stop) = 4%nat) by reflexivity.
  assert (H4 : main_step 4 true demo_before_stop = Some demo_after_stop) by reflexivity.
  repeat (split; [assumption|]).
  destruct (stop_broadcast_ends_every_worker 4 demo_before_stop demo_after_stop true
              H1 H2 H3 H4) as (Hs & Hw & _).
  split; assumption.
Defined.



Lemma normalizePeak_silence_witness :
  Forall (fun x => is_zero32 x = true) silent_buffer /\
  normalizePeak silent_buffer scenario_target
  = (silent_buffer, [Text msg_silence]).
Proof.
  assert (H : Forall (fun x => is_zero32 x = true) silent_buffer)
    by (repeat constructor).
  split; [exact H|].
  apply (normalizePeak_silence (SFdiv prec32 emax32) silent_buffer scenario_target H).
Defined.

Lemma task_failure_is_contained_witness :
  entries_fit demo_env /\ startup_main demo_env = StartupPool demo_start /\
  reachable 4 demo_start demo_popped /\
  threads demo_popped !! 0%nat = Some (WProc demo_task_a) /\
  running demo_popped /\ task_outcome (sndfile failing_answers) <> Saved /\
  exists k s1 s2,
    run 4 (repeat (Worker 0 failing_answers) k) demo_popped = Some s1 /\
    threads s1 !! 0%nat = Some (WDone demo_task_a true) /\
    (exists msg, String.prefix "Error: " msg = true /\
       Log (input_filepath demo_task_a) (Text msg) ∈ trace s1) /\
    TaskLine demo_task_a LoadFailed ∈ trace s1 /\
    worker_step 0 failing_answers s1 = Some s2 /\
    g_active_tasks_count s2 = (g_active_tasks_count demo_popped - 1)%Z.
Proof.
  assert (H1 : threads demo_popped !! 0%nat = Some (WProc demo_task_a))
    by (vm_compute; reflexivity).
  assert (H2 : running demo_popped) by (vm_compute; exact I).
  assert (H3 : task_outcome (sndfile failing_answers) <> Saved) by discriminate.
  split; [exact demo_entries_fit|]. split; [exact demo_startup|].
  split; [exact demo_reaches_popped|].
  split; [exact H1|]. split; [exact H2|]. split; [exact H3|].
  destruct (task_failure_is_contained demo_env 4 demo_start demo_popped
              demo_entries_fit demo_startup demo_reaches_popped) as [H _].
  destruct (H 0%nat demo_task_a failing_answers H1 H2 H3)
    as (k & s1 & s2 & s3 & Ha & Hb & _ & Hlog & Hc & _ & Hd & _ & He & _).
  exists k, s1, s2. repeat (split; [assumption|]). assumption.
Defined.

Lemma printStats_statistics_witness :
  example_buffer <> [] /\
  exists rms ratio,
    logged_values (printStats example_buffer "")
    = [ratio32 (-1) 1; ratio32 3 4; ratio32 1 1; rms; ratio] /\
    rms = SFsqrt prec32 emax32 (ratio32 15 32) /\
    approx4 rms (6847 # 10000) = true /\
    ratio = SFdiv prec32 emax32 (ratio32 1 1) rms /\
    approx4 ratio (14606 # 10000) = true.
Proof.
  assert (H : example_buffer <> []) by discriminate.
  split; [exact H|].
  apply (printStats_statistics example_buffer "" H).
Defined.



(** C7 as stated fails when [pthread_create] fails: the configuration is
    valid and no task has failed, yet [main] returns 1 (line 365). *)
Lemma thread_creation_failure_exits_1 :
  startup_main demo_env = StartupPool demo_start /\
  exists s,
    reachable 4 demo_start s /\ main_pc s = MExit 1 /\
    CerrInt msg_thread 1 ∈ trace s.
Proof.
  split; [exact demo_startup|].
  exists (state_after 4 demo_create_failure demo_start).
  split; [exists demo_create_failure; vm_compute; reflexivity|].
  split; [vm_compute; reflexivity|].
  apply list_elem_of_In. vm_compute. tauto.
Qed.

(** ** 16. The peak scan on any samples *)

(** [std::max] keeps its first argument when the second is a NaN. *)
Lemma std_max_nan (peak x : binary32) :
  is_nan32 x = true -> std_max peak (SFabs x) = peak.
Proof. by destruct x, peak. Qed.

Lemma SFltb_not_nan (a b : binary32) :
  SFltb a b = true -> is_nan32 a = false /\ is_nan32 b = false.
Proof. by destruct a, b. Qed.

Lemma SFabs_sign (x : binary32) : sign32 (SFabs x) = false.
Proof. by destruct x. Qed.

Lemma SFabs_nan (x : binary32) : is_nan32 (SFabs x) = is_nan32 x.
Proof. by destruct x. Qed.

(** The scan from any starting value that is not a NaN: the result is the
    start or the magnitude of a sample, nothing above the result is below
    the start, and no sample is above the result. *)
Lemma peak_scan_any (audio_data : list binary32) (start : binary32) :
  is_nan32 start = false -> sign32 start = false ->
  let peak := fold_left (fun peak sample => std_max peak (f_abs sample)) audio_data start in
  is_nan32 peak = false /\ sign32 peak = false /\
  (peak = start \/ exists x, x ∈ audio_data /\ is_nan32 x = false /\ peak = SFabs x) /\
  (forall z, SFltb peak z = true -> SFltb start z = true) /\
  (forall x, x ∈ audio_data -> SFltb peak (SFabs x) = false).
Proof.
  revert start. induction audio_data as [|x l IH]; intros start Hnan Hsign; simpl.
  - split; [done|]. split; [done|]. split; [by left|]. split; [done|].
    by intros x Hx%elem_of_nil.
  - replace (std_max start (SFabs x))
      with (if SFltb start (SFabs x) then SFabs x else start) by done.
    destruct (SFltb start (SFabs x)) eqn:Hlt.
    + destruct (SFltb_not_nan _ _ Hlt) as [_ Hx]. rewrite SFabs_nan in Hx.
      destruct (IH (SFabs x)) as (H1 & H2 & H3 & H4 & H5);
        [by rewrite SFabs_nan|apply SFabs_sign|].
      simpl in H1, H2, H3, H4, H5.
      split; [done|]. split; [done|]. split; [|split].
      * right. destruct H3 as [->|(y & Hy & Hny & ->)].
        -- exists x. split; [by left|done].
        -- exists y. split; [by right|done].
      * intros z Hz. eapply SFltb_trans; [exact Hlt|by apply H4].
      * intros y [->|Hy]%elem_of_cons; [|by apply H5].
        match goal with |- ?c = false => destruct c eqn:Hc; [|done] end.
        apply H4 in Hc. by rewrite SFltb_irrefl in Hc.
    + destruct (IH start Hnan Hsign) as (H1 & H2 & H3 & H4 & H5).
      simpl in H1, H2, H3, H4, H5.
      split; [done|]. split; [done|]. split; [|split; [done|]].
      * destruct H3 as [->|(y & Hy & Hny & ->)]; [by left|].
        right. exists y. split; [by right|done].
      * intros y [->|Hy]%elem_of_cons; [|by apply H5].
        match goal with |- ?c = false => destruct c eqn:Hc; [|done] end.
        apply H4 in Hc. congruence.
Qed.

Lemma peak_scan_without_nan (audio_data : list binary32) (start : binary32) :
  fold_left (fun peak sample => std_max peak (f_abs sample)) (without_nan audio_data) start
  = fold_left (fun peak sample => std_max peak (f_abs sample)) audio_data start.
Proof.
  revert start. induction audio_data as [|x l IH]; intros start; [done|].
  unfold without_nan. rewrite filter_cons. fold (without_nan l).
  destruct (decide (is_nan32 x = false)) as [Hx|Hx].
  - simpl. apply IH.
  - simpl. rewrite IH. f_equal. symmetry. apply std_max_nan. by destruct (is_nan32 x).
Qed.

(** X1.  The peak scan of [normalizePeak] ignores NaN samples: its result
    is the same as on the buffer without them.  For every buffer of
    floats, whatever they are, the result is not a NaN and not negative, it
    is [+0.0f] or the magnitude of a sample that is not a NaN, and no
    sample's magnitude is above it. *)
Theorem peak_scan_skips_nan (audio_data : list binary32) :
  peak_magnitude audio_data = peak_magnitude (without_nan audio_data) /\
  is_nan32 (peak_magnitude audio_data) = false /\
  sign32 (peak_magnitude audio_data) = false /\
  (peak_magnitude audio_data = S754_zero false \/
   exists x, x ∈ audio_data /\ is_nan32 x = false /\
             peak_magnitude audio_data = SFabs x) /\
  (forall x, x ∈ audio_data ->
     SFltb (peak_magnitude audio_data) (SFabs x) = false).
Proof.
  split.
  - unfold peak_magnitude. symmetry. apply peak_scan_without_nan.
  - destruct (peak_scan_any audio_data (S754_zero false) eq_refl eq_refl)
      as (H1 & H2 & H3 & _ & H5).
    done.
Qed.

(** The scan of a buffer of NaN and zeros stays at [+0.0f]. *)
Lemma peak_magnitude_nan_silence div (audio_data : list binary32) :
  Forall (fun x => is_nan32 x || is_zero32 x = true) audio_data ->
  @peak_magnitude _ (binary32_ops_with div) audio_data = S754_zero false.
Proof.
  unfold peak_magnitude. simpl.
  induction 1 as [|x l Hx _ IH]; simpl; [done|].
  destruct x as [s|s| |s m e]; try done.
Qed.

(** X2.  A buffer that is not empty and holds only NaN and zero samples is
    taken for silence: [normalizePeak] leaves it as it is and logs the
    silence warning, whatever the target and whatever the division would
    give. *)
Theorem normalizePeak_nan_is_silence
  (div : binary32 -> binary32 -> binary32)
  (audio_data : list binary32) (target_peak : binary32) :
  audio_data <> [] ->
  Forall (fun x => is_nan32 x || is_zero32 x = true) audio_data ->
  @normalizePeak _ (binary32_ops_with div) audio_data target_peak
  = (audio_data, [Text msg_silence]).
Proof.
  intros Hne Hall. unfold normalizePeak.
  destruct audio_data as [|x l]; [done|].
  by rewrite (peak_magnitude_nan_silence div (x :: l) Hall).
Qed.

Lemma normalizePeak_nan_is_silence_witness :
  nan_buffer <> [] /\
  Forall (fun x => is_nan32 x || is_zero32 x = true) nan_buffer /\
  normalizePeak nan_buffer scenario_target = (nan_buffer, [Text msg_silence]).
Proof.
  assert (Hne : nan_buffer <> []) by discriminate.
  assert (Hall : Forall (fun x => is_nan32 x || is_zero32 x = true) nan_buffer)
    by (repeat constructor).
  split; [exact Hne|]. split; [exact Hall|].
  exact (normalizePeak_nan_is_silence (SFdiv prec32 emax32) nan_buffer scenario_target
           Hne Hall).
Defined.

(** ** 17. The samples after a normalisation *)

Section Polarity32.
Local Open Scope Z_scope.

(** One product of the scaling loop, for a sample that is zero or of
    moderate size and a normal factor. *)
Lemma SFmul_sample_sign (s f : binary32) :
  zero_or_normal s = true -> normal32 f = true ->
  (normal32 s = true -> -172 <= exponent32 s + exponent32 f <= 79) ->
  sign32 (SFmul prec32 emax32 s f) = xorb (sign32 s) (sign32 f) /\
  is_zero32 (SFmul prec32 emax32 s f) = is_zero32 s /\
  zero_or_normal (SFmul prec32 emax32 s f) = true.
Proof.
  intros Hs Hf He.
  destruct (normal32 s) eqn:Hn.
  - destruct (SFmul_normal s f Hn Hf (He eq_refl)) as (H1 & H2 & _ & _).
    split; [done|]. split.
    + destruct s as [| | |ss ms es]; try done.
      destruct (SFmul prec32 emax32 (S754_finite ss ms es) f); done.
    + unfold zero_or_normal. rewrite H1. apply orb_true_r.
  - unfold zero_or_normal in Hs. rewrite Hn, orb_false_r in Hs.
    destruct s as [sx| | |]; try done.
    destruct f as [| | |sf mf ef]; done.
Qed.

(** X3.  For samples and a target of moderate size and a peak that is not
    zero, [normalizePeak] gives every sample the sign of the sample times
    the sign of the target (so a positive target keeps every sign, signed
    zeros included, and a negative target flips them all); a zero stays a
    zero and no other sample becomes zero or leaves the normal numbers. *)
Theorem normalizePeak_keeps_polarity
  (audio_data : list binary32) (target_peak : binary32) :
  Forall (fun x => sample_in_range x = true) audio_data ->
  moderate32 target_peak = true ->
  SFeqb (peak_magnitude audio_data) (S754_zero false) = false ->
  Forall2 (fun x y =>
             sign32 y = xorb (sign32 x) (sign32 target_peak) /\
             is_zero32 y = is_zero32 x /\ zero_or_normal y = true)
    audio_data (fst (normalizePeak audio_data target_peak)).
Proof.
  intros Hall HT Hpeak.
  rewrite (normalizePeak_float_scaled audio_data target_peak Hpeak).
  destruct (normalizePeak_float_reaches_target audio_data target_peak Hall HT Hpeak)
    as (Hep & _).
  apply moderate32_inv in HT as [HnT HeT].
  assert (Hzn : Forall (fun x => zero_or_normal x = true) audio_data).
  { eapply Forall_impl; [exact Hall|]. intros x Hx. by apply sample_in_range_inv. }
  destruct (normalization_factor_spec audio_data target_peak Hzn HnT Hpeak ltac:(lia))
    as (_ & _ & _ & Hf & Hef & Hsf & _).
  apply Forall2_fmap_r, Forall_Forall2_diag.
  rewrite Forall_forall in Hall. rewrite Forall_forall. intros s Hs.
  destruct (sample_in_range_inv s (Hall s Hs)) as [Hzs Hes].
  rewrite <- Hsf. apply SFmul_sample_sign; try done.
  intros Hn. specialize (Hes Hn). lia.
Qed.

Lemma normalizePeak_keeps_polarity_witness :
  Forall (fun x => sample_in_range x = true) scenario_buffer /\
  moderate32 negative_target = true /\
  SFeqb (peak_magnitude scenario_buffer) (S754_zero false) = false /\
  Forall2 (fun x y =>
             sign32 y = xorb (sign32 x) (sign32 negative_target) /\
             is_zero32 y = is_zero32 x /\ zero_or_normal y = true)
    scenario_buffer (fst (normalizePeak scenario_buffer negative_target)).
Proof.
  assert (Hall : Forall (fun x => sample_in_range x = true) scenario_buffer)
    by (repeat constructor).
  assert (HT : moderate32 negative_target = true) by (vm_compute; reflexivity).
  assert (Hp : SFeqb (peak_magnitude scenario_buffer) (S754_zero false) = false)
    by (vm_compute; reflexivity).
  split; [exact Hall|]. split; [exact HT|]. split; [exact Hp|].
  exact (normalizePeak_keeps_polarity scenario_buffer negative_target Hall HT Hp).
Defined.

(** X4.  For samples and a target of moderate size and a peak that is not
    zero, no sample of the normalised buffer exceeds the magnitude of the
    target by more than the relative error [2^-22]. *)
Theorem normalizePeak_no_overshoot
  (audio_data : list binary32) (target_peak : binary32) :
  Forall (fun x => sample_in_range x = true) audio_data ->
  moderate32 target_peak = true ->
  SFeqb (peak_magnitude audio_data) (S754_zero false) = false ->
  Forall (fun y => (Rabs (B2R y) <= (1 + peak_tolerance) * Rabs (B2R target_peak))%R)
    (fst (normalizePeak audio_data target_peak)).
Proof.
  intros Hall HT Hpeak.
  rewrite (normalizePeak_float_scaled audio_data target_peak Hpeak).
  destruct (normalizePeak_float_reaches_target audio_data target_peak Hall HT Hpeak)
    as (_ & Hout & _ & Hrel).
  destruct (peak_magnitude_spec _ Hout) as (_ & _ & _ & Hle).
  unfold rel_close in Hrel. rewrite Rabs_Rabsolu in Hrel.
  apply Rabs_le_bounds in Hrel.
  eapply Forall_impl; [exact Hle|]. intros y Hy. simpl in Hy. lra.
Qed.

Lemma normalizePeak_no_overshoot_witness :
  Forall (fun x => sample_in_range x = true) scenario_buffer /\
  moderate32 scenario_target = true /\
  SFeqb (peak_magnitude scenario_buffer) (S754_zero false) = false /\
  Forall (fun y => (Rabs (B2R y) <= (1 + peak_tolerance) * Rabs (B2R scenario_target))%R)
    (fst (normalizePeak scenario_buffer scenario_target)).
Proof.
  assert (Hall : Forall (fun x => sample_in_range x = true) scenario_buffer)
    by (repeat constructor).
  assert (HT : moderate32 scenario_target = true) by (vm_compute; reflexivity).
  assert (Hp : SFeqb (peak_magnitude scenario_buffer) (S754_zero false) = false)
    by (vm_compute; reflexivity).
  split; [exact Hall|]. split; [exact HT|]. split; [exact Hp|].
  exact (normalizePeak_no_overshoot scenario_buffer scenario_target Hall HT Hp).
Defined.

End Polarity32.

(** ** 18. The order of the finite floats *)

Section FiniteOrder.
Local Open Scope Z_scope.

Lemma finite32_inv (x : binary32) :
  finite32 x = true ->
  is_zero32 x = true \/
  exists s m e, x = S754_finite s m e /\
    Z.pos m < 16777216 /\ -149 <= e <= 104 /\ (8388608 <= Z.pos m \/ e = -149).
Proof.
  destruct x as [s| | |s m e]; try done; [by left|]. simpl.
  rewrite !andb_true_iff, orb_true_iff, !Z.leb_le, Z.ltb_lt, Z.eqb_eq.
  intros H. right. exists s, m, e. split; [done|]. lia.
Qed.

Lemma finite32_abs (x : binary32) : finite32 x = true -> finite32 (SFabs x) = true.
Proof. destruct x as [s|s| |s m e]; simpl; intros H; exact H. Qed.

Lemma zero_or_normal_finite (x : binary32) :
  zero_or_normal x = true -> finite32 x = true.
Proof.
  destruct x as [s|s| |s m e]; unfold zero_or_normal; simpl;
    try (intros H; exact H).
  rewrite !andb_true_iff, orb_true_iff, !Z.leb_le, !Z.ltb_lt. lia.
Qed.

(** Between finite floats the larger exponent wins: the float of the
    larger exponent is a normal number. *)
Lemma finite_exponent_lt (m1 m2 : positive) (e1 e2 : Z) :
  Z.pos m1 < 16777216 -> 8388608 <= Z.pos m2 -> e1 < e2 ->
  (IZR (Z.pos m1) * pow2 e1 < IZR (Z.pos m2) * pow2 e2)%R.
Proof.
  intros Hm1 Hm2 He.
  pose proof (pow2_pos e1) as Hp1.
  pose proof (pow2_le (e1 + 1) e2 ltac:(lia)) as Hle. rewrite pow2_succ in Hle.
  assert (H1 : (IZR (Z.pos m1) < 16777216)%R) by (apply IZR_lt; lia).
  assert (H2 : (8388608 <= IZR (Z.pos m2))%R) by (apply IZR_le; lia).
  nra.
Qed.

(** The comparison of two magnitudes, as [SFcompare] makes it. *)
Lemma finite_magnitude_compare (m1 m2 : positive) (e1 e2 : Z) :
  Z.pos m1 < 16777216 -> -149 <= e1 -> (8388608 <= Z.pos m1 \/ e1 = -149) ->
  Z.pos m2 < 16777216 -> -149 <= e2 -> (8388608 <= Z.pos m2 \/ e2 = -149) ->
  match (match e1 ?= e2 with
         | Lt => Lt | Gt => Gt | Eq => Pos.compare_cont Eq m1 m2
         end) with
  | Lt => (IZR (Z.pos m1) * pow2 e1 < IZR (Z.pos m2) * pow2 e2)%R
  | Eq => m1 = m2 /\ e1 = e2
  | Gt => (IZR (Z.pos m2) * pow2 e2 < IZR (Z.pos m1) * pow2 e1)%R
  end.
Proof.
  intros Hm1 He1 Hc1 Hm2 He2 Hc2.
  destruct (Z.compare_spec e1 e2) as [->|Hlt|Hgt].
  - pose proof (pow2_pos e2) as Hp.
    change (Pos.compare_cont Eq m1 m2) with (Pos.compare m1 m2).
    destruct (Pos.compare_spec m1 m2) as [->|Hlt|Hgt]; [done| |].
    + apply Rmult_lt_compat_r; [done|]. apply IZR_lt. lia.
    + apply Rmult_lt_compat_r; [done|]. apply IZR_lt. lia.
  - apply finite_exponent_lt; lia.
  - apply finite_exponent_lt; lia.
Qed.

Lemma magnitude_pos (m : positive) (e : Z) : (0 < IZR (Z.pos m) * pow2 e)%R.
Proof. apply Rmult_lt_0_compat; [apply IZR_lt; lia|apply pow2_pos]. Qed.

(** On finite floats [operator<] is the order of the real numbers. *)
Lemma SFltb_B2R (a b : binary32) :
  finite32 a = true -> finite32 b = true ->
  SFltb a b = true <-> (B2R a < B2R b)%R.
Proof.
  intros Ha Hb.
  apply finite32_inv in Ha as [Ha|(sa & ma & ea & -> & Hma & Hea & Hca)];
  apply finite32_inv in Hb as [Hb|(sb & mb & eb & -> & Hmb & Heb & Hcb)].
  - destruct a, b; try done. simpl. split; [done|lra].
  - destruct a; try done. pose proof (magnitude_pos mb eb).
    destruct sb; simpl; split; try done; lra.
  - destruct b; try done. pose proof (magnitude_pos ma ea).
    destruct sa; simpl; split; try done; lra.
  - pose proof (magnitude_pos ma ea). pose proof (magnitude_pos mb eb).
    pose proof (finite_magnitude_compare ma mb ea eb) as Hc.
    unfold SFltb, SFcompare.
    destruct sa, sb; simpl B2R;
      destruct (ea ?= eb); try destruct (Pos.compare_cont Eq ma mb);
      simpl in *; (try destruct Hc as [-> ->]; try lia);
      (split; [try done|try done]); try lra;
      try (intros _; specialize (Hc ltac:(lia) ltac:(lia) ltac:(lia)
                                    ltac:(lia) ltac:(lia) ltac:(lia)); lra);
      try (intros Hlt; specialize (Hc ltac:(lia) ltac:(lia) ltac:(lia)
                                      ltac:(lia) ltac:(lia) ltac:(lia)); lra).
Qed.

(** A finite float that is not negative is determined by its value. *)
Lemma finite32_value_inj (a b : binary32) :
  finite32 a = true -> finite32 b = true ->
  sign32 a = false -> sign32 b = false -> B2R a = B2R b -> a = b.
Proof.
  intros Ha Hb Hsa Hsb Hv.
  apply finite32_inv in Ha as [Ha|(sa & ma & ea & -> & Hma & Hea & Hca)];
  apply finite32_inv in Hb as [Hb|(sb & mb & eb & -> & Hmb & Heb & Hcb)].
  - destruct a, b; try done. simpl in *. congruence.
  - destruct a; try done. pose proof (magnitude_pos mb eb).
    simpl in *. subst. simpl in Hv. lra.
  - destruct b; try done. pose proof (magnitude_pos ma ea).
    simpl in *. subst. simpl in Hv. lra.
  - simpl in Hsa, Hsb. subst sa sb. simpl in Hv.
    pose proof (finite_magnitude_compare ma mb ea eb
                  ltac:(lia) ltac:(lia) ltac:(lia) ltac:(lia) ltac:(lia) ltac:(lia)) as Hc.
    destruct (ea ?= eb); try destruct (Pos.compare_cont Eq ma mb);
      try lra. by destruct Hc as [-> ->].
Qed.

End FiniteOrder.

(** ** 19. The statistics of finite buffers *)

Section FiniteStats.

Lemma in_elem_of (x : binary32) (l : list binary32) : In x l <-> x ∈ l.
Proof. symmetry. apply list_elem_of_In. Qed.

(** The peak scan of a finite buffer: a finite float that is not negative
    and bounds every magnitude. *)
Lemma peak_magnitude_finite (audio_data : list binary32) :
  Forall (fun x => finite32 x = true) audio_data ->
  finite32 (peak_magnitude audio_data) = true /\
  sign32 (peak_magnitude audio_data) = false /\
  (peak_magnitude audio_data = S754_zero false \/
   exists x, x ∈ audio_data /\ peak_magnitude audio_data = SFabs x) /\
  Forall (fun x => (Rabs (B2R x) <= B2R (peak_magnitude audio_data))%R) audio_data.
Proof.
  intros Hall.
  destruct (peak_scan_any audio_data (S754_zero false) eq_refl eq_refl)
    as (_ & Hs & Hor & _ & Hle).
  change (fold_left _ audio_data (S754_zero false))
    with (peak_magnitude audio_data) in Hs, Hor, Hle.
  rewrite Forall_forall in Hall.
  assert (Hfin : finite32 (peak_magnitude audio_data) = true).
  { destruct Hor as [->|(x & Hx & _ & ->)]; [done|]. apply finite32_abs. by apply Hall. }
  split; [done|]. split; [done|]. split.
  { destruct Hor as [->|(x & Hx & _ & Heq)]; [by left|]. right. by exists x. }
  rewrite Forall_forall. intros x Hx.
  rewrite <- B2R_abs. apply Rnot_lt_le. intros Hlt.
  apply SFltb_B2R in Hlt; [|done|apply finite32_abs; by apply Hall].
  by rewrite (Hle x Hx) in Hlt.
Qed.

(** [printStats] on a finite buffer: the minimum and the maximum bound
    every sample, and the peak is the one the scan of [normalizePeak]
    finds. *)
Lemma printStats_finite (audio_data : list binary32) (title : string) :
  audio_data <> [] -> Forall (fun x => finite32 x = true) audio_data ->
  exists min_val max_val rms ratio,
    logged_values (printStats audio_data title)
    = [min_val; max_val; peak_magnitude audio_data; rms; ratio] /\
    In min_val audio_data /\ In max_val audio_data /\
    Forall (fun x => (B2R min_val <= B2R x <= B2R max_val)%R) audio_data /\
    Forall (fun x => (Rabs (B2R x) <= B2R (peak_magnitude audio_data))%R) audio_data.
Proof.
  intros Hne Hall.
  destruct (peak_magnitude_finite audio_data Hall) as (Hfin & Hsign & Hor & Hscan).
  destruct audio_data as [|first rest]; [done|].
  destruct (@min_element_from_spec binary32 binary32_ops
              SFltb_irrefl SFltb_trans first rest [first])
    as [Hmin1 Hmin2]; [by left| |].
  { intros x [<-|[]]. apply SFltb_irrefl. }
  destruct (@max_element_from_spec binary32 binary32_ops
              SFltb_irrefl SFltb_trans first rest [first])
    as [Hmax1 Hmax2]; [by left| |].
  { intros x [<-|[]]. apply SFltb_irrefl. }
  change ([first] ++ rest) with (first :: rest) in *.
  set (mn := min_element_from first rest) in *.
  set (mx := max_element_from first rest) in *.
  rewrite Forall_forall in Hall.
  assert (Hfmn : finite32 mn = true) by (by apply Hall, in_elem_of).
  assert (Hfmx : finite32 mx = true) by (by apply Hall, in_elem_of).
  assert (Hbounds : forall x, x ∈ first :: rest ->
            (B2R mn <= B2R x <= B2R mx)%R).
  { intros x Hx. split.
    - apply Rnot_lt_le. intros Hlt. apply SFltb_B2R in Hlt; [|by apply Hall|done].
      rewrite Hmin2 in Hlt; [done|by apply in_elem_of].
    - apply Rnot_lt_le. intros Hlt. apply SFltb_B2R in Hlt; [|done|by apply Hall].
      rewrite Hmax2 in Hlt; [done|by apply in_elem_of]. }
  (* the peak of the statistics *)
  set (P := std_max (SFabs mn) (SFabs mx)).
  assert (HP : P = SFabs mn /\ (B2R (SFabs mx) <= B2R (SFabs mn))%R
               \/ P = SFabs mx /\ (B2R (SFabs mn) < B2R (SFabs mx))%R).
  { unfold P, std_max. simpl f_lt.
    destruct (SFltb (SFabs mn) (SFabs mx)) eqn:Hc.
    - right. split; [done|]. apply SFltb_B2R; [by apply finite32_abs..|done].
    - left. split; [done|]. apply Rnot_lt_le. intros Hlt.
      apply SFltb_B2R in Hlt; [congruence|by apply finite32_abs..]. }
  rewrite Forall_forall in Hscan.
  assert (Heq : P = peak_magnitude (first :: rest)).
  { apply finite32_value_inj; try done.
    - destruct HP as [[-> _]|[-> _]]; by apply finite32_abs.
    - destruct HP as [[-> _]|[-> _]]; apply SFabs_sign.
    - apply Rle_antisym.
      + destruct HP as [[-> _]|[-> _]]; rewrite B2R_abs; by apply Hscan, in_elem_of.
      + assert (Hge : forall x, x ∈ first :: rest -> (Rabs (B2R x) <= B2R P)%R).
        { intros x Hx. destruct (Hbounds x Hx) as [Hlo Hhi].
          rewrite !B2R_abs in HP.
          assert (Hx' : (Rabs (B2R x) <= Rabs (B2R mn) \/ Rabs (B2R x) <= Rabs (B2R mx))%R).
          { unfold Rabs. repeat destruct (Rcase_abs _); lra. }
          destruct HP as [[-> HP]|[-> HP]]; rewrite B2R_abs; lra. }
        destruct Hor as [Hz|(x & Hx & Hz)]; rewrite Hz.
        * simpl. pose proof (Hge first ltac:(by left)) as H0.
          pose proof (Rabs_pos (B2R first)). lra.
        * rewrite B2R_abs. by apply Hge. }
  exists mn, mx. eexists. eexists.
  split; [rewrite <- Heq; reflexivity|].
  split; [done|]. split; [done|].
  split; rewrite Forall_forall; [exact Hbounds|exact Hscan].
Qed.

End FiniteStats.

(** X5.  For every buffer of finite floats that is not empty, the minimum
    and the maximum that [printStats] logs are samples of the buffer that
    bound every sample, and the peak that it logs is the very number that
    the scan of [normalizePeak] finds: it bounds the magnitude of every
    sample. *)
Theorem printStats_peak_is_scan (audio_data : list binary32) (title : string) :
  audio_data <> [] -> Forall (fun x => finite32 x = true) audio_data ->
  exists min_val max_val rms ratio,
    logged_values (printStats audio_data title)
    = [min_val; max_val; peak_magnitude audio_data; rms; ratio] /\
    In min_val audio_data /\ In max_val audio_data /\
    Forall (fun x => (B2R min_val <= B2R x <= B2R max_val)%R) audio_data /\
    Forall (fun x => (Rabs (B2R x) <= B2R (peak_magnitude audio_data))%R) audio_data.
Proof.
  intros Hne Hall.
  destruct (printStats_finite audio_data title Hne Hall)
    as (mn & mx & rms & ratio & Hlog & Hmn & Hmx & Hb & Hp).
  exists mn, mx, rms, ratio. repeat (split; [assumption|]). exact Hp.
Qed.

Lemma printStats_peak_is_scan_witness :
  scenario_buffer <> [] /\
  Forall (fun x => finite32 x = true) scenario_buffer /\
  exists min_val max_val rms ratio,
    logged_values (printStats scenario_buffer "")
    = [min_val; max_val; peak_magnitude scenario_buffer; rms; ratio] /\
    In min_val scenario_buffer /\ In max_val scenario_buffer /\
    Forall (fun x => (B2R min_val <= B2R x <= B2R max_val)%R) scenario_buffer /\
    Forall (fun x => (Rabs (B2R x) <= B2R (peak_magnitude scenario_buffer))%R)
      scenario_buffer.
Proof.
  assert (Hne : scenario_buffer <> []) by discriminate.
  assert (Hall : Forall (fun x => finite32 x = true) scenario_buffer)
    by (repeat constructor).
  split; [exact Hne|]. split; [exact Hall|].
  exact (printStats_peak_is_scan scenario_buffer "" Hne Hall).
Defined.

(** X6.  For samples and a target of moderate size and a peak that is not
    zero, the peak magnitude that [printStats] logs for the normalised
    buffer (the "Normalized Stats" of the pipeline) is the magnitude of the
    target within the relative error [2^-22]. *)
Theorem normalized_stats_peak
  (audio_data : list binary32) (target_peak : binary32) (title : string) :
  Forall (fun x => sample_in_range x = true) audio_data ->
  moderate32 target_peak = true ->
  SFeqb (peak_magnitude audio_data) (S754_zero false) = false ->
  exists min_val max_val peak rms ratio,
    logged_values (printStats (fst (normalizePeak audio_data target_peak)) title)
    = [min_val; max_val; peak; rms; ratio] /\
    rel_close peak_tolerance (B2R peak) (Rabs (B2R target_peak)).
Proof.
  intros Hall HT Hpeak.
  rewrite (normalizePeak_float_scaled audio_data target_peak Hpeak).
  destruct (normalizePeak_float_reaches_target audio_data target_peak Hall HT Hpeak)
    as (_ & Hout & _ & Hrel).
  match type of Hout with Forall _ ?l => set (out := l) in * end.
  assert (Hne : out <> []).
  { unfold out. destruct audio_data; [done|discriminate]. }
  assert (Hfin : Forall (fun x => finite32 x = true) out).
  { eapply Forall_impl; [exact Hout|]. intros x Hx. by apply zero_or_normal_finite. }
  destruct (printStats_finite out title Hne Hfin)
    as (mn & mx & rms & ratio & Hlog & _).
  exists mn, mx, (peak_magnitude out), rms, ratio. split; [exact Hlog|exact Hrel].
Qed.

Lemma normalized_stats_peak_witness :
  Forall (fun x => sample_in_range x = true) scenario_buffer /\
  moderate32 scenario_target = true /\
  SFeqb (peak_magnitude scenario_buffer) (S754_zero false) = false /\
  exists min_val max_val peak rms ratio,
    logged_values (printStats (fst (normalizePeak scenario_buffer scenario_target)) "")
    = [min_val; max_val; peak; rms; ratio] /\
    rel_close peak_tolerance (B2R peak) (Rabs (B2R scenario_target)).
Proof.
  assert (Hall : Forall (fun x => sample_in_range x = true) scenario_buffer)
    by (repeat constructor).
  assert (HT : moderate32 scenario_target = true) by (vm_compute; reflexivity).
  assert (Hp : SFeqb (peak_magnitude scenario_buffer) (S754_zero false) = false)
    by (vm_compute; reflexivity).
  split; [exact Hall|]. split; [exact HT|]. split; [exact Hp|].
  exact (normalized_stats_peak scenario_buffer scenario_target "" Hall HT Hp).
Defined.

(** ** 20. The statistics of silence *)

Section SizeToFloat.
Local Open Scope Z_scope.

Lemma iter_xO_value (k : nat) (p : positive) :
  Z.pos (Nat.iter k xO p) = Z.pos p * 2 ^ Z.of_nat k.
Proof.
  induction k as [|k IH].
  - simpl. lia.
  - rewrite Nat2Z.inj_succ, Z.pow_succ_r by lia.
    change (Nat.iter (S k) xO p) with (xO (Nat.iter k xO p)).
    rewrite Pos2Z.inj_xO, IH. lia.
Qed.

(** The conversion of a size to [float]: a positive normal number, for
    every size that a [size_t] of 64 bits holds. *)
Lemma Z_to_binary32_size (n : Z) :
  1 <= n < 2 ^ 64 ->
  normal32 (Z_to_binary32 n) = true /\ sign32 (Z_to_binary32 n) = false.
Proof.
  intros Hn. destruct n as [|p|p]; try lia.
  unfold Z_to_binary32, binary_normalize, binary_round.
  pose proof (digits2_pos_spec p) as Hd.
  set (d := Z.pos (digits2_pos p)) in *.
  assert (Hd64 : d <= 64).
  { destruct (Z_le_gt_dec d 64) as [|Hgt]; [done|].
    assert (2 ^ 64 <= 2 ^ (d - 1)) by (apply Z.pow_le_mono_r; lia). lia. }
  replace (d + 0) with d by lia.
  rewrite fexp32_normal by lia.
  unfold shl_align. replace (d - 24 - 0) with (d - 24) by lia.
  destruct (d - 24) as [|k|k] eqn:Hk.
  - destruct (binary_round_aux_normal false (Z.pos p) d 0 loc_Exact (IZR (Z.pos p)))
      as (m' & e' & Hr & Hm' & He' & _); try lia.
    { unfold brackets. simpl. unfold pow2. simpl. lra. }
    rewrite Hr. split; [|done]. apply normal32_intro; lia.
  - destruct (binary_round_aux_normal false (Z.pos p) d 0 loc_Exact (IZR (Z.pos p)))
      as (m' & e' & Hr & Hm' & He' & _); try lia.
    { unfold brackets. simpl. unfold pow2. simpl. lra. }
    rewrite Hr. split; [|done]. apply normal32_intro; lia.
  - rewrite Pos2Nat.inj_iter.
    match goal with
    | |- context [binary_round_aux _ _ _ (Z.pos ?t) _ _] => set (mz := t)
    end.
    assert (Hv : Z.pos mz = Z.pos p * 2 ^ Z.pos k).
    { rewrite <- (positive_nat_Z k). apply iter_xO_value. }
    assert (Hd24 : Z.pos k = 24 - d) by lia.
    assert (Hmz : 2 ^ (24 - 1) <= Z.pos mz < 2 ^ 24).
    { rewrite Hv, Hd24.
      assert (E1 : 2 ^ (24 - 1) = 2 ^ (d - 1) * 2 ^ (24 - d)).
      { rewrite <- Z.pow_add_r by lia. f_equal. lia. }
      assert (E2 : 2 ^ 24 = 2 ^ d * 2 ^ (24 - d)).
      { rewrite <- Z.pow_add_r by lia. f_equal. lia. }
      rewrite E1, E2.
      assert (0 < 2 ^ (24 - d)) by (apply Z.pow_pos_nonneg; lia). nia. }
    destruct (binary_round_aux_normal false (Z.pos mz) 24 (Z.neg k) loc_Exact
                (IZR (Z.pos mz) * pow2 (Z.neg k))%R)
      as (m' & e' & Hr & Hm' & He' & _); try lia.
    { pose proof (pow2_pos (Z.neg k)). unfold brackets.
      cbn [shr_m shr_r shr_s shr_record_of_loc]. lra. }
    rewrite Hr. split; [|done]. apply normal32_intro; lia.
Qed.

End SizeToFloat.

(** The sum of the squares of zeros is [+0.0f]. *)
Lemma sum_squares_silence (audio_data : list binary32) :
  Forall (fun x => is_zero32 x = true) audio_data ->
  sum_squares audio_data = S754_zero false.
Proof.
  unfold sum_squares. simpl.
  induction 1 as [|x l Hx _ IH]; simpl; [done|].
  destruct x as [[]| | |]; try done.
Qed.

(** X7.  For a silent buffer (zeros only, not empty, of a size that a
    [size_t] holds) [printStats] logs a zero for the minimum and for the
    maximum, and [+0.0f] for the peak, for the RMS and for the peak-to-RMS
    ratio: the ratio is the sentinel, the quotient by the zero RMS is not
    taken. *)
Theorem printStats_silence (audio_data : list binary32) (title : string) :
  audio_data <> [] ->
  Forall (fun x => is_zero32 x = true) audio_data ->
  (Z.of_nat (length audio_data) < 2 ^ 64)%Z ->
  exists min_val max_val,
    is_zero32 min_val = true /\ is_zero32 max_val = true /\
    logged_values (printStats audio_data title)
    = [min_val; max_val; S754_zero false; S754_zero false; S754_zero false].
Proof.
  intros Hne Hall Hsize.
  pose proof (sum_squares_silence audio_data Hall) as Hsum.
  destruct (Z_to_binary32_size (Z.of_nat (length audio_data))) as [Hn Hs].
  { split; [|exact Hsize]. destruct audio_data; [done|].
    rewrite length_cons. lia. }
  destruct audio_data as [|first rest]; [done|].
  destruct (@min_element_from_spec binary32 binary32_ops
              SFltb_irrefl SFltb_trans first rest [first])
    as [Hmin _]; [by left| |].
  { intros x [<-|[]]. apply SFltb_irrefl. }
  destruct (@max_element_from_spec binary32 binary32_ops
              SFltb_irrefl SFltb_trans first rest [first])
    as [Hmax _]; [by left| |].
  { intros x [<-|[]]. apply SFltb_irrefl. }
  change ([first] ++ rest) with (first :: rest) in *.
  rewrite Forall_forall in Hall.
  apply list_elem_of_In, Hall in Hmin. apply list_elem_of_In, Hall in Hmax.
  exists (min_element_from first rest), (max_element_from first rest).
  split; [done|]. split; [done|].
  set (size := Z_to_binary32 (Z.of_nat (length (first :: rest)))) in *.
  change (logged_values (printStats (first :: rest) title))
    with (let min_val := min_element_from first rest in
          let max_val := max_element_from first rest in
          let peak := std_max (SFabs min_val) (SFabs max_val) in
          let rms := SFsqrt prec32 emax32
                       (SFdiv prec32 emax32 (sum_squares (first :: rest)) size) in
          [min_val; max_val; peak; rms;
           if SFltb (S754_zero false) rms then SFdiv prec32 emax32 peak rms
           else S754_zero false]).
  rewrite Hsum. cbv zeta.
  destruct (min_element_from first rest) as [smin| | |]; try done.
  destruct (max_element_from first rest) as [smax| | |]; try done.
  destruct size as [| | |ss ms es]; try done.
  simpl in Hs. subst ss. reflexivity.
Qed.

Lemma printStats_silence_witness :
  silent_buffer <> [] /\
  Forall (fun x => is_zero32 x = true) silent_buffer /\
  (Z.of_nat (length silent_buffer) < 2 ^ 64)%Z /\
  exists min_val max_val,
    is_zero32 min_val = true /\ is_zero32 max_val = true /\
    logged_values (printStats silent_buffer "")
    = [min_val; max_val; S754_zero false; S754_zero false; S754_zero false].
Proof.
  assert (Hne : silent_buffer <> []) by discriminate.
  assert (Hall : Forall (fun x => is_zero32 x = true) silent_buffer)
    by (repeat constructor).
  assert (Hsize : (Z.of_nat (length silent_buffer) < 2 ^ 64)%Z) by (simpl; lia).
  split; [exact Hne|]. split; [exact Hall|]. split; [exact Hsize|].
  exact (printStats_silence silent_buffer "" Hne Hall Hsize).
Defined.

(** ** 21. The worker pool: further invariants *)

(** The four kinds of step. *)
Lemma exec_cases n a s s' :
  exec n a s = Some s' ->
  (exists ok, a = Main ok /\ main_step n ok s = Some s') \/
  (exists i io, a = Worker i io /\ running s /\ worker_case i io s s') \/
  (exists i, a = SpuriousWorker i /\ threads s !! i = Some WWait /\
             s' = set_thread i WIdle s) \/
  (a = SpuriousMain /\ main_pc s = MDrainWait /\ s' = set_main MDrain s).
Proof.
  destruct a as [ok|i io|i|]; simpl; intros Hexec.
  - left. by exists ok.
  - right. left. exists i, io. split; [done|]. by apply worker_step_cases.
  - right. right. left. exists i. split; [done|].
    unfold spurious_worker in Hexec.
    destruct (main_pc s); try done;
      destruct (threads s !! i) as [[]|]; try done; by inversion Hexec.
  - right. right. right. split; [done|].
    unfold spurious_main in Hexec. destruct (main_pc s); try done. by inversion Hexec.
Qed.

(** A property kept by every step holds along every schedule. *)
Lemma run_preserves n (P : pool -> Prop) :
  (forall a s s', P s -> exec n a s = Some s' -> P s') ->
  forall schedule s s', P s -> run n schedule s = Some s' -> P s'.
Proof.
  intros Hstep schedule. induction schedule as [|a rest IH]; simpl; intros s s' HP Hrun.
  - by inversion Hrun; subst.
  - destruct (exec n a s) as [s1|] eqn:Hexec; [|discriminate].
    eapply IH; [|exact Hrun]. eapply Hstep; eauto.
Qed.

(** The same along the states that satisfy the invariant of the pool. *)
Lemma run_preserves_inv n tasks (P : pool -> Prop) :
  (forall a s s', pool_inv n tasks s -> P s -> exec n a s = Some s' -> P s') ->
  forall schedule s s',
    pool_inv n tasks s -> P s -> run n schedule s = Some s' -> P s'.
Proof.
  intros Hstep schedule s s' Hinv HP Hrun.
  assert (H : pool_inv n tasks s' /\ P s'); [|by destruct H].
  revert Hrun. apply (run_preserves n (fun s => pool_inv n tasks s /\ P s)); [|done].
  intros a s1 s2 [Hi Hp] Hexec. split; [by eapply inv_exec|by eapply Hstep].
Qed.

(** What a step of the main thread leaves alone: the queue and the
    counter; it writes console lines only. *)
Lemma main_step_frame n ok s s' :
  main_step n ok s = Some s' ->
  g_task_queue s' = g_task_queue s /\
  g_active_tasks_count s' = g_active_tasks_count s /\
  (threads s' = threads s \/ threads s' = threads s ++ [WIdle] \/
   threads s' = map wake (threads s)) /\
  exists evs, trace s' = trace s ++ evs /\ Forall main_line evs.
Proof.
  unfold main_step. intros Hstep.
  destruct (main_pc s) as [|i| | | | |i| |code] eqn:Hpc; try done.
  - destruct (g_active_tasks_count s =? 0)%Z; inversion Hstep; subst s'; simpl;
      repeat split; auto.
    + exists [Cout "No audio files found to process."]. split; [done|]. by constructor.
    + exists []. by rewrite app_nil_r.
  - destruct (i <? n)%nat; [destruct ok|]; inversion Hstep; subst s'; simpl;
      repeat split; auto.
    + exists []. by rewrite app_nil_r.
    + exists [CerrInt msg_thread (Z.of_nat i)]. split; [done|]. by constructor.
    + exists []. by rewrite app_nil_r.
  - inversion Hstep; subst s'; simpl. repeat split; auto.
    exists []. by rewrite app_nil_r.
  - destruct (0 <? g_active_tasks_count s)%Z; inversion Hstep; subst s'; simpl;
      repeat split; auto; exists []; by rewrite app_nil_r.
  - inversion Hstep; subst s'; simpl. repeat split; auto.
    exists []. by rewrite app_nil_r.
  - destruct (i <? n)%nat.
    + destruct (threads s !! i) as [[]|]; try done.
      inversion Hstep; subst s'; simpl. repeat split; auto.
      exists []. by rewrite app_nil_r.
    + inversion Hstep; subst s'; simpl. repeat split; auto.
      exists []. by rewrite app_nil_r.
  - inversion Hstep; subst s'; simpl. repeat split; auto.
    exists [CoutInt msg_total (g_active_tasks_count s)]. split; [done|]. by constructor.
Qed.

(** The queue changes by the pop of its first task only. *)
Lemma exec_queue n a s s' :
  exec n a s = Some s' ->
  g_task_queue s' = g_task_queue s \/
  exists t, g_task_queue s = t :: g_task_queue s'.
Proof.
  intros Hexec.
  destruct (exec_cases n a s s' Hexec)
    as [(ok & -> & Hm)|[(i & io & -> & _ & Hw)|[(i & -> & _ & ->)|(-> & _ & ->)]]].
  - left. by apply main_step_frame in Hm as [Hq _].
  - destruct Hw as [Hi Hq Hst|Hi Hq Hst|t rest Hi Hq|w Hi Hpipe|t lo Hi|t lo Hi];
      simpl; auto.
    + right. exists t. by rewrite Hq.
    + left. by destruct (_ && _).
  - by left.
  - by left.
Qed.

(** X8.  The queue is first in, first out: in every state that the program
    reaches after the enumeration, the queue is the enumerated list without
    its first tasks, and the tasks that have left the queue are those that
    a worker holds or has run through the pipeline. *)
Theorem queue_is_first_in_first_out
  (n : nat) (tasks : list AudioTask) (s0 s : pool) :
  batch_start tasks s0 -> reachable n s0 s ->
  exists taken,
    tasks = taken ++ g_task_queue s /\
    Permutation taken (processed (trace s) ++ flat_map popped (threads s)).
Proof.
  intros Hstart [schedule Hrun].
  assert (Hsuffix : exists taken, tasks = taken ++ g_task_queue s).
  { revert Hrun. apply (run_preserves n (fun s => exists taken, tasks = taken ++ g_task_queue s)).
    - intros a s1 s2 [taken Htaken] Hexec.
      destruct (exec_queue n a s1 s2 Hexec) as [->|[t Ht]]; [by exists taken|].
      exists (taken ++ [t]). rewrite <- app_assoc. simpl. by rewrite <- Ht.
    - destruct Hstart as (_ & out & -> & _). by exists []. }
  destruct Hsuffix as [taken Htaken]. exists taken. split; [done|].
  pose proof (reachable_inv n tasks s0 s Hstart (ex_intro _ schedule Hrun)) as Hinv.
  pose proof (inv_tasks _ _ _ Hinv) as Hperm.
  rewrite Htaken, app_assoc in Hperm.
  apply Permutation_app_inv_r in Hperm. by symmetry.
Qed.

Lemma queue_is_first_in_first_out_witness :
  batch_start demo_tasks demo_start /\ reachable 4 demo_start demo_popped /\
  exists taken,
    demo_tasks = taken ++ g_task_queue demo_popped /\
    Permutation taken
      (processed (trace demo_popped) ++ flat_map popped (threads demo_popped)).
Proof.
  split; [exact demo_batch_start|]. split; [exact demo_reaches_popped|].
  exact (queue_is_first_in_first_out 4 demo_tasks demo_start demo_popped
           demo_batch_start demo_reaches_popped).
Defined.

(** ** 22. The worker pool: the stop flag and the number of workers *)

(** The stop flag is up only past line 382. *)
Lemma stop_flag_late n a s s' :
  (g_stop_threads s = true ->
   match main_pc s with MJoin _ | MReport | MExit 0 => True | _ => False end) ->
  exec n a s = Some s' ->
  g_stop_threads s' = true ->
  match main_pc s' with MJoin _ | MReport | MExit 0 => True | _ => False end.
Proof.
  intros Hinv Hexec.
  destruct (exec_cases n a s s' Hexec)
    as [(ok & -> & Hm)|[(i & io & -> & _ & Hw)|[(i & -> & _ & ->)|(-> & Hpc & ->)]]].
  - unfold main_step in Hm.
    destruct (main_pc s) as [|i| | | | |i| |code] eqn:Hpc; try done.
    + destruct (g_active_tasks_count s =? 0)%Z; inversion Hm; subst s'; simpl; auto.
    + destruct (i <? n)%nat; [destruct ok|]; inversion Hm; subst s'; simpl; auto.
    + inversion Hm; subst s'; simpl; auto.
    + destruct (0 <? g_active_tasks_count s)%Z; inversion Hm; subst s'; simpl; auto.
    + inversion Hm; subst s'; simpl; auto.
    + destruct (i <? n)%nat.
      * destruct (threads s !! i) as [[]|]; try done. inversion Hm; subst s'; simpl; auto.
      * inversion Hm; subst s'; simpl; auto.
    + inversion Hm; subst s'; simpl; auto.
  - destruct Hw as [Hi Hq Hst|Hi Hq Hst|t rest Hi Hq|w Hi Hpipe|t lo Hi|t lo Hi];
      simpl; auto.
    destruct (_ && _); simpl; auto.
    intros Hstop. specialize (Hinv Hstop). by destruct (main_pc s) as [| | | | | | | |[]].
  - simpl. done.
  - simpl. intros Hstop. specialize (Hinv Hstop). by rewrite Hpc in Hinv.
Qed.

(** X9.  The workers are told to stop only when nothing is left to do: in
    every state that the program reaches after the enumeration, if the stop
    flag is set then the counter is zero, the queue is empty, no worker
    holds a task and every task of the batch has been run through the
    pipeline. *)
Theorem stop_only_after_drain
  (n : nat) (tasks : list AudioTask) (s0 s : pool) :
  batch_start tasks s0 -> reachable n s0 s ->
  g_stop_threads s = true ->
  g_active_tasks_count s = 0%Z /\ g_task_queue s = [] /\
  in_flight (threads s) = [] /\ Permutation (processed (trace s)) tasks.
Proof.
  intros Hstart [schedule Hrun] Hstop.
  pose proof (reachable_inv n tasks s0 s Hstart (ex_intro _ schedule Hrun)) as Hinv.
  assert (Hlate : g_stop_threads s = true ->
            match main_pc s with MJoin _ | MReport | MExit 0 => True | _ => False end).
  { revert Hrun.
    apply (run_preserves n
             (fun s => g_stop_threads s = true ->
                match main_pc s with MJoin _ | MReport | MExit 0 => True | _ => False end)).
    - intros a s1 s2. apply stop_flag_late.
    - destruct Hstart as (_ & out & -> & _). done. }
  specialize (Hlate Hstop).
  assert (Hzero : g_active_tasks_count s = 0%Z).
  { apply (inv_drained _ _ _ Hinv). by destruct (main_pc s) as [| | | | | | | |[]]. }
  split; [done|]. destruct (drained_all_processed n tasks s Hinv Hzero) as (H1 & H2 & H3).
  done.
Qed.

Lemma stop_only_after_drain_witness :
  batch_start demo_tasks demo_start /\ reachable 4 demo_start demo_final /\
  g_stop_threads demo_final = true /\
  g_active_tasks_count demo_final = 0%Z /\ g_task_queue demo_final = [] /\
  in_flight (threads demo_final) = [] /\
  Permutation (processed (trace demo_final)) demo_tasks.
Proof.
  assert (Hstop : g_stop_threads demo_final = true) by (vm_compute; reflexivity).
  split; [exact demo_batch_start|]. split; [exact demo_reaches_final|].
  split; [exact Hstop|].
  exact (stop_only_after_drain 4 demo_tasks demo_start demo_final
           demo_batch_start demo_reaches_final Hstop).
Defined.

(** X10.  No worker leaves while work remains: in every state that the
    program reaches after the enumeration, if some worker thread has
    returned then the stop flag is set, the queue is empty, no worker holds
    a task and every task of the batch has been run through the
    pipeline. *)
Theorem no_worker_leaves_early
  (n : nat) (tasks : list AudioTask) (s0 s : pool) :
  batch_start tasks s0 -> reachable n s0 s ->
  WExit ∈ threads s ->
  g_stop_threads s = true /\ g_task_queue s = [] /\
  in_flight (threads s) = [] /\ Permutation (processed (trace s)) tasks.
Proof.
  intros Hstart [schedule Hrun] Hexit.
  pose proof (reachable_inv n tasks s0 s Hstart (ex_intro _ schedule Hrun)) as Hinv.
  pose proof (inv_exit _ _ _ Hinv Hexit) as Hstop.
  split; [done|].
  assert (Hlate : g_stop_threads s = true ->
            match main_pc s with MJoin _ | MReport | MExit 0 => True | _ => False end).
  { revert Hrun.
    apply (run_preserves n
             (fun s => g_stop_threads s = true ->
                match main_pc s with MJoin _ | MReport | MExit 0 => True | _ => False end)).
    - intros a s1 s2. apply stop_flag_late.
    - destruct Hstart as (_ & out & -> & _). done. }
  specialize (Hlate Hstop).
  assert (Hzero : g_active_tasks_count s = 0%Z).
  { apply (inv_drained _ _ _ Hinv). by destruct (main_pc s) as [| | | | | | | |[]]. }
  destruct (drained_all_processed n tasks s Hinv Hzero) as (H1 & H2 & H3).
  done.
Qed.

Lemma no_worker_leaves_early_witness :
  batch_start demo_tasks demo_start /\ reachable 4 demo_start demo_final /\
  WExit ∈ threads demo_final /\
  g_stop_threads demo_final = true /\ g_task_queue demo_final = [] /\
  in_flight (threads demo_final) = [] /\
  Permutation (processed (trace demo_final)) demo_tasks.
Proof.
  assert (Hexit : WExit ∈ threads demo_final) by (vm_compute; apply list_elem_of_here).
  split; [exact demo_batch_start|]. split; [exact demo_reaches_final|].
  split; [exact Hexit|].
  exact (no_worker_leaves_early 4 demo_tasks demo_start demo_final
           demo_batch_start demo_reaches_final Hexit).
Defined.

Lemma in_flight_length (ths : list wstate) :
  (length (in_flight ths) <= length ths)%nat.
Proof.
  unfold in_flight. induction ths as [|w ths IH]; simpl; [done|].
  rewrite length_app. destruct w; simpl; lia.
Qed.

(** X11.  The pool never runs more pipelines than it has workers: in every
    state that the program reaches after the enumeration there are at most
    [num_threads] worker threads, each holds at most one task, and the
    counter exceeds the length of the queue by at most [num_threads]. *)
Theorem at_most_num_threads_in_flight
  (n : nat) (tasks : list AudioTask) (s0 s : pool) :
  batch_start tasks s0 -> reachable n s0 s ->
  (length (threads s) <= n)%nat /\
  (length (in_flight (threads s)) <= length (threads s))%nat /\
  (g_active_tasks_count s <= Z.of_nat (length (g_task_queue s)) + Z.of_nat n)%Z.
Proof.
  intros Hstart Hreach.
  pose proof (reachable_inv n tasks s0 s Hstart Hreach) as Hinv.
  assert (Hths : (length (threads s) <= n)%nat).
  { pose proof (inv_threads _ _ _ Hinv) as Hth.
    destruct (main_pc s); try lia.
    destruct Hth as [-> _]. simpl. lia. }
  pose proof (in_flight_length (threads s)) as Hfl.
  split; [done|]. split; [done|].
  rewrite (inv_count _ _ _ Hinv). lia.
Qed.

Lemma at_most_num_threads_in_flight_witness :
  batch_start demo_tasks demo_start /\ reachable 4 demo_start demo_popped /\
  (length (threads demo_popped) <= 4)%nat /\
  (length (in_flight (threads demo_popped)) <= length (threads demo_popped))%nat /\
  (g_active_tasks_count demo_popped
   <= Z.of_nat (length (g_task_queue demo_popped)) + Z.of_nat 4)%Z.
Proof.
  split; [exact demo_batch_start|]. split; [exact demo_reaches_popped|].
  exact (at_most_num_threads_in_flight 4 demo_tasks demo_start demo_popped
           demo_batch_start demo_reaches_popped).
Defined.
(** ** 23. The worker pool: the files and the log *)

Lemma written_app out1 out2 : written (out1 ++ out2) = written out1 ++ written out2.
Proof. unfold written. apply flat_map_app. Qed.

Lemma saved_app out1 out2 : saved (out1 ++ out2) = saved out1 ++ saved out2.
Proof. unfold saved. apply flat_map_app. Qed.

Lemma closed_sections_app out1 out2 :
  closed_sections (out1 ++ out2) = closed_sections out1 ++ closed_sections out2.
Proof. unfold closed_sections. apply flat_map_app. Qed.

Lemma opened_sections_app out1 out2 :
  opened_sections (out1 ++ out2) = opened_sections out1 ++ opened_sections out2.
Proof. unfold opened_sections. apply flat_map_app. Qed.

Lemma written_log_lines b file lines : written (log_lines b file lines) = [].
Proof. destruct b; [|done]. induction lines; simpl; auto. Qed.

Lemma saved_log_lines b file lines : saved (log_lines b file lines) = [].
Proof. destruct b; [|done]. induction lines; simpl; auto. Qed.

Lemma inner_line_spec line :
  inner_line line = true ->
  closed_sections [Log "" line] = [] /\ opened_sections [Log "" line] = [].
Proof.
  destruct line as [s|label v]; [|done]. simpl.
  intros [H1 H2]%andb_true_iff.
  apply negb_true_iff in H1. apply negb_true_iff in H2.
  unfold closed_sections, opened_sections. simpl. by rewrite H1, H2.
Qed.

(** Inner lines neither open nor close a section of the log. *)
Lemma sections_log_lines b file lines :
  forallb inner_line lines = true ->
  closed_sections (log_lines b file lines) = [] /\
  opened_sections (log_lines b file lines) = [].
Proof.
  destruct b; [|done]. unfold log_lines.
  induction lines as [|line lines IH]; [done|].
  intros [Hline Hrest]%andb_true_iff. destruct (IH Hrest) as [IH1 IH2].
  destruct (inner_line_spec line Hline) as [H1 H2].
  change (map (Log file) (line :: lines)) with ([Log file line] ++ map (Log file) lines).
  rewrite closed_sections_app, opened_sections_app, IH1, IH2, !app_nil_r.
  destruct line as [s|label v]; [|done].
  unfold closed_sections, opened_sections in *. simpl in *.
  split.
  - by destruct (String.prefix "Processing Ended for " s).
  - by destruct (String.prefix "Processing started for " s).
Qed.

(** The lines of [printStats] and of [normalizePeak] are inner lines. *)
Lemma printStats_inner (audio_data : list binary32) (title : string) :
  forallb inner_line (printStats audio_data title) = true.
Proof. destruct audio_data; reflexivity. Qed.

Lemma normalizePeak_inner (audio_data : list binary32) (target_peak : binary32) :
  forallb inner_line (snd (normalizePeak audio_data target_peak)) = true.
Proof.
  unfold normalizePeak. destruct audio_data as [|x l]; [reflexivity|].
  destruct (f_eq (peak_magnitude (x :: l)) f_zero); reflexivity.
Qed.

Lemma loaded_lines_inner t audio_data :
  forallb inner_line (loaded_lines t audio_data) = true.
Proof.
  unfold loaded_lines.
  rewrite !forallb_app, !printStats_inner, normalizePeak_inner. reflexivity.
Qed.

Lemma opened_sections_started (file : string) :
  opened_sections (constructor_writes true file) = [file] /\
  closed_sections (constructor_writes true file) = [].
Proof.
  unfold opened_sections, closed_sections, constructor_writes. cbn [flat_map].
  replace (String.prefix "Processing started for " ("Processing started for " ++ file))
    with true by (symmetry; apply string_prefix_spec; by exists file).
  split; reflexivity.
Qed.

Lemma closed_sections_ended (file : string) :
  closed_sections (destructor_writes true file) = [file] /\
  opened_sections (destructor_writes true file) = [].
Proof.
  unfold opened_sections, closed_sections, destructor_writes, log_lines.
  cbn [flat_map map].
  replace (String.prefix "Processing Ended for " ("Processing Ended for " ++ file))
    with true by (symmetry; apply string_prefix_spec; by exists file).
  split; reflexivity.
Qed.

(** The lines of the main thread are no file, no line of a worker and no
    line of the log. *)
Lemma main_lines_silent (evs : list event) :
  Forall main_line evs ->
  written evs = [] /\ saved evs = [] /\ processed evs = [] /\
  closed_sections evs = [] /\ opened_sections evs = [].
Proof.
  induction 1 as [|ev evs Hev _ IH]; [done|].
  destruct IH as (H1 & H2 & H3 & H4 & H5).
  destruct ev; try done.
Qed.

(** The tasks reported as saved are among those with a console line. *)
Lemma saved_sublist (out : list event) : sublist (saved out) (processed out).
Proof.
  induction out as [|ev out IH]; simpl; [constructor|].
  destruct ev as [| |t o| | | | | |]; simpl; try done.
  destruct o; by constructor.
Qed.

(** Every step is a console line of the main thread, a thread created or
    woken, or a move of one worker. *)
Lemma exec_move n a s s' :
  exec n a s = Some s' ->
  (exists evs, trace s' = trace s ++ evs /\ Forall main_line evs /\
     (threads s' = threads s \/ threads s' = threads s ++ [WIdle] \/
      threads s' = map wake (threads s))) \/
  (exists i io w w' evs,
     threads s !! i = Some w /\ threads s' = <[i := w']> (threads s) /\
     trace s' = trace s ++ evs /\ worker_move io w w' evs).
Proof.
  intros Hexec.
  set (io0 := {| log_file_opens := false;
                 sndfile := {| loaded := None; save_ok := false |} |}).
  destruct (exec_cases n a s s' Hexec)
    as [(ok & -> & Hm)|[(i & io & -> & _ & Hw)|[(i & -> & Hi & ->)|(-> & _ & ->)]]].
  - left. apply main_step_frame in Hm as (_ & _ & Hths & evs & Htr & Hevs).
    by exists evs.
  - right.
    destruct Hw as [Hi Hq Hst|Hi Hq Hst|t rest Hi Hq|w Hi Hpipe|t lo Hi|t lo Hi].
    + exists i, io, WIdle, WWait, []. simpl. rewrite app_nil_r.
      repeat split; auto. constructor.
    + exists i, io, WIdle, WExit, []. simpl. rewrite app_nil_r.
      repeat split; auto. constructor.
    + exists i, io, WIdle, (WProc t), []. simpl. rewrite app_nil_r.
      repeat split; auto. constructor.
    + exists i, io, w, (fst (pipeline_step io w)), (snd (pipeline_step io w)).
      simpl. repeat split; auto. by constructor.
    + exists i, io, (WDone t lo), (WDtor t lo), []. rewrite app_nil_r.
      cbv zeta. destruct (andb _ _); simpl; repeat split; auto; constructor.
    + exists i, io, (WDtor t lo), WIdle, (destructor_writes lo (input_filepath t)).
      simpl. repeat split; auto. constructor.
  - right. exists i, io0, WWait, WIdle, []. simpl. rewrite app_nil_r.
    repeat split; auto. constructor.
  - left. exists []. simpl. rewrite app_nil_r. repeat split; auto.
Qed.

(** *** Balances between the output and the workers *)

Section Balance.
Context {A : Type}.
Variables (G H : list event -> list A) (F K : wstate -> list A).
Hypothesis G_app : forall out1 out2, G (out1 ++ out2) = G out1 ++ G out2.
Hypothesis H_app : forall out1 out2, H (out1 ++ out2) = H out1 ++ H out2.

(** Thread [i] moves from [w] to [w'] and writes [evs]: the balance is
    kept when the move is balanced. *)
Lemma balance_insert (C C' : list A) tr evs (ths : list wstate) i w w' :
  ths !! i = Some w ->
  Permutation (C ++ G tr ++ flat_map F ths) (H tr ++ flat_map K ths) ->
  Permutation (C' ++ G evs ++ F w' ++ K w) (C ++ H evs ++ K w' ++ F w) ->
  Permutation (C' ++ G (tr ++ evs) ++ flat_map F (<[i := w']> ths))
              (H (tr ++ evs) ++ flat_map K (<[i := w']> ths)).
Proof.
  intros Hi Hbal Hmove.
  destruct (insert_split ths i w Hi) as (l1 & l2 & -> & _ & Hins).
  rewrite Hins, G_app, H_app, !flat_map_app in *. simpl in *.
  apply (Permutation_app_inv_l (C ++ F w ++ K w)).
  etransitivity; [|etransitivity; [exact (Permutation_app Hbal Hmove)|]];
    solve_Permutation.
Qed.

Hypothesis G_main : forall evs, Forall main_line evs -> G evs = [].
Hypothesis H_main : forall evs, Forall main_line evs -> H evs = [].
Hypothesis F_idle : F WIdle = [] /\ F WWait = [].
Hypothesis K_idle : K WIdle = [] /\ K WWait = [].

(** The main thread prints, creates a thread or wakes the parked
    workers: the balance is kept. *)
Lemma balance_main (C : list A) tr evs (ths ths' : list wstate) :
  Forall main_line evs ->
  ths' = ths \/ ths' = ths ++ [WIdle] \/ ths' = map wake ths ->
  Permutation (C ++ G tr ++ flat_map F ths) (H tr ++ flat_map K ths) ->
  Permutation (C ++ G (tr ++ evs) ++ flat_map F ths') (H (tr ++ evs) ++ flat_map K ths').
Proof.
  intros Hevs Hths Hbal.
  rewrite G_app, H_app, (G_main evs Hevs), (H_main evs Hevs), !app_nil_r.
  destruct F_idle as [F1 F2]. destruct K_idle as [K1 K2].
  destruct Hths as [->|[->| ->]]; [done| |].
  - by rewrite !flat_map_app; simpl; rewrite F1, K1, !app_nil_r.
  - rewrite !flat_map_wake by congruence. done.
Qed.

(** A balance that every move of a worker keeps, for workers that
    satisfy [P], is kept by every step. *)
Lemma balance_exec n (P : wstate -> Prop) (C : list A) a s s' :
  (forall io w w' evs, worker_move io w w' evs -> P w ->
     Permutation (G evs ++ F w' ++ K w) (H evs ++ K w' ++ F w)) ->
  Forall P (threads s) ->
  exec n a s = Some s' ->
  Permutation (C ++ G (trace s) ++ flat_map F (threads s))
              (H (trace s) ++ flat_map K (threads s)) ->
  Permutation (C ++ G (trace s') ++ flat_map F (threads s'))
              (H (trace s') ++ flat_map K (threads s')).
Proof.
  intros Hmove HP Hexec Hbal.
  destruct (exec_move n a s s' Hexec)
    as [(evs & -> & Hevs & Hths)|(i & io & w & w' & evs & Hi & -> & -> & Hw)].
  - by apply (balance_main C (trace s) evs (threads s) (threads s')).
  - apply (balance_insert C C (trace s) evs (threads s) i w w' Hi Hbal).
    apply Permutation_app_head. apply (Hmove io); [done|].
    rewrite Forall_lookup in HP. by apply (HP i).
Qed.

End Balance.

(** *** What a move of a worker writes *)

Lemma saving_log t b line rest next :
  saving (WRun t b (line :: rest) next) = saving (WRun t b rest next).
Proof. by destruct next as [| |[]]. Qed.

(** Files against success lines: a file is written when the worker starts
    to report the task as saved, and the success line ends the report. *)
Lemma worker_move_files io w w' evs :
  worker_move io w w' evs ->
  map fst (written evs) ++ map output_filepath (saving w)
  = map output_filepath (saved evs) ++ map output_filepath (saving w').
Proof.
  intros Hmove.
  destruct Hmove as [| |t| |w Hpipe|t lo|t lo]; try done.
  - destruct w as [| |t|t b [|line rest] [|data|o]|t b|t b|]; try discriminate;
      cbn [pipeline_step].
    + cbn [fst snd]. by destruct (log_file_opens io).
    + by destruct (loaded (sndfile io)).
    + by destruct (save_ok (sndfile io)).
    + by destruct o.
    + cbn [fst snd]. by rewrite written_log_lines, saved_log_lines.
    + cbn [fst snd]. by rewrite written_log_lines, saved_log_lines.
    + cbn [fst snd]. rewrite written_log_lines, saved_log_lines. by destruct o.
  - unfold destructor_writes. by rewrite written_log_lines, saved_log_lines.
Qed.

(** The lines a worker has still to log stay inner lines, and the samples
    it is about to save stay normalised samples. *)
Lemma worker_move_pending io w w' evs :
  worker_move io w w' evs -> pending_inner w -> pending_inner w'.
Proof.
  intros Hmove Hin.
  destruct Hmove as [| |t| |w Hpipe|t lo|t lo]; try done.
  destruct w as [| |t|t b [|line rest] [|data|o]|t b|t b|]; try discriminate;
    cbn [pipeline_step]; try done.
  - destruct (loaded (sndfile io)) as [data|]; cbn [fst pending_inner]; [|done].
    apply loaded_lines_inner.
  - by destruct (save_ok (sndfile io)).
  - simpl in *. by apply andb_true_iff in Hin as [_ Hin].
  - simpl in *. by apply andb_true_iff in Hin as [_ Hin].
  - simpl in *. by apply andb_true_iff in Hin as [_ Hin].
Qed.

Lemma worker_move_data io w w' evs :
  worker_move io w w' evs -> normalized_data w -> normalized_data w'.
Proof.
  intros Hmove Hin.
  destruct Hmove as [| |t| |w Hpipe|t lo|t lo]; try done.
  destruct w as [| |t|t b [|line rest] [|data|o]|t b|t b|]; try discriminate;
    cbn [pipeline_step]; try done.
  - destruct (loaded (sndfile io)) as [data|]; cbn [fst normalized_data]; [|done].
    by exists data.
  - by destruct (save_ok (sndfile io)).
Qed.

(** A file that a move writes is the output file of the task of the
    worker and holds normalised samples. *)
Lemma worker_move_written io w w' evs :
  worker_move io w w' evs -> normalized_data w ->
  Forall (fun file =>
            exists t audio_data,
              t ∈ popped w /\ fst file = output_filepath t /\
              snd file = fst (normalizePeak audio_data (peak_level t)))
         (written evs).
Proof.
  intros Hmove Hin.
  destruct Hmove as [| |t| |w Hpipe|t lo|t lo]; try (by constructor).
  - destruct w as [| |t|t b [|line rest] [|data|o]|t b|t b|]; try discriminate;
      cbn [pipeline_step fst snd]; rewrite ?written_log_lines; try (by constructor).
    + destruct (log_file_opens io); by constructor.
    + destruct (loaded (sndfile io)); by constructor.
    + destruct (save_ok (sndfile io)); cbn [snd]; [|by constructor].
      destruct Hin as [audio ->].
      constructor; [|constructor]. exists t, audio.
      split; [apply list_elem_of_here|done].
  - unfold destructor_writes. rewrite written_log_lines. constructor.
Qed.

(** Sections of the log against processors: the constructor opens the
    section of its processor, the destructor closes it, and nothing else
    does either. *)
Lemma worker_move_sections io w w' evs :
  worker_move io w w' evs -> pending_inner w ->
  Permutation
    (closed_sections evs ++ map input_filepath (unclosed w') ++ [])
    (opened_sections evs ++ [] ++ map input_filepath (unclosed w)).
Proof.
  intros Hmove Hin.
  destruct Hmove as [| |t| |w Hpipe|t lo|t lo]; try done.
  - destruct w as [| |t|t b [|line rest] [|data|o]|t b|t b|]; try discriminate;
      cbn [pipeline_step fst snd].
    + destruct (log_file_opens io); [|done].
      destruct (opened_sections_started (input_filepath t)) as [-> ->]. done.
    + by destruct (loaded (sndfile io)) as [data|], b.
    + by destruct (save_ok (sndfile io)), b.
    + by destruct b.
    + simpl in Hin. apply andb_true_iff in Hin as [Hline _].
      destruct (sections_log_lines b (input_filepath t) [line]) as [-> ->];
        [by simpl; rewrite Hline|]. by destruct b.
    + simpl in Hin. apply andb_true_iff in Hin as [Hline _].
      destruct (sections_log_lines b (input_filepath t) [line]) as [-> ->];
        [by simpl; rewrite Hline|]. by destruct b.
    + simpl in Hin. apply andb_true_iff in Hin as [Hline _].
      destruct (sections_log_lines b (input_filepath t) [line]) as [-> ->];
        [by simpl; rewrite Hline|]. by destruct b.
  - by destruct lo.
  - destruct lo; [|done].
    destruct (closed_sections_ended (input_filepath t)) as [-> ->]. done.
Qed.

(** Log sections against constructed processors: the constructor opens a
    section or, when the log does not open, complains on [cerr]. *)
Lemma worker_move_started io w w' evs :
  worker_move io w w' evs -> pending_inner w ->
  exists refused : list AudioTask,
    Permutation
      (map input_filepath refused ++ opened_sections evs ++ []
       ++ map input_filepath (started w))
      (map input_filepath (processed evs) ++ map input_filepath (started w') ++ []) /\
    (refused = [] \/ Cerr "Could not open the log file log.txt" ∈ evs).
Proof.
  intros Hmove Hin.
  destruct Hmove as [| |t| |w Hpipe|t lo|t lo]; try (exists []; split; [done|by left]).
  - destruct w as [| |t|t b [|line rest] [|data|o]|t b|t b|]; try discriminate;
      cbn [pipeline_step fst snd].
    + destruct (log_file_opens io).
      * exists []. split; [|by left].
        destruct (opened_sections_started (input_filepath t)) as [-> _]. done.
      * exists [t]. split; [done|]. right. apply list_elem_of_here.
    + exists []. split; [|by left]. by destruct (loaded (sndfile io)).
    + exists []. split; [|by left]. by destruct (save_ok (sndfile io)).
    + exists []. split; [|by left]. done.
    + exists []. split; [|by left].
      simpl in Hin. apply andb_true_iff in Hin as [Hline _].
      destruct (sections_log_lines b (input_filepath t) [line]) as [_ ->];
        [by simpl; rewrite Hline|].
      by rewrite processed_log_lines.
    + exists []. split; [|by left].
      simpl in Hin. apply andb_true_iff in Hin as [Hline _].
      destruct (sections_log_lines b (input_filepath t) [line]) as [_ ->];
        [by simpl; rewrite Hline|].
      by rewrite processed_log_lines.
    + exists []. split; [|by left].
      simpl in Hin. apply andb_true_iff in Hin as [Hline _].
      destruct (sections_log_lines b (input_filepath t) [line]) as [_ ->];
        [by simpl; rewrite Hline|].
      by rewrite processed_log_lines.
  - exists []. split; [|by left]. destruct lo; [|done].
    destruct (closed_sections_ended (input_filepath t)) as [_ ->].
    unfold destructor_writes. by rewrite processed_log_lines.
Qed.

(** The lines that the workers have still to log are inner lines, and the
    samples they are about to save are normalised samples. *)
Lemma exec_workers n (P : wstate -> Prop) a s s' :
  P WIdle -> (forall io w w' evs, worker_move io w w' evs -> P w -> P w') ->
  exec n a s = Some s' -> Forall P (threads s) -> Forall P (threads s').
Proof.
  intros Hidle Hmove Hexec HP.
  destruct (exec_move n a s s' Hexec)
    as [(evs & _ & _ & Hths)|(i & io & w & w' & evs & Hi & -> & _ & Hw)].
  - destruct Hths as [->|[->| ->]]; [done| |].
    + apply Forall_app. split; [done|]. by constructor.
    + apply Forall_fmap. eapply Forall_impl; [exact HP|].
      intros w Hw. by destruct w.
  - apply Forall_insert; [done|]. apply (Hmove io w w' evs Hw).
    rewrite Forall_lookup in HP. by apply (HP i).
Qed.

(** *** The files *)

Lemma flat_map_map {A B : Type} (h : A -> B) (f : wstate -> list A) (ths : list wstate) :
  flat_map (fun w => map h (f w)) ths = map h (flat_map f ths).
Proof. induction ths as [|w ths IH]; simpl; [done|]. by rewrite IH, map_app. Qed.

Lemma batch_start_saved tasks s0 : batch_start tasks s0 -> saved (trace s0) = [].
Proof.
  intros (_ & out & -> & Hp & _). simpl.
  pose proof (saved_sublist out) as Hsub. rewrite Hp in Hsub.
  by apply sublist_nil_r in Hsub.
Qed.

(** The paths of the files written so far are the output paths of the
    tasks reported as saved and of the tasks that a worker is reporting. *)
Lemma written_paths_balance n tasks s0 s :
  batch_start tasks s0 -> written (trace s0) = [] -> reachable n s0 s ->
  Permutation (map fst (written (trace s)))
    (map output_filepath (saved (trace s) ++ flat_map saving (threads s))).
Proof.
  intros Hstart Hw0 [schedule Hrun].
  assert (H : Permutation
                ([] ++ map fst (written (trace s)) ++ flat_map (fun _ => []) (threads s))
                (map output_filepath (saved (trace s))
                 ++ flat_map (fun w => map output_filepath (saving w)) (threads s))).
  { revert Hrun.
    apply (run_preserves n
             (fun s =>
                Permutation
                  ([] ++ map fst (written (trace s)) ++ flat_map (fun _ => []) (threads s))
                  (map output_filepath (saved (trace s))
                   ++ flat_map (fun w => map output_filepath (saving w)) (threads s)))).
    - intros a s1 s2 Hbal Hexec. revert Hbal.
      apply (balance_exec (fun out => map fst (written out))
               (fun out => map output_filepath (saved out))
               (fun _ => []) (fun w => map output_filepath (saving w))) with (n := n)
               (P := fun _ => True) (a := a); try done.
      + intros out1 out2. by rewrite written_app, map_app.
      + intros out1 out2. by rewrite saved_app, map_app.
      + intros evs Hevs. by destruct (main_lines_silent evs Hevs) as (-> & _).
      + intros evs Hevs. by destruct (main_lines_silent evs Hevs) as (_ & -> & _).
      + intros io w w' evs Hmove _.
        pose proof (worker_move_files io w w' evs Hmove) as Heq.
        simpl. rewrite app_nil_r. by rewrite Heq.
      + apply Forall_forall. done.
    - pose proof (batch_start_saved tasks s0 Hstart) as Hs0.
      destruct Hstart as (_ & out & -> & _). simpl in *. by rewrite Hw0, Hs0. }
  simpl in H. rewrite flat_map_map in H.
  assert (Hnil : flat_map (fun _ : wstate => @nil string) (threads s) = []).
  { clear. induction (threads s); simpl; auto. }
  rewrite Hnil, app_nil_r in H. by rewrite map_app.
Qed.

Lemma saving_held (ths : list wstate) : sublist (flat_map saving ths) (flat_map popped ths).
Proof.
  induction ths as [|w ths IH]; simpl; [constructor|].
  apply sublist_app; [|done].
  destruct w as [| |t|t b pending [| |[]]|t b|t b|]; simpl;
    repeat constructor.
Qed.

(** The tasks that workers hold are tasks of the batch. *)
Lemma held_task_in_batch n tasks s i w t :
  pool_inv n tasks s -> threads s !! i = Some w -> t ∈ popped w -> t ∈ tasks.
Proof.
  intros Hinv Hi Ht.
  rewrite <- (inv_tasks _ _ _ Hinv). apply elem_of_app. right. apply elem_of_app. left.
  apply list_elem_of_In, in_flat_map. exists w.
  split; [|by apply list_elem_of_In]. apply list_elem_of_In.
  by eapply list_elem_of_lookup_2.
Qed.

(** X12.  A success line always has its file, and at the end the files are
    those of the success lines: in every state that the program reaches
    after the enumeration, the paths of the files written so far are the
    output paths of the tasks whose success line has been printed, together
    with those of the tasks whose file is written and whose success line is
    still to come (the save and the console line are separate steps, so the
    two need not come in the same order for two workers); once the main
    thread is past its wait loop there is no such task left.  Each file
    written is the output file of a task of the batch and holds what
    [normalizePeak] has made, for the target of that task, of decoded
    samples; a task whose load or save fails writes no file. *)
Theorem written_files_are_saved_tasks
  (n : nat) (tasks : list AudioTask) (s0 s : pool) :
  batch_start tasks s0 -> written (trace s0) = [] -> reachable n s0 s ->
  Permutation (map fst (written (trace s)))
    (map output_filepath (saved (trace s) ++ flat_map saving (threads s))) /\
  (past_drain (main_pc s) = true ->
   Permutation (map fst (written (trace s))) (map output_filepath (saved (trace s)))) /\
  Forall (fun file =>
            exists t audio_data,
              t ∈ tasks /\ fst file = output_filepath t /\
              snd file = fst (normalizePeak audio_data (peak_level t)))
         (written (trace s)).
Proof.
  intros Hstart Hw0 Hreach.
  pose proof (written_paths_balance n tasks s0 s Hstart Hw0 Hreach) as Hbal.
  pose proof (reachable_inv n tasks s0 s Hstart Hreach) as Hinv.
  split; [exact Hbal|]. split.
  - intros Hpast.
    destruct (drained_all_processed n tasks s Hinv (inv_drained _ _ _ Hinv Hpast))
      as (_ & _ & Hfl).
    assert (Hsv : flat_map saving (threads s) = []).
    { unfold in_flight in Hfl. clear -Hfl.
      induction (threads s) as [|w ths IH]; [done|]. simpl in *.
      apply app_eq_nil in Hfl as [Hw Hths]. rewrite (IH Hths).
      by destruct w. }
    by rewrite Hsv, app_nil_r in Hbal.
  - destruct Hreach as [schedule Hrun].
    pose proof (batch_start_inv n tasks s0 Hstart) as Hinv0.
    assert (H : Forall normalized_data (threads s) /\
                Forall (fun file =>
                          exists t audio_data,
                            t ∈ tasks /\ fst file = output_filepath t /\
                            snd file = fst (normalizePeak audio_data (peak_level t)))
                       (written (trace s))); [|by destruct H].
    revert Hrun.
    apply (run_preserves_inv n tasks
             (fun s =>
                Forall normalized_data (threads s) /\
                Forall (fun file =>
                          exists t audio_data,
                            t ∈ tasks /\ fst file = output_filepath t /\
                            snd file = fst (normalizePeak audio_data (peak_level t)))
                       (written (trace s)))); [|done|].
    + intros a s1 s2 Hinv1 [Hdata Hall] Hexec. split.
      * revert Hdata. apply (exec_workers n normalized_data a s1 s2); [done| |done].
        apply worker_move_data.
      * destruct (exec_move n a s1 s2 Hexec)
          as [(evs & -> & Hevs & _)|(i & io & w & w' & evs & Hi & _ & -> & Hw)].
        -- destruct (main_lines_silent evs Hevs) as (Hwr & _).
           by rewrite written_app, Hwr, app_nil_r.
        -- rewrite written_app. apply Forall_app. split; [done|].
           assert (Hd : normalized_data w).
           { rewrite Forall_lookup in Hdata. by apply (Hdata i). }
           eapply Forall_impl; [exact (worker_move_written io w w' evs Hw Hd)|].
           intros file (t & audio & Ht & Hpath & Hsamples).
           exists t, audio. split; [|done].
           by apply (held_task_in_batch n tasks s1 i w).
    + destruct Hstart as (_ & out & -> & _). simpl in *. rewrite Hw0.
      split; constructor.
Qed.

Lemma written_files_are_saved_tasks_witness :
  batch_start demo_tasks demo_start /\ written (trace demo_start) = [] /\
  reachable 4 demo_start demo_final /\ past_drain (main_pc demo_final) = true /\
  Permutation (map fst (written (trace demo_final)))
    (map output_filepath (saved (trace demo_final))) /\
  Forall (fun file =>
            exists t audio_data,
              t ∈ demo_tasks /\ fst file = output_filepath t /\
              snd file = fst (normalizePeak audio_data (peak_level t)))
         (written (trace demo_final)).
Proof.
  assert (Hw : written (trace demo_start) = []) by (vm_compute; reflexivity).
  assert (Hp : past_drain (main_pc demo_final) = true) by (vm_compute; reflexivity).
  split; [exact demo_batch_start|]. split; [exact Hw|].
  split; [exact demo_reaches_final|]. split; [exact Hp|].
  destruct (written_files_are_saved_tasks 4 demo_tasks demo_start demo_final
              demo_batch_start Hw demo_reaches_final) as (_ & Hend & Hall).
  split; [exact (Hend Hp)|exact Hall].
Defined.

(** X13.  No output file is written twice: when the output paths of the
    tasks of the batch are different from one another (as they are for the
    different names of a directory), in every state that the program
    reaches the paths of the files written so far are different from one
    another, so that no two workers ever write the same file. *)
Theorem no_output_written_twice
  (n : nat) (tasks : list AudioTask) (s0 s : pool) :
  batch_start tasks s0 -> written (trace s0) = [] ->
  NoDup (map output_filepath tasks) -> reachable n s0 s ->
  NoDup (map fst (written (trace s))).
Proof.
  intros Hstart Hw0 Hnodup Hreach.
  pose proof (reachable_inv n tasks s0 s Hstart Hreach) as Hinv.
  rewrite (written_paths_balance n tasks s0 s Hstart Hw0 Hreach).
  assert (Hsub : sublist (saved (trace s) ++ flat_map saving (threads s))
                   (processed (trace s) ++ flat_map popped (threads s))).
  { apply sublist_app; [apply saved_sublist|apply saving_held]. }
  apply (fmap_sublist output_filepath) in Hsub.
  eapply sublist_NoDup; [|exact Hsub].
  pose proof (inv_tasks _ _ _ Hinv) as Hperm. rewrite app_assoc in Hperm.
  pose proof (Permutation_map output_filepath Hperm) as Hp.
  rewrite <- Hp in Hnodup. rewrite map_app in Hnodup.
  by apply NoDup_app in Hnodup as [H _].
Qed.

Lemma no_output_written_twice_witness :
  batch_start demo_tasks demo_start /\ written (trace demo_start) = [] /\
  NoDup (map output_filepath demo_tasks) /\ reachable 4 demo_start demo_final /\
  NoDup (map fst (written (trace demo_final))).
Proof.
  assert (Hw : written (trace demo_start) = []) by (vm_compute; reflexivity).
  assert (Hnd : NoDup (map output_filepath demo_tasks)).
  { vm_compute. apply NoDup_cons. split; [|apply NoDup_singleton].
    intros H%list_elem_of_singleton. discriminate H. }
  split; [exact demo_batch_start|]. split; [exact Hw|]. split; [exact Hnd|].
  split; [exact demo_reaches_final|].
  exact (no_output_written_twice 4 demo_tasks demo_start demo_final
           demo_batch_start Hw Hnd demo_reaches_final).
Defined.

(** *** The sections of the log *)

Lemma pending_inner_reachable n tasks s0 s :
  batch_start tasks s0 -> reachable n s0 s -> Forall pending_inner (threads s).
Proof.
  intros Hstart [schedule Hrun]. revert Hrun.
  apply (run_preserves n (fun s => Forall pending_inner (threads s))).
  - intros a s1 s2 Hin Hexec. revert Hin.
    apply (exec_workers n pending_inner a s1 s2); [done| |done].
    apply worker_move_pending.
  - destruct Hstart as (_ & out & -> & _). constructor.
Qed.

(** The sections that are closed and those of the processors that are
    alive with their log open are the sections that have been opened. *)
Lemma sections_balance n tasks s0 s :
  batch_start tasks s0 ->
  closed_sections (trace s0) = [] -> opened_sections (trace s0) = [] ->
  reachable n s0 s ->
  Permutation
    (closed_sections (trace s) ++ map input_filepath (flat_map unclosed (threads s)))
    (opened_sections (trace s)).
Proof.
  intros Hstart Hc0 Ho0 [schedule Hrun].
  set (Q := fun s : pool =>
         Forall pending_inner (threads s) /\
         Permutation
           ([] ++ closed_sections (trace s)
            ++ flat_map (fun w => map input_filepath (unclosed w)) (threads s))
           (opened_sections (trace s) ++ flat_map (fun _ => []) (threads s))).
  assert (H : Q s).
  { revert Hrun. apply (run_preserves n Q).
    - intros a s1 s2 [Hin Hbal] Hexec. split.
      + revert Hin. apply (exec_workers n pending_inner a s1 s2); [done| |done].
        apply worker_move_pending.
      + revert Hbal.
        apply (balance_exec closed_sections opened_sections
                 (fun w => map input_filepath (unclosed w)) (fun _ => []))
          with (n := n) (P := pending_inner) (a := a); try done.
        * apply closed_sections_app.
        * apply opened_sections_app.
        * intros evs Hevs. by destruct (main_lines_silent evs Hevs) as (_ & _ & _ & -> & _).
        * intros evs Hevs. by destruct (main_lines_silent evs Hevs) as (_ & _ & _ & _ & ->).
        * intros io w w' evs Hmove HP.
          apply (worker_move_sections io w w' evs Hmove HP).
    - destruct Hstart as (_ & out & -> & _). simpl in *. split; [constructor|].
      simpl. by rewrite Hc0, Ho0. }
  destruct H as [_ H]. simpl in H. rewrite flat_map_map in H.
  assert (Hnil : flat_map (fun _ : wstate => @nil string) (threads s) = []).
  { clear. induction (threads s); simpl; auto. }
  by rewrite Hnil, app_nil_r in H.
Qed.

(** The sections that have been opened, and the tasks whose log did not
    open, are the tasks whose processor has been constructed. *)
Lemma constructed_balance n tasks s0 s :
  batch_start tasks s0 -> opened_sections (trace s0) = [] -> reachable n s0 s ->
  exists refused : list AudioTask,
    Permutation
      (opened_sections (trace s) ++ map input_filepath refused)
      (map input_filepath (processed (trace s) ++ flat_map started (threads s))) /\
    (refused <> [] -> Cerr "Could not open the log file log.txt" ∈ trace s).
Proof.
  intros Hstart Ho0 [schedule Hrun].
  set (Q := fun s : pool =>
         Forall pending_inner (threads s) /\
         exists refused : list AudioTask,
           Permutation
             (map input_filepath refused ++ opened_sections (trace s)
              ++ flat_map (fun _ => []) (threads s))
             (map input_filepath (processed (trace s))
              ++ flat_map (fun w => map input_filepath (started w)) (threads s)) /\
           (refused <> [] -> Cerr "Could not open the log file log.txt" ∈ trace s)).
  assert (H : Q s).
  { revert Hrun. apply (run_preserves n Q).
    - intros a s1 s2 [Hin (refused & Hbal & Hcerr)] Hexec. split.
      { revert Hin. apply (exec_workers n pending_inner a s1 s2); [done| |done].
        apply worker_move_pending. }
      destruct (exec_move n a s1 s2 Hexec)
        as [(evs & -> & Hevs & Hths)|(i & io & w & w' & evs & Hi & -> & -> & Hw)].
      + exists refused. split.
        * revert Hbal.
          apply (balance_main opened_sections (fun out => map input_filepath (processed out))
                   (fun _ => []) (fun w => map input_filepath (started w))); try done.
          -- apply opened_sections_app.
          -- intros out1 out2. by rewrite processed_app, map_app.
          -- intros evs' Hevs'.
             by destruct (main_lines_silent evs' Hevs') as (_ & _ & _ & _ & ->).
          -- intros evs' Hevs'.
             by destruct (main_lines_silent evs' Hevs') as (_ & _ & -> & _).
        * intros Hne. apply elem_of_app. left. by apply Hcerr.
      + assert (HP : pending_inner w).
        { rewrite Forall_lookup in Hin. by apply (Hin i). }
        destruct (worker_move_started io w w' evs Hw HP) as (extra & Hloc & Hextra).
        exists (extra ++ refused). split.
        * apply (balance_insert opened_sections
                   (fun out => map input_filepath (processed out))
                   (fun _ => []) (fun w => map input_filepath (started w)))
            with (C := map input_filepath refused) (w := w); try done.
          -- apply opened_sections_app.
          -- intros out1 out2. by rewrite processed_app, map_app.
          -- rewrite map_app.
             etransitivity; [|exact (Permutation_app_head (map input_filepath refused) Hloc)].
             solve_Permutation.
        * intros Hne. apply elem_of_app.
          destruct Hextra as [->|Hin']; [|by right].
          left. by apply Hcerr.
    - destruct Hstart as (_ & out & -> & Hp & _). simpl in *. split; [constructor|].
      exists []. simpl. rewrite Ho0, Hp. done. }
  destruct H as [_ (refused & H & Hcerr)]. exists refused. split; [|done].
  simpl in H. rewrite flat_map_map in H.
  assert (Hnil : flat_map (fun _ : wstate => @nil string) (threads s) = []).
  { clear. induction (threads s); simpl; auto. }
  rewrite Hnil, app_nil_r in H. rewrite map_app, <- H. apply Permutation_app_comm.
Qed.

(** X14.  Every section of the log that is opened is closed by the end: in
    every state that the program reaches after the enumeration, the
    sections closed so far ("Processing Ended") together with those of the
    processors that are alive with their log open are the sections opened
    so far ("Processing started").  When [main] has returned 0 every
    opened section is closed, and the opened sections are those of the
    tasks of the batch, except for the tasks whose processor could not open
    the log; if there is such a task, "Could not open the log file" has
    been written on [cerr]. *)
Theorem log_sections_closed_at_exit
  (n : nat) (tasks : list AudioTask) (s0 s : pool) :
  batch_start tasks s0 ->
  closed_sections (trace s0) = [] -> opened_sections (trace s0) = [] ->
  reachable n s0 s ->
  Permutation
    (closed_sections (trace s) ++ map input_filepath (flat_map unclosed (threads s)))
    (opened_sections (trace s)) /\
  (main_pc s = MExit 0 ->
   Permutation (closed_sections (trace s)) (opened_sections (trace s)) /\
   exists refused : list AudioTask,
     Permutation (opened_sections (trace s) ++ map input_filepath refused)
       (map input_filepath tasks) /\
     (refused <> [] -> Cerr "Could not open the log file log.txt" ∈ trace s)).
Proof.
  intros Hstart Hc0 Ho0 Hreach.
  pose proof (sections_balance n tasks s0 s Hstart Hc0 Ho0 Hreach) as Hsec.
  split; [exact Hsec|]. intros Hexit.
  pose proof (reachable_inv n tasks s0 s Hstart Hreach) as Hinv.
  pose proof (inv_joined _ _ _ Hinv) as Hj. rewrite Hexit in Hj.
  assert (Hun : flat_map unclosed (threads s) = [] /\ flat_map started (threads s) = []).
  { clear -Hj. induction Hj as [|w ths -> _ IH]; [done|]. simpl. exact IH. }
  destruct Hun as [Hun Hst]. rewrite Hun in Hsec. simpl in Hsec.
  rewrite app_nil_r in Hsec. split; [exact Hsec|].
  destruct (constructed_balance n tasks s0 s Hstart Ho0 Hreach) as (refused & Hbal & Hcerr).
  exists refused. split; [|exact Hcerr].
  rewrite Hst, app_nil_r in Hbal. rewrite Hbal. apply Permutation_map.
  assert (Hzero : g_active_tasks_count s = 0%Z).
  { apply (inv_drained _ _ _ Hinv). by rewrite Hexit. }
  by destruct (drained_all_processed n tasks s Hinv Hzero) as [H _].
Qed.

Lemma log_sections_closed_at_exit_witness :
  batch_start demo_tasks demo_start /\ closed_sections (trace demo_start) = [] /\
  opened_sections (trace demo_start) = [] /\
  reachable 4 demo_start demo_final /\ main_pc demo_final = MExit 0 /\
  Permutation (closed_sections (trace demo_final)) (opened_sections (trace demo_final)).
Proof.
  assert (Hc : closed_sections (trace demo_start) = []) by (vm_compute; reflexivity).
  assert (Ho : opened_sections (trace demo_start) = []) by (vm_compute; reflexivity).
  assert (Hexit : main_pc demo_final = MExit 0) by (vm_compute; reflexivity).
  split; [exact demo_batch_start|]. split; [exact Hc|]. split; [exact Ho|].
  split; [exact demo_reaches_final|]. split; [exact Hexit|].
  destruct (log_sections_closed_at_exit 4 demo_tasks demo_start demo_final
              demo_batch_start Hc Ho demo_reaches_final) as [_ Hend].
  exact (proj1 (Hend Hexit)).
Defined.

(** ** 24. The directory filter and the enumeration: further properties *)

(** X15.  [isAudioFile] accepts a name exactly when the name, in lower
    case, contains one of the five strings ".wav", ".flac", ".ogg", ".aiff"
    and ".mp3" somewhere, with anything before and after it. *)
Theorem isAudioFile_iff_contains (name : string) :
  isAudioFile name = true <->
  exists ext before after,
    In ext audio_extensions /\
    transform_tolower name = (before ++ ext ++ after)%string.
Proof.
  unfold isAudioFile, audio_extensions. rewrite !orb_true_iff, !rfind_occurs.
  unfold occurs_in. split.
  - intros [[[[H|H]|H]|H]|H]; destruct H as (before & after & H);
      eexists; exists before, after; (split; [|exact H]); simpl; auto 10.
  - intros (ext & before & after & Hin & H). simpl in Hin.
    destruct Hin as [<-|[<-|[<-|[<-|[<-|[]]]]]]; eauto 10.
Qed.

Lemma transform_tolower_app (a b : string) :
  transform_tolower (a ++ b) = (transform_tolower a ++ transform_tolower b)%string.
Proof. induction a as [|c a IH]; simpl; [done|]. by rewrite IH. Qed.

Lemma string_app_nil_r (s : string) : (s ++ "")%string = s.
Proof. induction s as [|c s IH]; simpl; [done|]. by rewrite IH. Qed.

(** X16.  [isAudioFile] rejects no audio file name: every name that ends
    with one of the five extensions, written in any mix of upper and lower
    case, is accepted, whatever stands before the extension. *)
Theorem isAudioFile_accepts_every_extension (base ext : string) :
  In (transform_tolower ext) audio_extensions ->
  isAudioFile (base ++ ext) = true.
Proof.
  intros Hin. apply isAudioFile_occurs.
  exists (transform_tolower ext). split; [done|].
  exists (transform_tolower base), ""%string.
  by rewrite transform_tolower_app, string_app_nil_r.
Qed.

Lemma isAudioFile_accepts_every_extension_witness :
  In (transform_tolower ".WaV") audio_extensions /\
  isAudioFile ("Take 1" ++ ".WaV") = true.
Proof.
  assert (Hin : In (transform_tolower ".WaV") audio_extensions) by (simpl; auto).
  split; [exact Hin|].
  exact (isAudioFile_accepts_every_extension "Take 1" ".WaV" Hin).
Defined.

(** The enumeration from any queue and counter. *)
Lemma enumerate_from input_dir output_dir peak entries (q : list AudioTask) (c : Z) :
  fst (fold_left
         (fun (st : list AudioTask * Z) ent =>
            if eligible ent
            then (fst st ++ [make_task input_dir output_dir peak (d_name ent)],
                  int_wrap (snd st + 1))
            else st)
         entries (q, c))
  = q ++ map (fun ent => make_task input_dir output_dir peak (d_name ent))
           (List.filter eligible entries).
Proof.
  revert q c. induction entries as [|ent entries IH]; intros q c; simpl.
  - by rewrite app_nil_r.
  - destruct (eligible ent); simpl; [|apply IH].
    rewrite IH, <- app_assoc. done.
Qed.

Lemma enumerate_tasks input_dir output_dir peak entries :
  fst (enumerate input_dir output_dir peak entries)
  = map (fun ent => make_task input_dir output_dir peak (d_name ent))
        (List.filter eligible entries).
Proof. unfold enumerate. by rewrite enumerate_from. Qed.

(** X17.  The enumeration pushes one task for every eligible entry of the
    directory and for nothing else, in the order in which [readdir] gives
    the entries; the task of an entry named [name] reads
    [input_dir/name], writes [output_dir/normalised_name] and carries the
    target of the command line; for a directory of fewer than [2^31]
    entries the counter ends as the number of tasks. *)
Theorem enumerate_in_directory_order
  (input_dir output_dir : string) (peak : binary32) (entries : list dirent) :
  fst (enumerate input_dir output_dir peak entries)
  = map (fun ent =>
           {| input_filepath := input_dir ++ "/" ++ d_name ent;
              output_filepath := output_dir ++ "/normalised_" ++ d_name ent;
              filename := d_name ent;
              peak_level := peak |})
        (List.filter eligible entries) /\
  ((Z.of_nat (length entries) <= INT_MAX)%Z ->
   snd (enumerate input_dir output_dir peak entries)
   = Z.of_nat (length (List.filter eligible entries))).
Proof.
  split; [apply enumerate_tasks|].
  intros Hfit.
  destruct (enumerate_count input_dir output_dir peak entries Hfit) as [-> _].
  by rewrite enumerate_tasks, length_map.
Qed.

Lemma enumerate_in_directory_order_witness :
  (Z.of_nat (length demo_entries) <= INT_MAX)%Z /\
  fst (enumerate "in" "out" scenario_target demo_entries)
  = map (fun ent =>
           {| input_filepath := "in" ++ "/" ++ d_name ent;
              output_filepath := "out" ++ "/normalised_" ++ d_name ent;
              filename := d_name ent;
              peak_level := scenario_target |})
        (List.filter eligible demo_entries) /\
  snd (enumerate "in" "out" scenario_target demo_entries)
  = Z.of_nat (length (List.filter eligible demo_entries)).
Proof.
  assert (Hfit : (Z.of_nat (length demo_entries) <= INT_MAX)%Z)
    by (vm_compute; discriminate).
  destruct (enumerate_in_directory_order "in" "out" scenario_target demo_entries)
    as [Htasks Hcount].
  split; [exact Hfit|]. split; [exact Htasks|exact (Hcount Hfit)].
Defined.





(** ** 25. The configuration phase: further properties *)

(** X19.  The program is aborted by the exception of [stof] exactly when a
    third argument is given and is not a number; this happens before
    anything is printed and before any directory is looked at, whatever
    the directories are. *)
Theorem startup_abort_iff (env : environment) :
  startup_main env = StartupAbort <->
  exists prog input_dir output_dir arg rest,
    argv env = prog :: input_dir :: output_dir :: arg :: rest /\
    stof env arg = None.
Proof.
  unfold startup_main. split.
  - destruct (argv env) as [|prog [|input_dir [|output_dir [|arg rest]]]]; try done.
    + destruct (input_stat env) as [[]|]; try done;
        destruct (output_stat env) as [[]|]; try done;
        try destruct (mkdir_ok env); try done;
        destruct (opendir_input env); done.
    + destruct (stof env arg) as [peak|] eqn:Hstof.
      * destruct (input_stat env) as [[]|]; try done;
          destruct (output_stat env) as [[]|]; try done;
          try destruct (mkdir_ok env); try done;
          destruct (opendir_input env); done.
      * intros _. by exists prog, input_dir, output_dir, arg, rest.
  - intros (prog & input_dir & output_dir & arg & rest & -> & ->). done.
Qed.

(** X20.  When the configuration phase succeeds, the pool starts at line
    355 with no thread, the stop flag down and, in its queue, the tasks of
    the eligible entries of the input directory in directory order; every
    task carries the same target: the number read from the third argument,
    or 1.0 when there is none (arguments after the third are not read). *)
Theorem startup_queue (env : environment) (s : pool) :
  startup_main env = StartupPool s ->
  exists prog input_dir output_dir rest peak entries,
    argv env = prog :: input_dir :: output_dir :: rest /\
    match rest with
    | [] => peak = S754_finite false 8388608 (-23)
    | arg :: _ => stof env arg = Some peak
    end /\
    input_stat env = Some S_IFDIR /\
    opendir_input env = Some entries /\
    g_task_queue s
    = map (fun ent => make_task input_dir output_dir peak (d_name ent))
          (List.filter eligible entries) /\
    Forall (fun t => peak_level t = peak) (g_task_queue s) /\
    threads s = [] /\ g_stop_threads s = false /\ main_pc s = MCheck.
Proof.
  unfold startup_main. intros Hstart.
  destruct (argv env) as [|prog [|input_dir [|output_dir rest]]]; try done.
  set (parsed := match rest with [] => Some (Z_to_binary32 1) | a :: _ => stof env a end)
    in Hstart.
  destruct parsed as [peak|] eqn:Hpeak; [|done].
  destruct (input_stat env) as [[]|] eqn:Hin; try done.
  destruct (opendir_input env) as [entries|] eqn:Hdir.
  2:{ destruct (output_stat env) as [[]|]; try done. by destruct (mkdir_ok env). }
  exists prog, input_dir, output_dir, rest, peak, entries.
  split; [done|]. split.
  { unfold parsed in Hpeak. destruct rest; [|done]. by inversion Hpeak. }
  split; [done|]. split; [done|].
  assert (Hq : g_task_queue s
               = map (fun ent => make_task input_dir output_dir peak (d_name ent))
                     (List.filter eligible entries)
               /\ threads s = [] /\ g_stop_threads s = false /\ main_pc s = MCheck).
  { destruct (output_stat env) as [[]|]; try done;
      try (destruct (mkdir_ok env); [|done]);
      inversion Hstart; subst s; simpl; by rewrite enumerate_tasks. }
  destruct Hq as (Hq & Hths & Hstop & Hpc).
  split; [done|]. split; [|done].
  rewrite Hq. apply Forall_forall. intros t Ht.
  apply list_elem_of_In, in_map_iff in Ht as (ent & <- & _). done.
Qed.

Lemma startup_queue_witness :
  startup_main demo_env = StartupPool demo_start /\
  exists prog input_dir output_dir rest peak entries,
    argv demo_env = prog :: input_dir :: output_dir :: rest /\
    match rest with
    | [] => peak = S754_finite false 8388608 (-23)
    | arg :: _ => stof demo_env arg = Some peak
    end /\
    input_stat demo_env = Some S_IFDIR /\
    opendir_input demo_env = Some entries /\
    g_task_queue demo_start
    = map (fun ent => make_task input_dir output_dir peak (d_name ent))
          (List.filter eligible entries) /\
    Forall (fun t => peak_level t = peak) (g_task_queue demo_start) /\
    threads demo_start = [] /\ g_stop_threads demo_start = false /\
    main_pc demo_start = MCheck.
Proof.
  split; [exact demo_startup|].
  exact (startup_queue demo_env demo_start demo_startup).
Defined.

Lemma startup_abort_iff_witness : startup_main bad_peak_env = StartupAbort.
Proof.
  apply (proj2 (startup_abort_iff bad_peak_env)).
  exists "audio_normalizer"%string, "in"%string, "out"%string, "loud"%string, [].
  split; reflexivity.
Defined.

(** ** 26. The same recording at another gain *)

Section Gain32.
Local Open Scope R_scope.

(** A number within the relative error [u] of [b] is [b] times a factor
    within [u] of one. *)
Lemma rel_close_factor (u a b : R) :
  0 <= u -> rel_close u a b -> exists d, Rabs d <= u /\ a = b * (1 + d).
Proof.
  intros Hu H. unfold rel_close in H.
  destruct (Req_dec_T b 0) as [->|Hb].
  - exists 0. rewrite Rabs_R0 in *. split; [lra|].
    rewrite Rminus_0_r, Rmult_0_r in H.
    pose proof (Rabs_pos a). assert (Ha : Rabs a = 0) by lra.
    destruct (Req_dec_T a 0) as [->|Hne]; [ring|].
    by apply Rabs_no_R0 in Hne.
  - exists ((a - b) / b). split; [|field; done].
    unfold Rdiv. rewrite Rabs_mult, Rabs_inv.
    pose proof (Rabs_pos_lt b Hb) as Hpos.
    apply (Rmult_le_reg_r (Rabs b)); [done|].
    rewrite Rmult_assoc, Rinv_l by lra. lra.
Qed.

Lemma factor_bounds (u d : R) : Rabs d <= u -> 1 - u <= 1 + d <= 1 + u.
Proof. intros H. apply Rabs_le_bounds in H. lra. Qed.

(** Three roundings against one: the quotient of three factors by one
    stays within five units of one. *)
Lemma four_factors (a b c t : R) :
  let u := / 16777216 in
  1 - u <= a <= 1 + u -> 1 - u <= b <= 1 + u -> 1 - u <= c <= 1 + u ->
  1 - u <= t <= 1 + u ->
  1 - 4 * u <= a * b * c / t <= 1 + 5 * u.
Proof.
  intros u Ha Hb Hc Ht. unfold u in *.
  assert (Hab : (1 - / 16777216) * (1 - / 16777216) <= a * b
                <= (1 + / 16777216) * (1 + / 16777216)).
  { split; apply Rmult_le_compat; lra. }
  assert (Habc : (1 - / 16777216) * (1 - / 16777216) * (1 - / 16777216) <= a * b * c
                 <= (1 + / 16777216) * (1 + / 16777216) * (1 + / 16777216)).
  { split; apply Rmult_le_compat; lra. }
  assert (Htpos : 0 < t) by lra.
  split.
  - apply (Rmult_le_reg_r t); [done|].
    unfold Rdiv. rewrite Rmult_assoc, Rinv_l by lra. rewrite Rmult_1_r.
    apply Rle_trans with ((1 - 4 * / 16777216) * (1 + / 16777216)); [|lra].
    apply Rmult_le_compat_l; lra.
  - apply (Rmult_le_reg_r t); [done|].
    unfold Rdiv. rewrite Rmult_assoc, Rinv_l by lra. rewrite Rmult_1_r.
    apply Rle_trans with ((1 + 5 * / 16777216) * (1 - / 16777216)); [lra|].
    apply Rmult_le_compat_l; lra.
Qed.

(** The real-number core of the comparison: the same sample at two gains,
    each normalised with its own rounded factor. *)
Lemma gain_real (g T p p' f f' x x' y y' : R) :
  let u := / 16777216 in
  0 < g -> 0 < p ->
  Rabs (p' - g * p) <= u * Rabs (g * p) ->
  Rabs (f - T / p) <= u * Rabs (T / p) ->
  Rabs (f' - T / p') <= u * Rabs (T / p') ->
  Rabs (x' - g * x) <= u * Rabs (g * x) ->
  Rabs (y - x * f) <= u * Rabs (x * f) ->
  Rabs (y' - x' * f') <= u * Rabs (x' * f') ->
  Rabs (y' - y) <= / 2097152 * Rabs y.
Proof.
  intros u Hg Hp Hp' Hf Hf' Hx Hy Hy'.
  assert (Hu : 0 <= u) by (unfold u; lra).
  destruct (rel_close_factor u p' (g * p) Hu Hp') as (t & Ht & ->).
  destruct (rel_close_factor u f (T / p) Hu Hf) as (e1 & He1 & ->).
  destruct (rel_close_factor u x' (g * x) Hu Hx) as (d & Hd & ->).
  destruct (rel_close_factor u y _ Hu Hy) as (e2 & He2 & ->).
  apply factor_bounds in Ht, He1, Hd, He2.
  assert (Htpos : 0 < 1 + t) by (unfold u in *; lra).
  destruct (rel_close_factor u f' _ Hu Hf') as (e1' & He1' & ->).
  destruct (rel_close_factor u y' _ Hu Hy') as (e2' & He2' & ->).
  apply factor_bounds in He1', He2'.
  set (K := x * T / p).
  set (A := (1 + d) * (1 + e1') * (1 + e2') / (1 + t)).
  set (B := (1 + e1) * (1 + e2)).
  assert (Hy'eq : g * x * (1 + d) * (T / (g * p * (1 + t)) * (1 + e1')) * (1 + e2') = K * A).
  { unfold K, A. field. lra. }
  assert (Hyeq : x * (T / p * (1 + e1)) * (1 + e2) = K * B).
  { unfold K, B. field. lra. }
  rewrite Hy'eq, Hyeq.
  replace (K * A - K * B) with (K * (A - B)) by ring.
  rewrite !Rabs_mult, <- Rmult_assoc, (Rmult_comm (/ 2097152)), Rmult_assoc.
  apply Rmult_le_compat_l; [apply Rabs_pos|].
  pose proof (four_factors (1 + d) (1 + e1') (1 + e2') (1 + t) Hd He1' He2' Ht) as HA.
  fold A in HA. cbv zeta in HA.
  assert (HB : (1 - / 16777216) * (1 - / 16777216) <= B
               <= (1 + / 16777216) * (1 + / 16777216)).
  { unfold B, u in *. split; apply Rmult_le_compat; lra. }
  rewrite (Rabs_right B) by lra.
  apply Rabs_le. lra.
Qed.


(** A buffer whose peak is [0.0f] holds no sample that is not zero. *)
Lemma peak_zero_all_zero (audio_data : list binary32) :
  Forall (fun x => zero_or_normal x = true) audio_data ->
  SFeqb (peak_magnitude audio_data) (S754_zero false) = true ->
  Forall (fun x => B2R x = 0) audio_data.
Proof.
  intros Hall Hz.
  destruct (peak_magnitude_spec audio_data Hall) as (Hzn & _ & _ & Hle).
  assert (Hp : B2R (peak_magnitude audio_data) = 0).
  { destruct (peak_magnitude audio_data) as [s| | |s m e]; try reflexivity.
    by destruct s. }
  eapply Forall_impl; [exact Hle|]. intros x Hx. simpl in Hx.
  rewrite Hp in Hx. pose proof (Rabs_pos (B2R x)).
  destruct (Req_dec_T (B2R x) 0) as [H0|Hne]; [done|].
  apply Rabs_pos_lt in Hne. lra.
Qed.

Lemma Forall2_elem_of_l {A B : Type} (P : A -> B -> Prop) (l : list A) (k : list B) x :
  Forall2 P l k -> x ∈ l -> exists y, y ∈ k /\ P x y.
Proof.
  intros H Hx. apply list_elem_of_lookup in Hx as [i Hi].
  destruct (Forall2_lookup_l P l k i x H Hi) as (y & Hy & HP).
  exists y. split; [by eapply list_elem_of_lookup_2|done].
Qed.

Lemma Forall2_elem_of_r {A B : Type} (P : A -> B -> Prop) (l : list A) (k : list B) y :
  Forall2 P l k -> y ∈ k -> exists x, x ∈ l /\ P x y.
Proof.
  intros H Hy. apply list_elem_of_lookup in Hy as [i Hi].
  destruct (Forall2_lookup_r P l k i y H Hi) as (x & Hx & HP).
  exists x. split; [by eapply list_elem_of_lookup_2|done].
Qed.

(** The factor and the products of a normalisation of samples and a
    target of moderate size. *)
Lemma normalizePeak_float_products (audio_data : list binary32) (target_peak : binary32) :
  Forall (fun x => sample_in_range x = true) audio_data ->
  moderate32 target_peak = true ->
  SFeqb (peak_magnitude audio_data) (S754_zero false) = false ->
  let peak := peak_magnitude audio_data in
  let factor := SFdiv prec32 emax32 target_peak peak in
  0 < B2R peak /\
  (exists x, x ∈ audio_data /\ Rabs (B2R x) = B2R peak) /\
  Forall (fun x => Rabs (B2R x) <= B2R peak) audio_data /\
  rel_close u32 (B2R factor) (B2R target_peak / B2R peak) /\
  Forall (fun x => rel_close u32 (B2R (SFmul prec32 emax32 x factor))
                     (B2R x * B2R factor)) audio_data.
Proof.
  intros Hall HT Hne. cbv zeta.
  destruct (normalizePeak_float_reaches_target audio_data target_peak Hall HT Hne)
    as (Hep & _).
  pose proof HT as HT'. apply moderate32_inv in HT' as [HnT HeT].
  assert (Hzn : Forall (fun x => zero_or_normal x = true) audio_data).
  { eapply Forall_impl; [exact Hall|]. intros x Hx. by apply sample_in_range_inv. }
  destruct (normalization_factor_spec audio_data target_peak Hzn HnT Hne ltac:(lia))
    as (Hp & Hppos & (x & Hx & _ & Hxp & _) & Hf & Hef & _ & Hfrel).
  destruct (peak_magnitude_spec audio_data Hzn) as (_ & _ & _ & Hle).
  split; [done|]. split; [by exists x|]. split; [done|]. split; [done|].
  rewrite Forall_forall in Hall. apply Forall_forall. intros s Hs.
  destruct (sample_in_range_inv s (Hall s Hs)) as [Hzs Hes].
  destruct (SFmul_sample s _ Hzs Hf) as (_ & _ & Hrel); [|done].
  intros Hns. specialize (Hes Hns). lia.
Qed.

(** X22.  The same recording at another gain is normalised to the same
    samples, up to rounding: when every sample of a second buffer is a
    positive gain times the sample of the first (itself within one
    rounding), and the samples of both buffers and the target are of
    moderate size, the two normalised buffers agree sample by sample within
    the relative error [2^-21], in the arithmetic of [float]. *)
Theorem normalizePeak_gain_invariant
  (audio_data amplified : list binary32) (gain : R) (target_peak : binary32) :
  0 < gain ->
  Forall (fun x => sample_in_range x = true) audio_data ->
  Forall (fun x => sample_in_range x = true) amplified ->
  Forall2 (fun x' x => rel_close u32 (B2R x') (gain * B2R x)) amplified audio_data ->
  moderate32 target_peak = true ->
  SFeqb (peak_magnitude audio_data) (S754_zero false) = false ->
  Forall2 (fun y' y => rel_close sample_tolerance (B2R y') (B2R y))
    (fst (normalizePeak amplified target_peak))
    (fst (normalizePeak audio_data target_peak)).
Proof.
  intros Hg Hall Hall' Hgain HT Hne.
  destruct (normalizePeak_float_products audio_data target_peak Hall HT Hne)
    as (Hp & (xj & Hxj & Hxjp) & Hle & Hf & Hy).
  assert (Hu : u32 = / 16777216) by apply u32_value.
  assert (Hzn' : Forall (fun x => zero_or_normal x = true) amplified).
  { eapply Forall_impl; [exact Hall'|]. intros x Hx. by apply sample_in_range_inv. }
  (* the amplified buffer is not silent *)
  destruct (Forall2_elem_of_r _ _ _ xj Hgain Hxj) as (xj' & Hxj' & Hrelj).
  assert (Hxj'pos : gain * B2R (peak_magnitude audio_data) * (1 - u32)
                    <= Rabs (B2R xj')).
  { apply rel_close_abs in Hrelj. rewrite Rabs_mult, (Rabs_right gain), Hxjp in Hrelj by lra.
    lra. }
  assert (Hgp : 0 < gain * B2R (peak_magnitude audio_data)) by (apply Rmult_lt_0_compat; lra).
  assert (Hne' : SFeqb (peak_magnitude amplified) (S754_zero false) = false).
  { destruct (SFeqb (peak_magnitude amplified) (S754_zero false)) eqn:Hz; [|done].
    pose proof (peak_zero_all_zero amplified Hzn' Hz) as H0.
    rewrite Forall_forall in H0. rewrite (H0 xj' Hxj'), Rabs_R0 in Hxj'pos.
    rewrite Hu in Hxj'pos. nra. }
  destruct (normalizePeak_float_products amplified target_peak Hall' HT Hne')
    as (Hp' & (xm' & Hxm' & Hxmp') & Hle' & Hf' & Hy').
  (* the peak of the amplified buffer is the gain times the peak *)
  assert (Hpeak : Rabs (B2R (peak_magnitude amplified)
                        - gain * B2R (peak_magnitude audio_data))
                  <= / 16777216 * Rabs (gain * B2R (peak_magnitude audio_data))).
  { rewrite (Rabs_right (gain * _)) by lra.
    destruct (Forall2_elem_of_l _ _ _ xm' Hgain Hxm') as (xm & Hxm & Hrelm).
    apply rel_close_abs in Hrelm.
    rewrite Rabs_mult, (Rabs_right gain), Hxmp' in Hrelm by lra.
    rewrite Forall_forall in Hle, Hle'.
    pose proof (Hle xm Hxm) as Hxmle. pose proof (Hle' xj' Hxj') as Hxjle.
    assert (Hgx : gain * Rabs (B2R xm) <= gain * B2R (peak_magnitude audio_data)).
    { apply Rmult_le_compat_l; lra. }
    rewrite Hu in *. apply Rabs_le. nra. }
  rewrite (normalizePeak_float_scaled audio_data target_peak Hne).
  rewrite (normalizePeak_float_scaled amplified target_peak Hne').
  apply Forall2_fmap. 
  assert (Hst : sample_tolerance = / 2097152)
    by (unfold sample_tolerance, pow2; simpl; lra).
  rewrite Forall_forall in Hy, Hy'.
  apply Forall2_same_length_lookup. split; [by eapply Forall2_length|].
  intros i x' x Hx' Hx.
  pose proof (Forall2_lookup_lr _ _ _ i x' x Hgain Hx' Hx) as Hrel. simpl in Hrel.
  assert (Hin : x ∈ audio_data) by (by eapply list_elem_of_lookup_2).
  assert (Hin' : x' ∈ amplified) by (by eapply list_elem_of_lookup_2).
  pose proof (Hy x Hin) as Hyx. pose proof (Hy' x' Hin') as Hyx'.
  unfold rel_close in *. rewrite Hst. rewrite Hu in *.
  exact (gain_real gain (B2R target_peak) (B2R (peak_magnitude audio_data))
           (B2R (peak_magnitude amplified)) _ _ (B2R x) (B2R x') _ _
           Hg Hp Hpeak Hf Hf' Hrel Hyx Hyx').
Qed.

Lemma B2R_double32 (x : binary32) : B2R (double32 x) = 2 * B2R x.
Proof.
  destruct x as [s| | |s m e]; simpl; try lra.
  rewrite pow2_succ. ring.
Qed.

Lemma normalizePeak_gain_invariant_witness :
  0 < 2 /\
  Forall (fun x => sample_in_range x = true) scenario_buffer /\
  Forall (fun x => sample_in_range x = true) doubled_buffer /\
  Forall2 (fun x' x => rel_close u32 (B2R x') (2 * B2R x)) doubled_buffer scenario_buffer /\
  moderate32 scenario_target = true /\
  SFeqb (peak_magnitude scenario_buffer) (S754_zero false) = false /\
  Forall2 (fun y' y => rel_close sample_tolerance (B2R y') (B2R y))
    (fst (normalizePeak doubled_buffer scenario_target))
    (fst (normalizePeak scenario_buffer scenario_target)).
Proof.
  assert (Hg : 0 < 2) by lra.
  assert (Hall : Forall (fun x => sample_in_range x = true) scenario_buffer)
    by (repeat constructor).
  assert (Hall' : Forall (fun x => sample_in_range x = true) doubled_buffer)
    by (repeat constructor).
  assert (Hgain : Forall2 (fun x' x => rel_close u32 (B2R x') (2 * B2R x))
                    doubled_buffer scenario_buffer).
  { unfold doubled_buffer. apply Forall2_fmap_l, Forall_Forall2_diag, Forall_forall.
    intros x _. unfold compose, rel_close.
    rewrite B2R_double32, Rminus_diag, Rabs_R0.
    apply Rmult_le_pos; [unfold u32; pose proof (pow2_pos (-24)); lra|apply Rabs_pos]. }
  assert (HT : moderate32 scenario_target = true) by (vm_compute; reflexivity).
  assert (Hp : SFeqb (peak_magnitude scenario_buffer) (S754_zero false) = false)
    by (vm_compute; reflexivity).
  split; [exact Hg|]. split; [exact Hall|]. split; [exact Hall'|].
  split; [exact Hgain|]. split; [exact HT|]. split; [exact Hp|].
  exact (normalizePeak_gain_invariant scenario_buffer doubled_buffer 2 scenario_target
           Hg Hall Hall' Hgain HT Hp).
Defined.

End Gain32.

(** ** 27. A log that does not open *)

Lemma filter_not_logged_map_Log file lines :
  List.filter not_logged (map (Log file) lines) = [].
Proof. induction lines; simpl; auto. Qed.

Lemma written_not_logged (out : list event) :
  written (List.filter not_logged out) = written out.
Proof.
  induction out as [|ev out IH]; [done|].
  destruct ev; simpl; rewrite ?IH; done.
Qed.

Lemma processed_not_logged (out : list event) :
  processed (List.filter not_logged out) = processed out.
Proof.
  induction out as [|ev out IH]; [done|].
  destruct ev; simpl; rewrite ?IH; done.
Qed.

(** X23.  A log file that cannot be opened stops nothing: the constructor
    complains once on [cerr], every call of [log] and the destructor write
    nothing, and the task is processed as with a log: the same file is
    written with the same samples and the same console line is printed.
    When the log opens, the processor writes what the pool takes as the
    pipeline of the task, and then the closing line of its section. *)
Theorem process_task_without_log (io : codec) (t : AudioTask) :
  process_task true io t
  = run_pipeline io t
    ++ [Log (input_filepath t) (Text ("Processing Ended for " ++ input_filepath t))] /\
  process_task false io t
  = Cerr "Could not open the log file log.txt"
    :: List.filter not_logged (run_pipeline io t) /\
  written (process_task false io t) = written (run_pipeline io t) /\
  processed (process_task false io t) = [t] /\
  Forall (fun ev => not_logged ev = true) (process_task false io t).
Proof.
  assert (Hoff : process_task false io t
                 = Cerr "Could not open the log file log.txt"
                   :: List.filter not_logged (run_pipeline io t)).
  { unfold process_task, run_pipeline, pipeline_writes, destructor_writes, log_lines,
      constructor_writes.
    rewrite app_nil_r. cbn [app]. f_equal.
    change (List.filter not_logged (Log ?file ?line :: ?rest))
      with (List.filter not_logged rest).
    destruct (loaded io) as [data|]; [|reflexivity].
    rewrite List.filter_app, filter_not_logged_map_Log.
    destruct (save_ok io); reflexivity. }
  split; [reflexivity|]. split; [exact Hoff|].
  rewrite Hoff. split; [|split].
  - change (written (Cerr ?msg :: ?rest)) with (written rest).
    apply written_not_logged.
  - change (processed (Cerr ?msg :: ?rest)) with (processed rest).
    rewrite processed_not_logged. apply processed_run_pipeline.
  - constructor; [done|]. apply Forall_forall. intros ev Hev.
    by apply list_elem_of_In, filter_In in Hev as [_ Hev].
Qed.

(** ** 28. Samples and targets that are not numbers *)

(** [std::min_element] and [std::max_element] on floats: the result is a
    NaN exactly when the first element is one (a NaN is smaller and larger
    than nothing, and nothing is smaller or larger than it). *)
Lemma min_element_from_nan (smallest : binary32) (rest : list binary32) :
  is_nan32 (min_element_from smallest rest) = is_nan32 smallest.
Proof.
  revert smallest. induction rest as [|x rest IH]; intros smallest; simpl; [done|].
  rewrite IH. destruct (SFltb x smallest) eqn:Hlt; [|done].
  apply SFltb_not_nan in Hlt as [-> ->]. done.
Qed.

Lemma max_element_from_nan (largest : binary32) (rest : list binary32) :
  is_nan32 (max_element_from largest rest) = is_nan32 largest.
Proof.
  revert largest. induction rest as [|x rest IH]; intros largest; simpl; [done|].
  rewrite IH. destruct (SFltb largest x) eqn:Hlt; [|done].
  apply SFltb_not_nan in Hlt as [-> ->]. done.
Qed.

Lemma is_nan32_eq (x : binary32) : is_nan32 x = true -> x = S754_nan.
Proof. by destruct x. Qed.

(** The sum of squares is a NaN as soon as one sample is. *)
Lemma sum_squares_from_nan (audio_data : list binary32) :
  fold_left (fun acc sample => SFadd prec32 emax32 acc (SFmul prec32 emax32 sample sample))
            audio_data S754_nan = S754_nan.
Proof. induction audio_data as [|x l IH]; simpl; [done|]. exact IH. Qed.

Lemma sum_squares_nan (audio_data : list binary32) :
  (exists x, x ∈ audio_data /\ is_nan32 x = true) ->
  sum_squares audio_data = S754_nan.
Proof.
  unfold sum_squares. simpl. generalize (S754_zero false) as acc.
  induction audio_data as [|y l IH]; intros acc (x & Hx & Hnan).
  - by apply elem_of_nil in Hx.
  - simpl. apply elem_of_cons in Hx as [->|Hx].
    + apply is_nan32_eq in Hnan as ->.
      replace (SFadd prec32 emax32 acc (SFmul prec32 emax32 S754_nan S754_nan))
        with S754_nan by (by destruct acc).
      apply sum_squares_from_nan.
    + apply IH. by exists x.
Qed.

(** X24.  A NaN among the samples spoils the statistics: the minimum that
    [printStats] logs is a NaN exactly when the first sample is one, and so
    is the maximum; with a NaN in first place the peak it logs is a NaN
    too (while the scan of [normalizePeak] passes over the same sample);
    and with a NaN anywhere the RMS is a NaN and the peak-to-RMS ratio is
    the sentinel [0.0f]. *)
Theorem printStats_with_nan (first : binary32) (rest : list binary32) (title : string) :
  exists min_val max_val peak rms ratio,
    logged_values (printStats (first :: rest) title)
    = [min_val; max_val; peak; rms; ratio] /\
    is_nan32 min_val = is_nan32 first /\ is_nan32 max_val = is_nan32 first /\
    (is_nan32 first = true -> is_nan32 peak = true) /\
    ((exists x, x ∈ first :: rest /\ is_nan32 x = true) ->
     rms = S754_nan /\ ratio = S754_zero false).
Proof.
  set (size := Z_to_binary32 (Z.of_nat (length (first :: rest)))).
  exists (min_element_from first rest), (max_element_from first rest),
    (std_max (SFabs (min_element_from first rest)) (SFabs (max_element_from first rest))),
    (SFsqrt prec32 emax32 (SFdiv prec32 emax32 (sum_squares (first :: rest)) size)),
    (if SFltb (S754_zero false)
          (SFsqrt prec32 emax32 (SFdiv prec32 emax32 (sum_squares (first :: rest)) size))
     then SFdiv prec32 emax32
            (std_max (SFabs (min_element_from first rest))
                     (SFabs (max_element_from first rest)))
            (SFsqrt prec32 emax32 (SFdiv prec32 emax32 (sum_squares (first :: rest)) size))
     else S754_zero false).
  split; [reflexivity|].
  split; [apply min_element_from_nan|]. split; [apply max_element_from_nan|].
  split.
  - intros Hnan.
    pose proof (min_element_from_nan first rest) as Hmin.
    pose proof (max_element_from_nan first rest) as Hmax.
    rewrite Hnan in Hmin, Hmax.
    apply is_nan32_eq in Hmin as ->. apply is_nan32_eq in Hmax as ->. done.
  - intros Hex. rewrite (sum_squares_nan _ Hex). done.
Qed.

Lemma printStats_with_nan_witness :
  exists min_val max_val peak rms ratio,
    logged_values (printStats nan_first_buffer "")
    = [min_val; max_val; peak; rms; ratio] /\
    is_nan32 min_val = true /\ is_nan32 max_val = true /\ is_nan32 peak = true /\
    rms = S754_nan /\ ratio = S754_zero false.
Proof.
  destruct (printStats_with_nan S754_nan [ratio32 1 2; ratio32 (-1) 4] "")
    as (mn & mx & peak & rms & ratio & Hlog & Hmn & Hmx & Hpk & Hrms).
  exists mn, mx, peak, rms, ratio.
  split; [exact Hlog|]. split; [exact Hmn|]. split; [exact Hmx|].
  split; [exact (Hpk eq_refl)|].
  apply Hrms. exists S754_nan. split; [apply list_elem_of_here|reflexivity].
Defined.

(** With an infinite sample the scan ends at [+infinity]. *)
Lemma peak_magnitude_infinite (audio_data : list binary32) :
  (exists x, x ∈ audio_data /\ is_inf32 x = true) ->
  peak_magnitude audio_data = S754_infinity false.
Proof.
  intros (x & Hx & Hinf).
  destruct (peak_scan_any audio_data (S754_zero false) eq_refl eq_refl)
    as (Hnan & Hsign & _ & _ & Hle).
  change (fold_left _ audio_data (S754_zero false))
    with (peak_magnitude audio_data) in Hnan, Hsign, Hle.
  specialize (Hle x Hx).
  destruct x as [| sx | |]; try done. simpl in Hle.
  destruct (peak_magnitude audio_data) as [s|[]| |[] m e]; done.
Qed.

(** X25.  One infinite sample wipes the buffer: when a sample is
    [+infinity] or [-infinity] and the target is a finite number, the peak
    is infinite, the factor is zero, and [normalizePeak] turns every finite
    sample into a zero and every infinite or NaN sample into a NaN. *)
Theorem normalizePeak_infinite_sample
  (audio_data : list binary32) (target_peak : binary32) :
  (exists x, x ∈ audio_data /\ is_inf32 x = true) ->
  is_nan32 target_peak = false -> is_inf32 target_peak = false ->
  Forall2 (fun x y =>
             if is_nan32 x || is_inf32 x then y = S754_nan else is_zero32 y = true)
    audio_data (fst (normalizePeak audio_data target_peak)).
Proof.
  intros Hinf Hnan Hfin.
  pose proof (peak_magnitude_infinite audio_data Hinf) as Hpeak.
  rewrite (normalizePeak_float_scaled audio_data target_peak)
    by (by rewrite Hpeak).
  rewrite Hpeak.
  apply Forall2_fmap_r, Forall_Forall2_diag, Forall_forall. intros x _.
  destruct target_peak as [st| | |st mt et]; try done;
    destruct x as [sx|sx| |sx mx ex]; done.
Qed.

Lemma normalizePeak_infinite_sample_witness :
  (exists x, x ∈ infinite_buffer /\ is_inf32 x = true) /\
  is_nan32 scenario_target = false /\ is_inf32 scenario_target = false /\
  Forall2 (fun x y =>
             if is_nan32 x || is_inf32 x then y = S754_nan else is_zero32 y = true)
    infinite_buffer (fst (normalizePeak infinite_buffer scenario_target)).
Proof.
  assert (Hinf : exists x, x ∈ infinite_buffer /\ is_inf32 x = true).
  { exists (S754_infinity true). split; [|reflexivity].
    apply list_elem_of_further, list_elem_of_here. }
  assert (Hnan : is_nan32 scenario_target = false) by (vm_compute; reflexivity).
  assert (Hfin : is_inf32 scenario_target = false) by (vm_compute; reflexivity).
  split; [exact Hinf|]. split; [exact Hnan|]. split; [exact Hfin|].
  exact (normalizePeak_infinite_sample infinite_buffer scenario_target Hinf Hnan Hfin).
Defined.

(** X26.  The target is not checked: when the peak of the buffer is not
    zero, a NaN target turns every sample into a NaN; and for finite
    samples an infinite target turns every sample that is not zero into an
    infinity (of the sign of the sample times the sign of the target) and
    every zero into a NaN. *)
Theorem normalizePeak_unchecked_target
  (audio_data : list binary32) (target_peak : binary32) :
  SFeqb (peak_magnitude audio_data) (S754_zero false) = false ->
  (is_nan32 target_peak = true ->
   Forall (fun y => y = S754_nan) (fst (normalizePeak audio_data target_peak))) /\
  (is_inf32 target_peak = true ->
   Forall (fun x => finite32 x = true) audio_data ->
   Forall2 (fun x y =>
              if is_zero32 x then y = S754_nan
              else y = S754_infinity (xorb (sign32 x) (sign32 target_peak)))
     audio_data (fst (normalizePeak audio_data target_peak))).
Proof.
  intros Hpeak.
  rewrite (normalizePeak_float_scaled audio_data target_peak Hpeak).
  split.
  - intros HT. apply is_nan32_eq in HT as ->.
    apply Forall_forall. intros y Hy.
    apply list_elem_of_fmap in Hy as (x & -> & _).
    destruct (peak_magnitude audio_data); by destruct x.
  - intros HT Hall.
    destruct (peak_magnitude_finite audio_data Hall) as (Hfin & Hsign & _).
    destruct target_peak as [|st| |]; try done.
    destruct (peak_magnitude audio_data) as [sp| | |sp mp ep]; try done.
    simpl in Hsign. subst sp.
    apply Forall2_fmap_r, Forall_Forall2_diag.
    eapply Forall_impl; [exact Hall|]. intros x Hx.
    destruct x as [sx| | |sx mx ex]; try done.
    simpl. by rewrite xorb_false_r.
Qed.

Lemma normalizePeak_unchecked_target_witness :
  SFeqb (peak_magnitude scenario_buffer) (S754_zero false) = false /\
  Forall (fun y => y = S754_nan) (fst (normalizePeak scenario_buffer S754_nan)) /\
  Forall (fun x => finite32 x = true) scenario_buffer /\
  Forall2 (fun x y =>
             if is_zero32 x then y = S754_nan
             else y = S754_infinity (xorb (sign32 x) (sign32 (S754_infinity true))))
    scenario_buffer (fst (normalizePeak scenario_buffer (S754_infinity true))).
Proof.
  assert (Hp : SFeqb (peak_magnitude scenario_buffer) (S754_zero false) = false)
    by (vm_compute; reflexivity).
  assert (Hall : Forall (fun x => finite32 x = true) scenario_buffer)
    by (repeat constructor).
  split; [exact Hp|].
  split; [exact (proj1 (normalizePeak_unchecked_target scenario_buffer S754_nan Hp) eq_refl)|].
  split; [exact Hall|].
  exact (proj2 (normalizePeak_unchecked_target scenario_buffer (S754_infinity true) Hp)
           eq_refl Hall).
Defined.

(** ** 29. The root mean square in [float] *)

Section Round32.
Local Open Scope Z_scope.

(** The rounding of a positive integer mantissa of at least 24 digits: a
    positive normal float within the unit roundoff of the value. *)
Lemma round_positive (m : positive) (d e : Z) :
  24 <= d -> 2 ^ (d - 1) <= Z.pos m < 2 ^ d ->
  -149 <= e + d - 24 -> e + d - 24 <= 103 ->
  let r := binary_round_aux prec32 emax32 false (Z.pos m) e loc_Exact in
  normal32 r = true /\ sign32 r = false /\
  e + d - 24 <= exponent32 r <= e + d - 23 /\
  rel_close u32 (B2R r) (IZR (Z.pos m) * pow2 e).
Proof.
  intros Hd Hm Hlo Hhi r.
  set (x := (IZR (Z.pos m) * pow2 e)%R).
  destruct (binary_round_aux_normal false (Z.pos m) d e loc_Exact x)
    as (m' & e' & Hr & Hm' & He' & Herr); try lia.
  { unfold brackets. simpl. pose proof (pow2_pos e). unfold x. lra. }
  unfold r. rewrite Hr.
  split; [apply normal32_intro; lia|]. split; [done|]. split; [simpl; lia|].
  assert (Hx : (pow2 (d - 1) * pow2 e <= x)%R).
  { unfold x. apply Rmult_le_compat_r; [apply Rlt_le, pow2_pos|].
    rewrite pow2_IZR by lia. apply IZR_le. lia. }
  pose proof (half_ulp_relative d e x _ Hx Herr) as Hrel.
  assert (Hxpos : (0 < x)%R).
  { pose proof (pow2_pos (d - 1)). pose proof (pow2_pos e). nra. }
  unfold rel_close. simpl B2R. rewrite Rmult_1_l, (Rabs_right x) by lra. done.
Qed.

(** The number of binary digits of a positive integer. *)
Lemma digits_exists (m : positive) :
  exists d, 1 <= d /\ 2 ^ (d - 1) <= Z.pos m < 2 ^ d /\ Zdigits2 (Z.pos m) = d.
Proof.
  pose proof (digits2_pos_spec m) as H.
  exists (Z.pos (digits2_pos m)). split; [lia|]. split; [done|]. reflexivity.
Qed.

Lemma shl_align_value (m : positive) (e ez : Z) :
  ez <= e ->
  Z.pos (fst (shl_align m e ez)) = Z.pos m * 2 ^ (e - ez) /\
  snd (shl_align m e ez) = ez.
Proof.
  intros Hle. unfold shl_align.
  destruct (ez - e) as [|k|k] eqn:Hk; try lia.
  - replace (e - ez) with 0 by lia. simpl. split; lia.
  - cbn [fst snd]. split; [|done].
    pose proof (iter_xO_value (Pos.to_nat k) m) as Hv. rewrite positive_nat_Z in Hv.
    rewrite Pos2Nat.inj_iter. etransitivity; [exact Hv|]. f_equal. f_equal. lia.
Qed.


Lemma pow2_lt_inv (a b : Z) : (pow2 a < pow2 b)%R -> a < b.
Proof.
  intros H. destruct (Z_lt_le_dec a b) as [|Hge]; [done|].
  pose proof (pow2_le b a Hge). lra.
Qed.

Lemma B2R_positive (m : positive) (e : Z) :
  B2R (S754_finite false m e) = (IZR (Z.pos m) * pow2 e)%R.
Proof. simpl. lra. Qed.

(** The sum of two positive normal floats, when it does not overflow: a
    positive normal float within the unit roundoff of the exact sum. *)
Lemma SFadd_normal_pos (a b : binary32) :
  normal32 a = true -> normal32 b = true ->
  sign32 a = false -> sign32 b = false ->
  (B2R a + B2R b < pow2 127)%R ->
  normal32 (SFadd prec32 emax32 a b) = true /\
  sign32 (SFadd prec32 emax32 a b) = false /\
  Z.max (exponent32 a) (exponent32 b) <= exponent32 (SFadd prec32 emax32 a b) /\
  rel_close u32 (B2R (SFadd prec32 emax32 a b)) (B2R a + B2R b).
Proof.
  intros Ha Hb Hsa Hsb Hsum.
  apply normal32_inv in Ha as (sa & ma & ea & -> & Hma & Hea).
  apply normal32_inv in Hb as (sb & mb & eb & -> & Hmb & Heb).
  simpl in Hsa, Hsb. subst sa sb. rewrite !B2R_positive in *.
  unfold SFadd. cbn [cond_Zopp].
  set (ez := Z.min ea eb).
  destruct (shl_align_value ma ea ez ltac:(lia)) as [Hva _].
  destruct (shl_align_value mb eb ez ltac:(lia)) as [Hvb _].
  set (pa := fst (shl_align ma ea ez)) in *.
  set (pb := fst (shl_align mb eb ez)) in *.
  change (Z.pos pa + Z.pos pb) with (Z.pos (pa + pb)).
  unfold binary_normalize, binary_round.
  assert (Hpa : 0 < 2 ^ (ea - ez)) by (apply Z.pow_pos_nonneg; lia).
  assert (Hpb : 0 < 2 ^ (eb - ez)) by (apply Z.pow_pos_nonneg; lia).
  (* the exact sum *)
  assert (Hval : (IZR (Z.pos (pa + pb)) * pow2 ez
                  = IZR (Z.pos ma) * pow2 ea + IZR (Z.pos mb) * pow2 eb)%R).
  { rewrite Pos2Z.inj_add, plus_IZR, Hva, Hvb, !mult_IZR.
    rewrite <- !pow2_IZR by lia.
    replace ea with ((ea - ez) + ez) at 2 by lia.
    replace eb with ((eb - ez) + ez) at 2 by lia.
    rewrite !pow2_add. ring. }
  destruct (digits_exists (pa + pb)) as (d & Hd1 & Hd & Hdig).
  assert (Hd24 : 24 <= d).
  { destruct (Z_lt_le_dec d 24) as [Hlt|]; [|done].
    assert (2 ^ d <= 2 ^ 23) by (apply Z.pow_le_mono_r; lia).
    rewrite Pos2Z.inj_add in Hd. nia. }
  assert (Hdez : d + ez <= 127).
  { assert (Hlt : (pow2 (d - 1 + ez) < pow2 127)%R).
    { eapply Rle_lt_trans; [|exact Hsum]. rewrite <- Hval, pow2_add.
      apply Rmult_le_compat_r; [apply Rlt_le, pow2_pos|].
      rewrite pow2_IZR by lia. apply IZR_le. lia. }
    apply pow2_lt_inv in Hlt. lia. }
  change (Z.pos (digits2_pos (pa + pb))) with (Zdigits2 (Z.pos (pa + pb))).
  rewrite Hdig, fexp32_normal by lia.
  assert (Halign : shl_align (pa + pb) ez (d + ez - 24) = ((pa + pb)%positive, ez)).
  { unfold shl_align. destruct (d + ez - 24 - ez) eqn:Hk; try done. lia. }
  rewrite Halign.
  destruct (round_positive (pa + pb) d ez Hd24 Hd ltac:(lia) ltac:(lia))
    as (Hn & Hs & Hexp & Hrel).
  split; [done|]. split; [done|]. split; [|by rewrite <- Hval].
  (* the sum has at least as many digits as its larger term *)
  assert (Hda : 23 + (ea - ez) < d).
  { apply (Z.pow_lt_mono_r_iff 2); [lia|lia|].
    rewrite Z.pow_add_r by lia. change (2 ^ 23) with 8388608.
    rewrite Pos2Z.inj_add in Hd. nia. }
  assert (Hdb : 23 + (eb - ez) < d).
  { apply (Z.pow_lt_mono_r_iff 2); [lia|lia|].
    rewrite Z.pow_add_r by lia. change (2 ^ 23) with 8388608.
    rewrite Pos2Z.inj_add in Hd. nia. }
  cbn [exponent32]. lia.
Qed.

(** Adding to [+0.0f], or adding [+0.0f], is exact. *)
Lemma SFadd_zero_l (b : binary32) :
  zero_or_normal b = true -> sign32 b = false ->
  SFadd prec32 emax32 (S754_zero false) b = b.
Proof. destruct b as [[]| | |s m e]; try done. Qed.

Lemma SFadd_zero_r (a b : binary32) :
  normal32 a = true -> is_zero32 b = true -> SFadd prec32 emax32 a b = a.
Proof. destruct a as [| | |s m e], b as [[]| | |]; try done. Qed.

End Round32.

Section Sqrt32.
Local Open Scope Z_scope.

(** The location of a square root: below, at or above [q + 1/2]. *)
Lemma sqrt_brackets (m q r e : Z) :
  0 < q -> m = q * q + r -> 0 <= r <= 2 * q ->
  brackets (sqrt (IZR m) * pow2 e)
    (shr_record_of_loc q
       (if (r =? 0) then loc_Exact else loc_Inexact (if (r <=? q) then Lt else Gt))) e.
Proof.
  intros Hq Hm Hr.
  set (X := sqrt (IZR m)).
  assert (Hm0 : (0 <= IZR m)%R) by (apply IZR_le; nia).
  assert (HX0 : (0 <= X)%R) by apply sqrt_pos.
  assert (HXX : (X * X = IZR q * IZR q + IZR r)%R).
  { unfold X. rewrite sqrt_sqrt by done. rewrite Hm, plus_IZR, mult_IZR. done. }
  assert (Hq' : (1 <= IZR q)%R) by (apply IZR_le; lia).
  assert (Hr0 : (0 <= IZR r)%R) by (apply IZR_le; lia).
  assert (Hr2 : (IZR r <= 2 * IZR q)%R).
  { rewrite <- mult_IZR. apply IZR_le. lia. }
  pose proof (pow2_pos e) as He.
  assert (Hlo : (IZR q <= X)%R) by nra.
  assert (Hhi : (X < IZR q + 1)%R) by nra.
  assert (Hin : (IZR q * pow2 e <= X * pow2 e < (IZR q + 1) * pow2 e)%R).
  { split; [apply Rmult_le_compat_r; lra|]. apply Rmult_lt_compat_r; lra. }
  destruct (r =? 0) eqn:Hz.
  - apply Z.eqb_eq in Hz. subst r. unfold brackets. simpl. split; [done|].
    assert (Hle : (X <= IZR q)%R) by nra.
    assert (Heq : X = IZR q) by lra. by rewrite Heq.
  - apply Z.eqb_neq in Hz.
    assert (Hr1 : (1 <= IZR r)%R) by (apply IZR_le; lia).
    destruct (r <=? q) eqn:Hle.
    + apply Z.leb_le in Hle. apply IZR_le in Hle. unfold brackets. simpl.
      split; [done|]. split; apply Rmult_lt_compat_r; try done; nra.
    + apply Z.leb_gt in Hle.
      assert (Hgt : (IZR q + 1 <= IZR r)%R).
      { rewrite <- plus_IZR. apply IZR_le. lia. }
      unfold brackets. simpl. split; [done|].
      apply Rmult_lt_compat_r; [done|]. nra.
Qed.

(** The square root of a positive normal float: a positive normal float
    within the unit roundoff of the exact root. *)
Lemma SFsqrt_normal (a : binary32) :
  normal32 a = true -> sign32 a = false ->
  normal32 (SFsqrt prec32 emax32 a) = true /\
  sign32 (SFsqrt prec32 emax32 a) = false /\
  rel_close u32 (B2R (SFsqrt prec32 emax32 a)) (sqrt (B2R a)).
Proof.
  intros Ha Hs.
  apply normal32_inv in Ha as (sa & m & e & -> & Hm & He).
  simpl in Hs. subst sa. rewrite B2R_positive.
  unfold SFsqrt, SFsqrt_core_binary.
  assert (Hdig : Zdigits2 (Z.pos m) = 24).
  { apply Zdigits2_unique; [|lia]. rewrite pow2_24. change (2 ^ (24 - 1)) with 8388608. lia. }
  rewrite Hdig.
  set (h := Z.div2 (24 + e + 1)).
  assert (Hh : 2 * h <= e + 25 <= 2 * h + 1).
  { unfold h. rewrite Z.div2_div. pose proof (Z.div_mod (24 + e + 1) 2 ltac:(lia)).
    pose proof (Z.mod_pos_bound (24 + e + 1) 2 ltac:(lia)). lia. }
  assert (Hh2 : 2 * Z.div2 e <= e <= 2 * Z.div2 e + 1).
  { rewrite Z.div2_div. pose proof (Z.div_mod e 2 ltac:(lia)).
    pose proof (Z.mod_pos_bound e 2 ltac:(lia)). lia. }
  rewrite fexp32_normal by lia.
  rewrite Z.min_l by lia.
  set (e' := h - 24).
  assert (Hs : e - 2 * e' = 23 \/ e - 2 * e' = 24) by (unfold e'; lia).
  set (s := e - 2 * e') in *.
  assert (Hm' : Z.shiftl (Z.pos m) s = Z.pos m * 2 ^ s).
  { apply Z.shiftl_mul_pow2. lia. }
  assert (Hsel : match s with
                 | Z.pos _ => Z.shiftl (Z.pos m) s
                 | 0 => Z.pos m
                 | Z.neg _ => 0
                 end = Z.pos m * 2 ^ s).
  { destruct Hs as [-> | ->]; exact Hm'. }
  rewrite Hsel. clear Hsel Hm'.
  set (m' := Z.pos m * 2 ^ s).
  assert (Hm'r : 2 ^ 46 <= m' < 2 ^ 48).
  { unfold m'. destruct Hs as [-> | ->].
    - change (2 ^ 23) with 8388608. change (2 ^ 46) with (8388608 * 8388608).
      change (2 ^ 48) with (16777216 * 16777216). lia.
    - change (2 ^ 24) with 16777216. change (2 ^ 46) with (8388608 * 8388608).
      change (2 ^ 48) with (16777216 * 16777216). lia. }
  pose proof (Z.sqrtrem_spec m' ltac:(lia)) as Hspec.
  destruct (Z.sqrtrem m') as [q r]. destruct Hspec as [Hqr Hr].
  assert (Hq : 2 ^ 23 <= q < 2 ^ 24).
  { change (2 ^ 46) with (2 ^ 23 * 2 ^ 23) in Hm'r.
    change (2 ^ 48) with (2 ^ 24 * 2 ^ 24) in Hm'r.
    assert (0 < 2 ^ 23) by lia. assert (0 < 2 ^ 24) by lia.
    assert (Hq0 : 0 <= q) by nia. split; nia. }
  set (x := (sqrt (IZR m') * pow2 e')%R).
  destruct (binary_round_aux_normal false q 24 e'
              (if (r =? 0) then loc_Exact else loc_Inexact (if (r <=? q) then Lt else Gt)) x)
    as (mr & er & Hres & Hmr & Her & Herr); try lia.
  { apply sqrt_brackets; lia. }
  rewrite Hres.
  split; [apply normal32_intro; lia|]. split; [done|].
  (* the value of the root *)
  assert (Hx : sqrt (IZR (Z.pos m) * pow2 e) = x).
  { unfold x. rewrite <- (sqrt_square (pow2 e')) by (apply Rlt_le, pow2_pos).
    rewrite <- sqrt_mult; [|apply IZR_le; lia
                           |apply Rmult_le_pos; apply Rlt_le, pow2_pos].
    f_equal. unfold m'. rewrite mult_IZR, <- pow2_IZR by lia.
    rewrite <- pow2_add, Rmult_assoc, <- pow2_add. f_equal. f_equal. unfold s. lia. }
  rewrite Hx.
  assert (Hxlo : (pow2 (24 - 1) * pow2 e' <= x)%R).
  { unfold x. apply Rmult_le_compat_r; [apply Rlt_le, pow2_pos|].
    rewrite pow2_IZR by lia.
    assert (Hm0 : (0 <= IZR m')%R) by (apply IZR_le; lia).
    assert (HX0 : (0 <= sqrt (IZR m'))%R) by apply sqrt_pos.
    assert (HXX : (sqrt (IZR m') * sqrt (IZR m') = IZR m')%R) by (by apply sqrt_sqrt).
    assert (Hge : (IZR (2 ^ (24 - 1)) * IZR (2 ^ (24 - 1)) <= IZR m')%R).
    { rewrite <- mult_IZR. apply IZR_le. change (2 ^ (24 - 1) * 2 ^ (24 - 1)) with (2 ^ 46). lia. }
    assert (0 < IZR (2 ^ (24 - 1)))%R by (apply IZR_lt; lia).
    nra. }
  pose proof (half_ulp_relative 24 e' x _ Hxlo Herr) as Hrel.
  assert (Hxpos : (0 < x)%R).
  { pose proof (pow2_pos (24 - 1)). pose proof (pow2_pos e'). nra. }
  unfold rel_close. simpl B2R. rewrite Rmult_1_l, (Rabs_right x) by lra. done.
Qed.

End Sqrt32.

Section Size32.
Local Open Scope Z_scope.

(** The conversion of a size to [float] is within the unit roundoff of
    the size. *)
Lemma Z_to_binary32_value (n : Z) :
  1 <= n < 2 ^ 64 ->
  normal32 (Z_to_binary32 n) = true /\ sign32 (Z_to_binary32 n) = false /\
  rel_close u32 (B2R (Z_to_binary32 n)) (IZR n).
Proof.
  intros Hn. destruct n as [|p|p]; try lia.
  unfold Z_to_binary32, binary_normalize, binary_round.
  pose proof (digits2_pos_spec p) as Hd.
  set (d := Z.pos (digits2_pos p)) in *.
  assert (Hd64 : d <= 64).
  { destruct (Z_le_gt_dec d 64) as [|Hgt]; [done|].
    assert (2 ^ 64 <= 2 ^ (d - 1)) by (apply Z.pow_le_mono_r; lia). lia. }
  replace (d + 0) with d by lia.
  rewrite fexp32_normal by lia.
  unfold shl_align. replace (d - 24 - 0) with (d - 24) by lia.
  assert (Hp0 : (IZR (Z.pos p) * pow2 0 = IZR (Z.pos p))%R).
  { unfold pow2. simpl. lra. }
  destruct (d - 24) as [|k|k] eqn:Hk.
  - destruct (round_positive p d 0) as (Hn' & Hs' & _ & Hrel); try lia.
    by rewrite Hp0 in Hrel.
  - destruct (round_positive p d 0) as (Hn' & Hs' & _ & Hrel); try lia.
    by rewrite Hp0 in Hrel.
  - rewrite Pos2Nat.inj_iter.
    match goal with
    | |- context [binary_round_aux _ _ _ (Z.pos ?t) _ _] => set (mz := t)
    end.
    assert (Hv : Z.pos mz = Z.pos p * 2 ^ Z.pos k).
    { rewrite <- (positive_nat_Z k). apply iter_xO_value. }
    assert (Hd24 : Z.pos k = 24 - d) by lia.
    assert (Hmz : 2 ^ (24 - 1) <= Z.pos mz < 2 ^ 24).
    { rewrite Hv, Hd24.
      assert (E1 : 2 ^ (24 - 1) = 2 ^ (d - 1) * 2 ^ (24 - d)).
      { rewrite <- Z.pow_add_r by lia. f_equal. lia. }
      assert (E2 : 2 ^ 24 = 2 ^ d * 2 ^ (24 - d)).
      { rewrite <- Z.pow_add_r by lia. f_equal. lia. }
      rewrite E1, E2.
      assert (0 < 2 ^ (24 - d)) by (apply Z.pow_pos_nonneg; lia). nia. }
    destruct (round_positive mz 24 (Z.neg k)) as (Hn' & Hs' & _ & Hrel); try lia.
    assert (Hval : (IZR (Z.pos mz) * pow2 (Z.neg k) = IZR (Z.pos p))%R).
    { rewrite Hv, mult_IZR, <- pow2_IZR by lia.
      rewrite Rmult_assoc, <- pow2_add.
      replace (Z.pos k + Z.neg k) with 0 by lia. exact Hp0. }
    by rewrite Hval in Hrel.
Qed.

(** The exponent of a normal number, from its size. *)
Lemma normal32_exponent (x : binary32) (a b : Z) :
  normal32 x = true -> (pow2 a <= Rabs (B2R x) < pow2 b)%R ->
  a - 23 <= exponent32 x <= b - 24.
Proof.
  intros Hx [Ha Hb].
  apply normal32_inv in Hx as (s & m & e & -> & Hm & He).
  rewrite B2R_abs_finite in Ha, Hb. cbn [exponent32].
  assert (H1 : (8388608 <= IZR (Z.pos m))%R) by (apply IZR_le; lia).
  assert (H2 : (IZR (Z.pos m) < 16777216)%R) by (apply IZR_lt; lia).
  pose proof (pow2_pos e) as Hp.
  assert (E1 : (pow2 (e + 23) = 8388608 * pow2 e)%R).
  { rewrite pow2_add. unfold pow2 at 2. simpl. lra. }
  assert (E2 : (pow2 (e + 24) = 16777216 * pow2 e)%R).
  { rewrite pow2_add. unfold pow2 at 2. simpl. lra. }
  assert (L1 : e + 23 < b) by (apply pow2_lt_inv; nra).
  assert (L2 : a < e + 24) by (apply pow2_lt_inv; nra).
  lia.
Qed.

End Size32.

Section SumSquares32.
Local Open Scope R_scope.

(** Rounding errors add up slowly: [k] roundings are at most twice [k]
    times the unit roundoff, while that is less than one. *)
Lemma pow_roundings (k : nat) :
  2 * INR k * u32 <= 1 -> (1 + u32) ^ k <= 1 + 2 * INR k * u32.
Proof.
  rewrite u32_value. induction k as [|k IH]; intros Hk.
  - simpl. lra.
  - rewrite S_INR in *. pose proof (pos_INR k) as Hk0.
    specialize (IH ltac:(lra)).
    change ((1 + / 16777216) ^ S k) with ((1 + / 16777216) * (1 + / 16777216) ^ k).
    assert (Hpos : 0 <= (1 + / 16777216) ^ k) by (apply pow_le; lra).
    nra.
Qed.

Lemma pow_roundings_ge (k : nat) : 1 <= (1 + u32) ^ k.
Proof. apply pow_R1_Rle. rewrite u32_value. lra. Qed.

Lemma pow_roundings_mono (j k : nat) : (j <= k)%nat -> (1 + u32) ^ j <= (1 + u32) ^ k.
Proof. intros H. apply Rle_pow; [rewrite u32_value; lra|done]. Qed.

(** The square of a sample of moderate size. *)
Lemma SFmul_square (x : binary32) (p : R) :
  sample_in_range x = true -> Rabs (B2R x) <= p ->
  let sq := SFmul prec32 emax32 x x in
  zero_or_normal sq = true /\ sign32 sq = false /\
  (is_zero32 x = true -> sq = S754_zero false) /\
  (normal32 x = true -> normal32 sq = true /\ (-103 <= exponent32 sq)%Z) /\
  0 <= B2R sq <= (1 + u32) * (p * p).
Proof.
  intros Hx Hp sq.
  pose proof (Rabs_pos (B2R x)) as Hx0.
  assert (Hu : 0 <= u32) by (rewrite u32_value; lra).
  destruct (sample_in_range_inv x Hx) as [Hzn Hex].
  unfold zero_or_normal in Hzn. apply orb_true_iff in Hzn as [Hz|Hn].
  - destruct x as [s| | |]; try done. unfold sq. simpl.
    assert (Hs : xorb s s = false) by (by destruct s). rewrite Hs.
    split; [done|]. split; [done|]. split; [done|]. split; [done|].
    simpl. split; [lra|]. apply Rmult_le_pos; [lra|]. apply Rmult_le_pos; lra.
  - specialize (Hex Hn).
    destruct (SFmul_normal x x Hn Hn ltac:(lia)) as (Hnsq & Hs & He & Hrel).
    fold sq in Hnsq, Hs, He, Hrel.
    assert (Hsf : sign32 sq = false) by (rewrite Hs; by destruct (sign32 x)).
    split; [unfold zero_or_normal; by rewrite Hnsq, orb_true_r|].
    split; [done|]. split; [by destruct x|].
    split; [split; [done|lia]|].
    assert (Hxx : B2R x * B2R x = Rabs (B2R x) * Rabs (B2R x)).
    { rewrite <- Rabs_mult. symmetry. apply Rabs_right. apply Rle_ge, Rle_0_sqr. }
    assert (Hpos : 0 <= B2R sq).
    { apply normal32_inv in Hnsq as (ss & ms & es & Hsq & _). rewrite Hsq in *.
      simpl in Hsf. subst ss. rewrite B2R_positive. apply Rlt_le, magnitude_pos. }
    split; [done|].
    apply rel_close_abs in Hrel as [_ Hup].
    rewrite (Rabs_right (B2R sq)) in Hup by lra.
    rewrite Rabs_mult in Hup.
    assert (Hsq : Rabs (B2R x) * Rabs (B2R x) <= p * p) by (apply Rmult_le_compat; lra).
    nra.
Qed.

(** The accumulation loop of [printStats]: the sum stays a zero or a
    positive normal number, and is at most the exact bound [k * p^2] times
    one rounding per addition and one for the squares. *)
Lemma sum_squares_loop (l : list binary32) (p : R) :
  Forall (fun x => sample_in_range x = true) l ->
  Forall (fun x => Rabs (B2R x) <= p) l ->
  p < pow2 40 ->
  forall (k : nat) (acc : binary32),
  (Z.of_nat (k + length l) + 1 <= 4194304)%Z ->
  zero_or_normal acc = true -> sign32 acc = false ->
  (normal32 acc = true -> (-103 <= exponent32 acc)%Z) ->
  B2R acc <= (1 + u32) ^ (k + 1) * (INR k * (p * p)) ->
  let res := fold_left (fun acc sample =>
                          SFadd prec32 emax32 acc (SFmul prec32 emax32 sample sample))
                       l acc in
  zero_or_normal res = true /\ sign32 res = false /\
  (normal32 res = true -> (-103 <= exponent32 res)%Z) /\
  (normal32 acc = true \/ Exists (fun x => normal32 x = true) l -> normal32 res = true) /\
  B2R res <= (1 + u32) ^ (k + length l + 1) * (INR (k + length l) * (p * p)).
Proof.
  intros Hall Hle Hp.
  induction l as [|x l IH]; intros k acc Hk Hzn Hs Hexp Hacc; cbn [fold_left].
  - rewrite Nat.add_0_r. split; [done|]. split; [done|]. split; [done|].
    split; [|done]. intros [H|H]; [done|]. by apply Exists_nil in H.
  - apply Forall_cons in Hall as [Hx Hall]. apply Forall_cons in Hle as [Hxp Hle].
    specialize (IH Hall Hle).
    cbn [length] in *.
    destruct (SFmul_square x p Hx Hxp) as (Hsqzn & Hsqs & Hsqz & Hsqn & Hsq0 & Hsqle).
    set (sq := SFmul prec32 emax32 x x) in *.
    set (acc' := SFadd prec32 emax32 acc sq).
    assert (Hu : 0 <= u32) by (rewrite u32_value; lra).
    assert (Hp0 : 0 <= p) by (pose proof (Rabs_pos (B2R x)); lra).
    assert (Hpp : 0 <= p * p) by (apply Rmult_le_pos; lra).
    assert (Hpp80 : p * p <= pow2 80).
    { replace 80%Z with (40 + 40)%Z by lia. rewrite pow2_add.
      apply Rmult_le_compat; lra. }
    assert (Hk1 : (1 + u32) ^ (k + 1) <= 2).
    { eapply Rle_trans; [apply pow_roundings|].
      - rewrite u32_value. assert (INR (k + 1) <= 4194304).
        { rewrite INR_IZR_INZ. apply IZR_le. lia. }
        lra.
      - rewrite u32_value. assert (INR (k + 1) <= 4194304).
        { rewrite INR_IZR_INZ. apply IZR_le. lia. }
        lra. }
    assert (Hkge : 1 <= (1 + u32) ^ (k + 1)) by apply pow_roundings_ge.
    assert (HkR : 0 <= INR k <= 4194304).
    { split; [apply pos_INR|]. rewrite INR_IZR_INZ. apply IZR_le. lia. }
    (* the new sum *)
    assert (Hstep : zero_or_normal acc' = true /\ sign32 acc' = false /\
                    (normal32 acc' = true -> (-103 <= exponent32 acc')%Z) /\
                    (normal32 acc = true \/ normal32 x = true -> normal32 acc' = true) /\
                    B2R acc' <= (1 + u32) ^ (S k + 1) * (INR (S k) * (p * p))).
    { assert (Hgoal : B2R acc + B2R sq <= (1 + u32) ^ (k + 1) * (INR (S k) * (p * p))).
      { rewrite S_INR.
        assert (H1 : 1 + u32 <= (1 + u32) ^ (k + 1)).
        { rewrite <- (pow_1 (1 + u32)) at 1. apply pow_roundings_mono. lia. }
        assert (H2 : (1 + u32) * (p * p) <= (1 + u32) ^ (k + 1) * (p * p))
          by (apply Rmult_le_compat_r; lra).
        lra. }
      assert (Hpow : (1 + u32) ^ (S k + 1) = (1 + u32) * (1 + u32) ^ (k + 1)) by done.
      assert (Hsk : 0 <= INR (S k) * (p * p)).
      { apply Rmult_le_pos; [apply pos_INR|done]. }
      assert (Hfin : forall v, v <= (1 + u32) * (B2R acc + B2R sq) ->
                     v <= (1 + u32) ^ (S k + 1) * (INR (S k) * (p * p))).
      { intros v Hv. rewrite Hpow.
        assert (H1 : (1 + u32) * (B2R acc + B2R sq)
                     <= (1 + u32) * ((1 + u32) ^ (k + 1) * (INR (S k) * (p * p))))
          by (apply Rmult_le_compat_l; lra).
        lra. }
      assert (Hacc0 : 0 <= B2R acc).
      { unfold zero_or_normal in Hzn. apply orb_true_iff in Hzn as [Hz|Hn].
        - rewrite (B2R_zero acc Hz). lra.
        - apply normal32_inv in Hn as (sa & ma & ea & Ha & _). rewrite Ha in *.
          simpl in Hs. subst sa. rewrite B2R_positive. apply Rlt_le, magnitude_pos. }
      pose proof Hacc as Hacc2. clear Hgoal Hpow Hacc.
      unfold zero_or_normal in Hzn, Hsqzn.
      apply orb_true_iff in Hzn as [Hz|Hn]; apply orb_true_iff in Hsqzn as [Hsz|Hsn].
      - (* zero plus zero *)
        destruct acc as [[]| | |]; try done. destruct sq as [[]| | |] eqn:Esq; try done.
        assert (Hadd : acc' = S754_zero false) by reflexivity.
        rewrite Hadd.
        split; [done|]. split; [done|]. split; [done|]. split.
        + intros [H|H]; [done|]. by destruct (Hsqn H) as [H' _].
        + apply Hfin. nra.
      - (* zero plus a square *)
        destruct acc as [[]| | |]; try done.
        assert (Hadd : acc' = sq).
        { unfold acc'. apply SFadd_zero_l; [|done].
          unfold zero_or_normal. by rewrite Hsn, orb_true_r. }
        rewrite Hadd. split; [unfold zero_or_normal; by rewrite Hsn, orb_true_r|].
        split; [done|]. split.
        { intros _. destruct (normal32 x) eqn:Hnx; [by destruct (Hsqn eq_refl)|].
          destruct (sample_in_range_inv x Hx) as [Hzx _].
          unfold zero_or_normal in Hzx. rewrite Hnx, orb_false_r in Hzx.
          rewrite (Hsqz Hzx) in Hsn. done. }
        split; [done|]. apply Hfin. nra.
      - (* a sum plus zero *)
        assert (Hadd : acc' = acc) by (unfold acc'; by apply SFadd_zero_r).
        rewrite Hadd. split; [unfold zero_or_normal; by rewrite Hn, orb_true_r|].
        split; [done|]. split; [done|]. split; [done|].
        apply Hfin. nra.
      - (* a sum plus a square *)
        assert (Hsum : B2R acc + B2R sq < pow2 127).
        { assert (H105 : pow2 80 * 16777216 <= pow2 127).
          { replace 16777216 with (pow2 24) by (unfold pow2; simpl; lra).
            rewrite <- pow2_add. apply pow2_le. lia. }
          assert (Hacc' : B2R acc <= 2 * (4194304 * pow2 80)).
          { eapply Rle_trans; [exact Hacc2|].
            apply Rmult_le_compat; try lra.
            - apply Rmult_le_pos; lra.
            - apply Rmult_le_compat; lra. }
          pose proof (pow2_pos 80). rewrite u32_value in *. nra. }
        destruct (SFadd_normal_pos acc sq Hn Hsn Hs Hsqs Hsum) as (Hn' & Hs' & He' & Hrel).
        fold acc' in Hn', Hs', He', Hrel.
        split; [unfold zero_or_normal; by rewrite Hn', orb_true_r|].
        split; [done|]. split; [intros _; specialize (Hexp Hn); lia|].
        split; [done|].
        apply rel_close_abs in Hrel as [_ Hup].
        rewrite (Rabs_right (B2R acc + B2R sq)) in Hup by lra.
        assert (Hacc'0 : Rabs (B2R acc') = B2R acc').
        { apply normal32_inv in Hn' as (sa & ma & ea & Ha & _). rewrite Ha in *.
          simpl in Hs'. subst sa. rewrite B2R_positive.
          apply Rabs_right, Rle_ge, Rlt_le, magnitude_pos. }
        rewrite Hacc'0 in Hup. apply Hfin. lra. }
    destruct Hstep as (Hzn' & Hs' & Hexp' & Hnorm' & Hacc').
    destruct (IH (S k) acc' ltac:(lia) Hzn' Hs' Hexp' Hacc')
      as (R1 & R2 & R3 & R4 & R5).
    replace (k + S (length l))%nat with (S k + length l)%nat by lia.
    split; [done|]. split; [done|]. split; [done|]. split; [|done].
    intros [H|H].
    + apply R4. left. apply Hnorm'. by left.
    + apply Exists_cons in H as [H|H].
      * apply R4. left. apply Hnorm'. by right.
      * apply R4. by right.
Qed.

End SumSquares32.

Section Rms32.
Local Open Scope R_scope.

Lemma sqrt_roundings (k : nat) : sqrt ((1 + u32) ^ k) <= (1 + u32) ^ k.
Proof.
  pose proof (pow_roundings_ge k) as H1.
  set (a := (1 + u32) ^ k) in *.
  assert (H0 : 0 <= a) by lra.
  pose proof (sqrt_pos a) as Hs. pose proof (sqrt_sqrt a H0) as Hss.
  destruct (Rle_dec 1 (sqrt a)) as [Hge|Hlt]; [nra|].
  apply Rnot_le_lt in Hlt. nra.
Qed.

(** The error analysis of the root mean square over the reals: [acc] is
    the rounded sum, [s] the rounded size, [m] the rounded mean and [r]
    the rounded root. *)
Lemma rms_roundings (n : nat) (p acc s m r : R) :
  1 <= INR n -> 2 * INR (n + 5) * u32 <= 1 -> 0 <= p ->
  0 <= acc <= (1 + u32) ^ (n + 1) * (INR n * (p * p)) ->
  rel_close u32 s (INR n) ->
  0 <= m -> rel_close u32 m (acc / s) ->
  rel_close u32 r (sqrt m) ->
  r <= (1 + 2 * INR (n + 5) * u32) * p.
Proof.
  intros Hn Hsmall Hp [Hacc0 Hacc] Hs Hm0 Hm Hr.
  assert (Hu : 0 < u32 < / 2) by (rewrite u32_value; lra).
  set (U := 1 + u32) in *.
  assert (HU1 : 1 <= U) by (unfold U; lra).
  assert (Hpp : 0 <= p * p) by (apply Rmult_le_pos; lra).
  (* the size *)
  unfold rel_close in Hs. rewrite (Rabs_right (INR n)) in Hs by lra.
  assert (Hs1 : (1 - u32) * INR n <= s).
  { pose proof (Rle_abs (- (s - INR n))) as H. rewrite Rabs_Ropp in H. lra. }
  assert (Hspos : 0 < s) by nra.
  (* the quotient *)
  assert (HUn : 1 <= U ^ (n + 1)) by apply pow_roundings_ge.
  assert (Hq : acc / s <= U ^ (n + 3) * (p * p)).
  { apply Rmult_le_reg_r with s; [done|].
    unfold Rdiv. rewrite Rmult_assoc, Rinv_l, Rmult_1_r by lra.
    replace (n + 3)%nat with ((n + 1) + 2)%nat by lia. rewrite pow_add.
    assert (H2 : 1 <= U ^ 2 * (1 - u32)).
    { unfold U. simpl. nra. }
    assert (H3 : INR n * (p * p) <= U ^ 2 * (p * p) * s).
    { assert (H4 : 0 <= INR n * (p * p)) by (apply Rmult_le_pos; lra).
      assert (H5 : U ^ 2 * (p * p) * ((1 - u32) * INR n) <= U ^ 2 * (p * p) * s).
      { apply Rmult_le_compat_l; [|done].
        apply Rmult_le_pos; [|done]. apply pow_le. lra. }
      nra. }
    assert (H6 : U ^ (n + 1) * (INR n * (p * p)) <= U ^ (n + 1) * (U ^ 2 * (p * p) * s))
      by (apply Rmult_le_compat_l; lra).
    lra. }
  assert (Hq0 : 0 <= acc / s).
  { apply Rmult_le_pos; [done|]. apply Rlt_le, Rinv_0_lt_compat. done. }
  (* the mean *)
  apply rel_close_abs in Hm as [_ Hmup].
  rewrite (Rabs_right m), (Rabs_right (acc / s)) in Hmup by lra.
  assert (Hmean : m <= U ^ (n + 4) * (p * p)).
  { replace (n + 4)%nat with (S (n + 3)) by lia.
    change (U ^ S (n + 3)) with (U * U ^ (n + 3)).
    assert (U * (acc / s) <= U * (U ^ (n + 3) * (p * p)))
      by (apply Rmult_le_compat_l; lra).
    assert (U * (acc / s) = acc / s + u32 * (acc / s)) by (unfold U; ring).
    rewrite <- Rmult_assoc in *. lra. }
  (* the root *)
  assert (Hroot : sqrt m <= U ^ (n + 4) * p).
  { eapply Rle_trans; [apply sqrt_le_1_alt, Hmean|].
    rewrite sqrt_mult_alt by (apply pow_le; lra).
    rewrite sqrt_square by done.
    apply Rmult_le_compat_r; [done|]. apply sqrt_roundings. }
  apply rel_close_abs in Hr as [_ Hrup].
  pose proof (sqrt_pos m) as Hsq0.
  rewrite (Rabs_right (sqrt m)) in Hrup by lra.
  assert (Hr' : r <= U * sqrt m).
  { pose proof (Rle_abs r).
    assert (U * sqrt m = sqrt m + u32 * sqrt m) by (unfold U; ring). lra. }
  assert (Hfinal : r <= U ^ (n + 5) * p).
  { replace (n + 5)%nat with (S (n + 4)) by lia.
    change (U ^ S (n + 4)) with (U * U ^ (n + 4)).
    assert (U * sqrt m <= U * (U ^ (n + 4) * p))
      by (apply Rmult_le_compat_l; lra).
    rewrite <- Rmult_assoc in *. lra. }
  eapply Rle_trans; [exact Hfinal|].
  apply Rmult_le_compat_r; [done|]. by apply pow_roundings.
Qed.

(** The ratio of the peak to a root mean square that is at most
    [(1 + c)] times the peak. *)
Lemma ratio_roundings (p r c t : R) :
  0 <= c -> 0 < r <= (1 + c) * p -> rel_close u32 t (p / r) ->
  1 - c - u32 <= t.
Proof.
  intros Hc [Hr0 Hr] Ht.
  assert (Hu : 0 < u32 < / 2) by (rewrite u32_value; lra).
  set (q := p / r) in *.
  assert (Hqr : q * r = p) by (unfold q; field; lra).
  assert (Hq1 : 1 <= (1 + c) * q).
  { apply Rmult_le_reg_r with r; [done|]. nra. }
  assert (Hq : 1 - c <= q) by nra.
  assert (Hq0 : 0 < q) by nra.
  unfold rel_close in Ht. rewrite (Rabs_right q) in Ht by lra.
  pose proof (Rle_abs (- (t - q))) as H. rewrite Rabs_Ropp in H.
  nra.
Qed.

Lemma normal32_lower (x : binary32) (a : Z) :
  normal32 x = true -> (a <= exponent32 x)%Z -> pow2 (a + 23) <= Rabs (B2R x).
Proof.
  intros Hx Ha.
  apply normal32_inv in Hx as (s & m & e & -> & Hm & He).
  rewrite B2R_abs_finite. cbn [exponent32] in Ha.
  assert (H1 : 8388608 <= IZR (Z.pos m)) by (apply IZR_le; lia).
  pose proof (pow2_le a e Ha) as Hle. pose proof (pow2_pos a) as Hp.
  rewrite Z.add_comm, pow2_add.
  replace (pow2 23) with 8388608 by (unfold pow2; simpl; lra).
  nra.
Qed.

Lemma normal32_positive (x : binary32) :
  normal32 x = true -> sign32 x = false -> 0 < B2R x /\ Rabs (B2R x) = B2R x.
Proof.
  intros Hx Hs.
  apply normal32_inv in Hx as (s & m & e & -> & _). simpl in Hs. subst s.
  rewrite B2R_positive. pose proof (magnitude_pos m e) as H.
  split; [done|]. apply Rabs_right. lra.
Qed.

Lemma slack_value (n : nat) : rms_slack n = 2 * INR (n + 5) * u32 + 2 * u32.
Proof.
  unfold rms_slack. rewrite plus_INR, u32_value.
  replace (pow2 (-23)) with (/ 8388608) by (unfold pow2; simpl; lra).
  simpl INR. lra.
Qed.

(** The root mean square and the crest factor that [printStats] computes
    for a buffer of moderate samples. *)
Lemma rms32_spec (audio_data : list binary32) :
  audio_data <> [] ->
  Forall (fun x => sample_in_range x = true) audio_data ->
  (Z.of_nat (length audio_data) + 6 <= 4194304)%Z ->
  let peak := peak_magnitude audio_data in
  let rms := SFsqrt prec32 emax32
               (SFdiv prec32 emax32 (sum_squares audio_data)
                      (Z_to_binary32 (Z.of_nat (length audio_data)))) in
  let ratio := if SFltb (S754_zero false) rms
               then SFdiv prec32 emax32 peak rms else S754_zero false in
  (SFeqb peak (S754_zero false) = true ->
   rms = S754_zero false /\ ratio = S754_zero false) /\
  (SFeqb peak (S754_zero false) = false ->
   normal32 rms = true /\ sign32 rms = false /\
   B2R rms <= (1 + rms_slack (length audio_data)) * B2R peak /\
   normal32 ratio = true /\ sign32 ratio = false /\
   1 - rms_slack (length audio_data) <= B2R ratio).
Proof.
  intros Hne Hall Hlen peak rms ratio.
  assert (Hu : 0 < u32 < / 2) by (rewrite u32_value; lra).
  assert (Hzn : Forall (fun x => zero_or_normal x = true) audio_data).
  { eapply Forall_impl; [exact Hall|]. intros x Hx. by apply sample_in_range_inv. }
  destruct (peak_magnitude_spec audio_data Hzn) as (Hpzn & Hps & Hpor & Hple).
  fold peak in Hpzn, Hps, Hpor, Hple.
  set (p := B2R peak) in *.
  set (n := length audio_data) in *.
  assert (Hn1 : (1 <= n)%nat).
  { unfold n. destruct audio_data; [done|]. simpl. lia. }
  assert (Hp0 : 0 <= p).
  { destruct audio_data as [|x l]; [done|]. apply Forall_cons in Hple as [Hx _].
    pose proof (Rabs_pos (B2R x)). lra. }
  assert (Hp40 : p < pow2 40).
  { destruct Hpor as [Hz|(x & Hx & Hz)]; unfold p; rewrite Hz.
    - cbn [B2R]. apply pow2_pos.
    - rewrite B2R_abs. rewrite Forall_forall in Hall. specialize (Hall x Hx).
      unfold sample_in_range in Hall. apply orb_true_iff in Hall as [Hx0|Hxm].
      + rewrite (B2R_zero x Hx0), Rabs_R0. apply pow2_pos.
      + by apply moderate32_magnitude. }
  assert (Hpp : 0 <= p * p) by (apply Rmult_le_pos; lra).
  (* the sum of the squares *)
  destruct (sum_squares_loop audio_data p Hall Hple Hp40 0 (S754_zero false))
    as (Szn & Ssign & Sexp & Snorm & Sle); try done.
  { fold n. lia. }
  { simpl. rewrite Rmult_0_l, Rmult_0_r. lra. }
  change (fold_left _ audio_data (S754_zero false)) with (sum_squares audio_data)
    in Szn, Ssign, Sexp, Snorm, Sle.
  fold n in Sle. cbn [Nat.add] in Sle.
  set (acc := sum_squares audio_data) in *.
  (* the size *)
  destruct (Z_to_binary32_value (Z.of_nat n)) as (Hsn & Hss & Hsrel).
  { change (2 ^ 64)%Z with 18446744073709551616%Z. lia. }
  rewrite <- INR_IZR_INZ in Hsrel.
  set (size := Z_to_binary32 (Z.of_nat n)) in *.
  assert (HnR : 1 <= INR n <= 4194304 - 6).
  { rewrite INR_IZR_INZ. split; [apply IZR_le; lia|].
    rewrite <- minus_IZR. apply IZR_le. lia. }
  split.
  - (* silence *)
    intros Hz.
    assert (Hpz : p = 0).
    { unfold p. revert Hz. generalize peak.
      intros [s| | |s m e]; try done. by destruct s. }
    rewrite Hpz, !Rmult_0_r in Sle.
    assert (Hacc : acc = S754_zero false).
    { unfold zero_or_normal in Szn. apply orb_true_iff in Szn as [Hz0|Hn0].
      - destruct acc as [[]| | |]; done.
      - destruct (normal32_positive acc Hn0 Ssign). lra. }
    apply normal32_inv in Hsn as (s & m & e & Hsize & _).
    rewrite Hsize in Hss. simpl in Hss. subst s.
    assert (Hrms : rms = S754_zero false) by (unfold rms; by rewrite Hacc, Hsize).
    split; [done|]. unfold ratio. by rewrite Hrms.
  - (* a buffer with a sound *)
    intros Hnz.
    destruct (peak_magnitude_nonzero audio_data Hzn Hnz) as (x & Hx & Hxn & Hpeak).
    fold peak in Hpeak.
    assert (Haccn : normal32 acc = true).
    { apply Snorm. right. apply Exists_exists. by exists x. }
    specialize (Sexp Haccn).
    destruct (normal32_positive acc Haccn Ssign) as [Hacc0 Haccabs].
    assert (HU2 : (1 + u32) ^ (n + 1) <= 2).
    { eapply Rle_trans; [apply pow_roundings|];
        rewrite plus_INR, u32_value; simpl INR; lra. }
    assert (HU1 : 1 <= (1 + u32) ^ (n + 1)) by apply pow_roundings_ge.
    assert (Hpp80 : p * p <= pow2 80).
    { replace 80%Z with (40 + 40)%Z by lia. rewrite pow2_add.
      apply Rmult_le_compat; lra. }
    assert (Haccup : B2R acc < pow2 104).
    { assert (H1 : B2R acc <= 2 * (4194304 * pow2 80)).
      { eapply Rle_trans; [exact Sle|].
        apply Rmult_le_compat; try lra.
        - apply Rmult_le_pos; lra.
        - apply Rmult_le_compat; lra. }
      assert (E : pow2 104 = 16777216 * pow2 80).
      { replace 16777216 with (pow2 24) by (unfold pow2; simpl; lra).
        rewrite <- pow2_add. f_equal. }
      pose proof (pow2_pos 80). lra. }
    assert (Hea : (exponent32 acc <= 80)%Z).
    { pose proof (normal32_exponent acc (-200) 104 Haccn) as H.
      rewrite Haccabs in H.
      assert (pow2 (-200) <= B2R acc).
      { pose proof (normal32_lower acc (-103) Haccn Sexp) as H'.
        rewrite Haccabs in H'. pose proof (pow2_le (-200) (-103 + 23) ltac:(lia)). lra. }
      specialize (H ltac:(lra)). lia. }
    (* the size *)
    destruct (normal32_positive size Hsn Hss) as [Hs0 Hsabs].
    assert (Hsize : (1 - u32) * INR n <= B2R size <= (1 + u32) * INR n).
    { unfold rel_close in Hsrel. rewrite (Rabs_right (INR n)) in Hsrel by lra.
      pose proof (Rle_abs (B2R size - INR n)).
      pose proof (Rle_abs (- (B2R size - INR n))) as H'. rewrite Rabs_Ropp in H'.
      lra. }
    assert (Hes : (-24 <= exponent32 size <= -1)%Z).
    { pose proof (normal32_exponent size (-1) 23 Hsn) as H.
      rewrite Hsabs in H.
      replace (pow2 (-1)) with (/ 2) in H by (unfold pow2; simpl; lra).
      replace (pow2 23) with 8388608 in H by (unfold pow2; simpl; lra).
      specialize (H ltac:(nra)). lia. }
    (* the mean *)
    destruct (SFdiv_normal acc size Haccn Hsn ltac:(lia)) as (Hmn & Hms & Hme & Hmrel).
    rewrite Ssign, Hss in Hms. simpl in Hms.
    set (mean := SFdiv prec32 emax32 acc size) in *.
    destruct (normal32_positive mean Hmn Hms) as [Hm0 Hmabs].
    (* the root *)
    destruct (SFsqrt_normal mean Hmn Hms) as (Hrn & Hrs & Hrrel).
    change (SFsqrt prec32 emax32 mean) with rms in Hrn, Hrs, Hrrel.
    destruct (normal32_positive rms Hrn Hrs) as [Hr0 Hrabs].
    assert (Hsmall : 2 * INR (n + 5) * u32 <= 1).
    { rewrite plus_INR. simpl INR. rewrite u32_value. lra. }
    assert (Hrup : B2R rms <= (1 + 2 * INR (n + 5) * u32) * p).
    { apply (rms_roundings n p (B2R acc) (B2R size) (B2R mean) (B2R rms)); try done; lra. }
    assert (Hc0 : 0 <= 2 * INR (n + 5) * u32).
    { pose proof (pos_INR (n + 5)). nra. }
    rewrite slack_value.
    split; [done|]. split; [done|]. split; [nra|].
    (* the ratio *)
    assert (Hlt : SFltb (S754_zero false) rms = true).
    { apply normal32_inv in Hrn as (s & m & e & Hrms & _). rewrite Hrms in *.
      simpl in Hrs. by subst s. }
    unfold ratio. rewrite Hlt.
    assert (Hpn : normal32 peak = true /\ (-63 <= exponent32 peak <= 16)%Z).
    { rewrite Hpeak. destruct (normal32_abs x Hxn) as [H1 H2]. rewrite H2.
      split; [done|]. rewrite Forall_forall in Hall.
      by apply (sample_in_range_inv x (Hall x Hx)). }
    destruct Hpn as [Hpn Hpe].
    assert (Her : (-76 <= exponent32 rms <= 17)%Z).
    { pose proof (normal32_exponent rms (-53) 41 Hrn) as H.
      rewrite Hrabs in H.
      assert (Hlo : pow2 (-53) <= B2R rms).
      { pose proof (normal32_lower mean (-127) Hmn ltac:(lia)) as Hml.
        rewrite Hmabs in Hml.
        assert (Hsq : pow2 (-52) <= sqrt (B2R mean)).
        { rewrite <- (sqrt_square (pow2 (-52))) by (apply Rlt_le, pow2_pos).
          apply sqrt_le_1_alt. rewrite <- pow2_add. exact Hml. }
        unfold rel_close in Hrrel.
        rewrite (Rabs_right (sqrt (B2R mean))) in Hrrel
          by (apply Rle_ge, sqrt_pos).
        pose proof (Rle_abs (- (B2R rms - sqrt (B2R mean)))) as H'.
        rewrite Rabs_Ropp in H'.
        assert (E : pow2 (-52) = 2 * pow2 (-53)).
        { replace (-52)%Z with (-53 + 1)%Z by lia. apply pow2_succ. }
        pose proof (pow2_pos (-53)). nra. }
      assert (Hhi : B2R rms < pow2 41).
      { replace 41%Z with (40 + 1)%Z by lia. rewrite pow2_succ. nra. }
      specialize (H ltac:(lra)). lia. }
    destruct (SFdiv_normal peak rms Hpn Hrn ltac:(lia)) as (Hqn & Hqs & _ & Hqrel).
    rewrite Hps, Hrs in Hqs. simpl in Hqs.
    split; [done|]. split; [done|].
    fold p in Hqrel.
    pose proof (ratio_roundings p (B2R rms) (2 * INR (n + 5) * u32) _ Hc0
                  (conj Hr0 Hrup) Hqrel) as H.
    lra.
Qed.

End Rms32.

(** X21.  In [float] arithmetic, for every buffer of at most 4194298
    samples, each zero or of moderate size, that is not empty,
    [printStats] logs the peak of the scan, and the root mean square and
    the ratio it logs obey the peak up to the rounding of the
    accumulation: for a silent buffer both are [+0], and otherwise the
    root mean square is a positive normal number at most
    [1 + (n + 6) * 2^-23] times the peak, and the ratio is a positive
    normal number at least [1 - (n + 6) * 2^-23].  (The root mean square
    can be above the peak by a rounding.) *)
Theorem rms_at_most_peak_up_to_rounding (audio_data : list binary32) (title : string) :
  audio_data <> [] ->
  Forall (fun x => sample_in_range x = true) audio_data ->
  (Z.of_nat (length audio_data) + 6 <= 4194304)%Z ->
  exists min_val max_val rms ratio,
    logged_values (printStats audio_data title)
    = [min_val; max_val; peak_magnitude audio_data; rms; ratio] /\
    (SFeqb (peak_magnitude audio_data) (S754_zero false) = true ->
     rms = S754_zero false /\ ratio = S754_zero false) /\
    (SFeqb (peak_magnitude audio_data) (S754_zero false) = false ->
     normal32 rms = true /\ sign32 rms = false /\
     (B2R rms <= (1 + rms_slack (length audio_data)) * B2R (peak_magnitude audio_data))%R /\
     normal32 ratio = true /\ sign32 ratio = false /\
     (1 - rms_slack (length audio_data) <= B2R ratio)%R).
Proof.
  intros Hne Hall Hlen.
  assert (Hfin : Forall (fun x => finite32 x = true) audio_data).
  { eapply Forall_impl; [exact Hall|]. intros x Hx.
    by apply zero_or_normal_finite, sample_in_range_inv. }
  destruct (printStats_finite audio_data title Hne Hfin)
    as (mn & mx & rms & ratio & Hlog & _).
  pose proof (rms32_spec audio_data Hne Hall Hlen) as Hspec.
  exists mn, mx, rms, ratio. split; [exact Hlog|].
  destruct audio_data as [|first rest]; [done|].
  unfold printStats, logged_values in Hlog. cbn [flat_map app] in Hlog.
  injection Hlog as _ _ Hpeak Hrms Hratio.
  rewrite Hpeak in Hratio. rewrite <- Hrms, <- Hratio. exact Hspec.
Qed.

Lemma rms_at_most_peak_up_to_rounding_witness :
  exists min_val max_val rms ratio,
    logged_values (printStats scenario_buffer "Before Normalization")
    = [min_val; max_val; peak_magnitude scenario_buffer; rms; ratio] /\
    (SFeqb (peak_magnitude scenario_buffer) (S754_zero false) = true ->
     rms = S754_zero false /\ ratio = S754_zero false) /\
    (SFeqb (peak_magnitude scenario_buffer) (S754_zero false) = false ->
     normal32 rms = true /\ sign32 rms = false /\
     (B2R rms <= (1 + rms_slack (length scenario_buffer))
                 * B2R (peak_magnitude scenario_buffer))%R /\
     normal32 ratio = true /\ sign32 ratio = false /\
     (1 - rms_slack (length scenario_buffer) <= B2R ratio)%R).
Proof.
  apply (rms_at_most_peak_up_to_rounding scenario_buffer "Before Normalization").
  - discriminate.
  - repeat constructor.
  - vm_compute. discriminate.
Defined.

(** The slack is needed: on [rounding_buffer] the root mean square that
    is logged is one unit in the last place above the peak, and the ratio
    is below one. *)
Example rms_above_peak_by_rounding :
  exists min_val max_val peak rms ratio,
    logged_values (printStats rounding_buffer "Before Normalization")
    = [min_val; max_val; peak; rms; ratio] /\
    SFltb peak rms = true /\ SFltb ratio (Z_to_binary32 1) = true.
Proof.
  do 5 eexists. split; [vm_compute; reflexivity|]. split; vm_compute; reflexivity.
Qed.
